(** * Ralph Mission Control server (ralph-dashboard/server.py)

    A shallow embedding of the request handlers of [MissionControlHandler]
    and the properties of the log-access and log-tailing subsystem.

    Conventions of the model.
    - Python [str] values are [string]s whose characters are the code
      points below 256; Python [int]s are [Z].
    - A handler is a function from the state of the file system (and, for
      the stream, from what the file looked like at each turn of its loop)
      to the ordered trace of the effects it performs: the calls on the
      response ([send_response], [send_header], [end_headers],
      [wfile.write], ...) and the accesses to the file system ([exists],
      [stat], [open], [glob]), together with its result or the exception
      that ended it.
    - [json.loads], [str.strip], [int], [pathlib] joins, [glob] patterns and
      [sorted] are library code; they are modelled here from their
      documented behaviour so that the handlers can be run on concrete
      inputs.  The general theorems use [Json.loads] only through the
      equations of its call sites.
    - The exceptions that the handlers do not catch are part of the model:
      [json.loads] raises [RecursionError] on a text nested deeper than
      the interpreter allows and [ValueError] on an integer with more
      digits than it allows, [json.dumps] raises [RecursionError] on a
      value nested deeper than it encodes, [int] raises [ValueError], and
      reading a file whose bytes are not text raises [UnicodeDecodeError].
      The limits belong to the interpreter, not to the program: they are
      the fields of [Interpreter], and the general theorems hold for every
      value of them.
    - Left out: the loss of the connection, which ends a stream from
      outside; the loop of [stream_log] is followed for as long as the peer
      stays connected. *)

From Stdlib Require Import ZArith List String Ascii Bool Lia Permutation Sorted.
Import ListNotations.

Local Open Scope Z_scope.
Local Open Scope string_scope.
Local Open Scope list_scope.

Set Implicit Arguments.

(** * Python strings *)

Module Py.

(** The double quote and the line terminators. *)
Definition dquote : ascii := "034"%char.
Definition LF : ascii := "010"%char.
Definition CR : ascii := "013"%char.

Definition code (c : ascii) : N := N_of_ascii c.

Definition in_range (lo hi : N) (c : ascii) : bool :=
  (N.leb lo (code c) && N.leb (code c) hi)%bool.

(** [str.isspace] on one character, for code points below 256: TAB, LF, VT,
    FF, CR, the separators FS GS RS US, SPACE, NEL and NBSP. *)
Definition isspace (c : ascii) : bool :=
  (in_range 9 13 c || in_range 28 32 c
   || N.eqb (code c) 133 || N.eqb (code c) 160)%bool.

Definition isdigit (c : ascii) : bool := in_range 48 57 c.

Fixpoint lstrip (s : list ascii) : list ascii :=
  match s with
  | c :: r => if isspace c then lstrip r else s
  | [] => []
  end.

Definition rstrip (s : list ascii) : list ascii := rev (lstrip (rev s)).

(** [s.strip()] *)
Definition strip (s : string) : string :=
  string_of_list_ascii (rstrip (lstrip (list_ascii_of_string s))).

(** Truth value of a string: [if line:] *)
Definition truthy (s : string) : bool :=
  match s with EmptyString => false | String _ _ => true end.

(** [s.startswith(p)] and [s.endswith(p)] *)
Definition startswith (p s : string) : bool := String.prefix p s.

Fixpoint list_prefix (p s : list ascii) : bool :=
  match p, s with
  | [], _ => true
  | a :: p', b :: s' => (Ascii.eqb a b && list_prefix p' s')%bool
  | _ :: _, [] => false
  end.

Definition endswith (p s : string) : bool :=
  list_prefix (rev (list_ascii_of_string p)) (rev (list_ascii_of_string s)).

(** [s.split(sep)] for a one-character separator: never empty. *)
Fixpoint split_chars (sep : ascii) (cur : list ascii) (s : list ascii)
  : list string :=
  match s with
  | [] => [string_of_list_ascii (rev cur)]
  | c :: r =>
      if Ascii.eqb c sep
      then string_of_list_ascii (rev cur) :: split_chars sep [] r
      else split_chars sep (c :: cur) r
  end.

Definition split (sep : ascii) (s : string) : list string :=
  split_chars sep [] (list_ascii_of_string s).

(** [l[-1]] on a list that is known not to be empty ([split] never is). *)
Definition last_item (l : list string) : string := List.last l EmptyString.

(** The lines of a text file opened with [open(path, "r")]: universal
    newlines, so LF, CR and CR LF all end a line and are read as LF; every
    line keeps its terminator, a last line without one is kept too.  Both
    [for line in f] and [f.readlines()] yield this list. *)
Fixpoint lines_of (cur : list ascii) (s : list ascii) : list string :=
  match s with
  | [] =>
      match cur with
      | [] => []
      | _ :: _ => [string_of_list_ascii (rev cur)]
      end
  | c :: r =>
      if Ascii.eqb c LF
      then string_of_list_ascii (rev (LF :: cur)) :: lines_of [] r
      else if Ascii.eqb c CR
      then string_of_list_ascii (rev (LF :: cur)) ::
           match r with
           | c' :: r' => if Ascii.eqb c' LF then lines_of [] r' else lines_of [] r
           | [] => []
           end
      else lines_of (c :: cur) r
  end.

Definition readlines (text : string) : list string :=
  lines_of [] (list_ascii_of_string text).

(** [enumerate(l)] *)
Fixpoint enumerate_from {A} (i : Z) (l : list A) : list (Z * A) :=
  match l with
  | [] => []
  | x :: r => (i, x) :: enumerate_from (i + 1) r
  end.

Definition enumerate {A} (l : list A) : list (Z * A) := enumerate_from 0 l.

(** The exceptions that end a handler. [JSONDecodeError] is the only one
    that the handlers catch. *)
Inductive Exn : Type :=
| ValueError
| IndexError
| FileNotFoundError
| IsADirectoryError
| UnicodeDecodeError
| RecursionError
| JSONDecodeError.

(** The limits of the interpreter that the handlers can run into.
    - [nesting_limit]: how many arrays and objects, one inside the other,
      [json.loads] enters before it raises [RecursionError].  It is what
      is left of the recursion limit when the handler calls the decoder:
      somewhat under a thousand with the defaults of CPython up to 3.11,
      other figures in later versions.
    - [encoding_limit]: how many lists and dictionaries, one inside the
      other, [json.dumps] enters before it raises [RecursionError]; what
      is left of the same recursion limit when the handler calls the
      encoder.  Every interpreter encodes what the handlers build
      themselves, which is nested two deep at most ([encoding_room]).
    - [int_max_str_digits]: the number of digits above which the
      conversion of a decimal literal to an [int] raises [ValueError]
      ([sys.get_int_max_str_digits()], 4300 by default); [None] for an
      interpreter without this limit. *)
Class Interpreter : Type := {
  nesting_limit : nat;
  encoding_limit : nat;
  encoding_room : Nat.leb 2 encoding_limit = true;
  int_max_str_digits : option nat
}.

(** CPython 3.11 with its defaults, in a request handler of
    [http.server]: the decoder gives up some twenty levels under the
    recursion limit of a thousand, the encoder two levels later. *)
Definition cpython : Interpreter :=
  {| nesting_limit := 980;
     encoding_limit := 982;
     encoding_room := eq_refl;
     int_max_str_digits := Some 4300%nat |}.

Section Int.

Context {py : Interpreter}.

(** The literal has more digits than the interpreter converts. *)
Definition exceeds_digits (digits : nat) : bool :=
  match int_max_str_digits with
  | Some limit => Nat.ltb limit digits
  | None => false
  end.

(** The whitespace that [int] drops around the literal: space, TAB, LF, VT,
    FF and CR, and of the code points from 128 on those that are
    whitespace, NEL and NBSP ([int] first turns these into spaces).  The
    separators FS, GS, RS and US, which [str.strip] drops, are not
    dropped here. *)
Definition int_space (c : ascii) : bool :=
  (in_range 9 13 c || N.eqb (code c) 32
   || N.eqb (code c) 133 || N.eqb (code c) 160)%bool.

Fixpoint int_lstrip (s : list ascii) : list ascii :=
  match s with
  | c :: r => if int_space c then int_lstrip r else s
  | [] => []
  end.

(** The digits of the literal: decimal digits in which single underscores
    may separate digits. *)
Fixpoint int_digits (acc : Z) (prev_digit : bool) (s : list ascii) : option Z :=
  match s with
  | [] => if prev_digit then Some acc else None
  | c :: r =>
      if isdigit c
      then int_digits (10 * acc + Z.of_N (code c - 48)) true r
      else if (Ascii.eqb c "_" && prev_digit)%bool
      then match r with
           | c' :: _ => if isdigit c' then int_digits acc false r else None
           | [] => None
           end
      else None
  end.

Definition int_unsigned (s : list ascii) : option Z :=
  if exceeds_digits (List.length (filter isdigit s)) then None
  else int_digits 0 false s.

(** [int(s)] on a string, base 10: the whitespace around the literal is
    dropped, then comes an optional sign, then the digits.  [None] stands
    for [ValueError], which [int] raises for a text that is no literal and
    for a literal with more digits than the interpreter converts. *)
Definition int_of_str (s : string) : option Z :=
  match rev (int_lstrip (rev (int_lstrip (list_ascii_of_string s)))) with
  | c :: r =>
      if Ascii.eqb c "-" then option_map Z.opp (int_unsigned r)
      else if Ascii.eqb c "+" then int_unsigned r
      else int_unsigned (c :: r)
  | [] => None
  end.

End Int.

End Py.

(** * json.loads

    The decoder of Python's [json] module with its default settings
    (strict strings; [NaN], [Infinity] and [-Infinity] accepted), after
    [json/decoder.py] and [json/scanner.py], with the two exceptions other
    than [JSONDecodeError] that it raises: [RecursionError] when arrays and
    objects are nested deeper than the interpreter allows, [ValueError]
    when an integer has more digits than the interpreter converts.  Of
    [json.dumps] the model keeps the value that it encodes and the one
    exception that it raises on the values of the handlers:
    [RecursionError] on a value nested deeper than the interpreter
    allows. *)

Module Json.
Import Py.

(** A Python [str] produced by the decoder: its code points (escapes may
    denote code points above 255). *)
Definition ustring := list N.

Definition ustr (s : string) : ustring := map code (list_ascii_of_string s).

(** Decoded values.  An [int] is exact.  A [float] is kept as the literal
    that was read (Python rounds it to a binary64).  A [dict] is the list of
    its items in insertion order, with distinct keys. *)
Unset Elimination Schemes.
Inductive value : Type :=
| JNull
| JBool (b : bool)
| JInt (z : Z)
| JFloat (literal : string)
| JStr (s : ustring)
| JList (items : list value)
| JDict (items : list (ustring * value)).
Set Elimination Schemes.

(** How deep the lists and dictionaries of a value are nested: 0 for a
    value that is neither, 1 for a list or a dictionary of such values
    (the empty ones included), and so on. *)
Fixpoint depth (v : value) : nat :=
  match v with
  | JList items =>
      S ((fix deepest (l : list value) : nat :=
            match l with
            | [] => O
            | x :: r => Nat.max (depth x) (deepest r)
            end) items)
  | JDict items =>
      S ((fix deepest (l : list (ustring * value)) : nat :=
            match l with
            | [] => O
            | (_, x) :: r => Nat.max (depth x) (deepest r)
            end) items)
  | _ => O
  end.

(** [json.dumps] encodes the value: it is not nested deeper than the
    interpreter allows. *)
Definition encodable {py : Interpreter} (v : value) : bool :=
  Nat.leb (depth v) encoding_limit.

Definition ustring_eqb (a b : ustring) : bool :=
  if list_eq_dec N.eq_dec a b then true else false.

(** [d[k] = v]: a key already present keeps its place and takes the new
    value, a new key goes last. *)
Fixpoint dict_set (d : list (ustring * value)) (k : ustring) (v : value)
  : list (ustring * value) :=
  match d with
  | [] => [(k, v)]
  | (k', v') :: r =>
      if ustring_eqb k' k then (k, v) :: r else (k', v') :: dict_set r k v
  end.

(** [dict(pairs)] *)
Definition dict_of_pairs (pairs : list (ustring * value)) : list (ustring * value) :=
  fold_left (fun d kv => dict_set d (fst kv) (snd kv)) pairs [].

(** Outcome of a scanning function: the value and the text after it, an
    exception, or not enough fuel. *)
Inductive result (A : Type) : Type :=
| Ok (a : A) (rest : list ascii)
| Raise (e : Exn)
| OutOfFuel.
Arguments Raise {A}.
Arguments OutOfFuel {A}.

(** [WHITESPACE.match(s, end).end()]: the decoder's whitespace is
    space, TAB, LF and CR only. *)
Definition is_ws (c : ascii) : bool :=
  (Ascii.eqb c " " || Ascii.eqb c "009" || Ascii.eqb c LF || Ascii.eqb c CR)%bool.

Fixpoint skip_ws (s : list ascii) : list ascii :=
  match s with
  | c :: r => if is_ws c then skip_ws r else s
  | [] => []
  end.

(** ** Strings: [scanstring] *)

Definition hex_digit (c : ascii) : option N :=
  if in_range 48 57 c then Some (code c - 48)%N
  else if in_range 97 102 c then Some (code c - 87)%N
  else if in_range 65 70 c then Some (code c - 55)%N
  else None.

(** [_decode_uXXXX]: exactly four hexadecimal digits. *)
Definition decode_uXXXX (s : list ascii) : option (N * list ascii) :=
  match s with
  | a :: b :: c :: d :: r =>
      match hex_digit a, hex_digit b, hex_digit c, hex_digit d with
      | Some x, Some y, Some z, Some w =>
          Some (((x * 16 + y) * 16 + z) * 16 + w, r)%N
      | _, _, _, _ => None
      end
  | _ => None
  end.

(** The [BACKSLASH] table. *)
Definition backslash (c : ascii) : option N :=
  if Ascii.eqb c dquote then Some 34%N
  else if Ascii.eqb c "\" then Some 92%N
  else if Ascii.eqb c "/" then Some 47%N
  else if Ascii.eqb c "b" then Some 8%N
  else if Ascii.eqb c "f" then Some 12%N
  else if Ascii.eqb c "n" then Some 10%N
  else if Ascii.eqb c "r" then Some 13%N
  else if Ascii.eqb c "t" then Some 9%N
  else None.

Definition is_high_surrogate (u : N) : bool := (N.leb 55296 u && N.leb u 56319)%bool.
Definition is_low_surrogate (u : N) : bool := (N.leb 56320 u && N.leb u 57343)%bool.

(** [scanstring(s, end)], entered after the opening quote.  [fuel] bounds
    the number of characters and escapes read. *)
Fixpoint scanstring (fuel : nat) (acc : ustring) (s : list ascii)
  : result ustring :=
  match fuel with
  | O => OutOfFuel
  | S fuel' =>
      match s with
      | [] => Raise JSONDecodeError                       (* unterminated string *)
      | c :: r =>
          if Ascii.eqb c dquote then Ok (rev acc) r
          else if Ascii.eqb c "\" then
            match r with
            | [] => Raise JSONDecodeError
            | esc :: r1 =>
                if Ascii.eqb esc "u" then
                  match decode_uXXXX r1 with
                  | None => Raise JSONDecodeError
                  | Some (uni, r2) =>
                      if is_high_surrogate uni then
                        match r2 with
                        | b :: u :: r3 =>
                            if (Ascii.eqb b "\" && Ascii.eqb u "u")%bool then
                              match decode_uXXXX r3 with
                              | None => Raise JSONDecodeError
                              | Some (uni2, r4) =>
                                  if is_low_surrogate uni2
                                  then scanstring fuel'
                                         ((65536 + ((uni - 55296) * 1024 + (uni2 - 56320)))%N :: acc) r4
                                  else scanstring fuel' (uni :: acc) r2
                              end
                            else scanstring fuel' (uni :: acc) r2
                        | _ => scanstring fuel' (uni :: acc) r2
                        end
                      else scanstring fuel' (uni :: acc) r2
                  end
                else
                  match backslash esc with
                  | Some ch => scanstring fuel' (ch :: acc) r1
                  | None => Raise JSONDecodeError          (* invalid \escape *)
                  end
            end
          else if N.ltb (code c) 32 then Raise JSONDecodeError   (* control character *)
          else scanstring fuel' (code c :: acc) r
      end
  end.

(** ** Numbers: [NUMBER_RE]

    An optional minus sign and an integer part (a single zero, or a
    non-zero digit and more digits); then, each optional, a fraction (a
    point and at least one digit) and an exponent (e or E, an optional
    sign, at least one digit). *)

Fixpoint span_digits (s : list ascii) : list ascii * list ascii :=
  match s with
  | c :: r =>
      if isdigit c then let (d, t) := span_digits r in (c :: d, t) else ([], s)
  | [] => ([], [])
  end.

(** The integer group without its sign. *)
Definition match_integer (s : list ascii) : option (list ascii * list ascii) :=
  match s with
  | c :: r =>
      if Ascii.eqb c "0" then Some ([c], r)
      else if isdigit c then let (d, t) := span_digits r in Some (c :: d, t)
      else None
  | [] => None
  end.

(** The optional fraction group. *)
Definition match_frac (s : list ascii) : list ascii * list ascii :=
  match s with
  | c :: r =>
      if Ascii.eqb c "." then
        match span_digits r with
        | ([], _) => ([], s)
        | (d, t) => (c :: d, t)
        end
      else ([], s)
  | [] => ([], [])
  end.

(** The optional exponent group. *)
Definition match_exp (s : list ascii) : list ascii * list ascii :=
  match s with
  | e :: r =>
      if (Ascii.eqb e "e" || Ascii.eqb e "E")%bool then
        let (sign, r') :=
          match r with
          | c :: r1 =>
              if (Ascii.eqb c "-" || Ascii.eqb c "+")%bool then ([c], r1) else ([], r)
          | [] => ([], r)
          end in
        match span_digits r' with
        | ([], _) => ([], s)
        | (d, t) => (e :: sign ++ d, t)
        end
      else ([], s)
  | [] => ([], [])
  end.

Fixpoint digits_value (acc : Z) (d : list ascii) : Z :=
  match d with
  | c :: r => digits_value (10 * acc + Z.of_N (code c - 48)) r
  | [] => acc
  end.

(** [match_number] and the conversion that [scan_once] applies to it:
    [int] without fraction and exponent, [float] otherwise.  [None] when
    no number starts here. *)
Definition scan_number {py : Interpreter} (s : list ascii)
  : option (result value) :=
  let (neg, s1) :=
    match s with
    | c :: r => if Ascii.eqb c "-" then (true, r) else (false, s)
    | [] => (false, s)
    end in
  match match_integer s1 with
  | None => None
  | Some (int, s2) =>
      let (frac, s3) := match_frac s2 in
      let (exp, s4) := match_exp s3 in
      match frac, exp with
      | [], [] =>
          if exceeds_digits (List.length int)
          then Some (Raise ValueError)
          else Some (Ok (JInt (if neg then - digits_value 0 int
                               else digits_value 0 int)) s4)
      | _, _ =>
          Some (Ok (JFloat (string_of_list_ascii
                    ((if neg then ["-"%char] else []) ++ int ++ frac ++ exp))) s4)
      end
  end.

(** [s[idx:idx+len(word)] == word] *)
Definition literal (word : string) (s : list ascii) : option (list ascii) :=
  let w := list_ascii_of_string word in
  if list_prefix w s then Some (skipn (List.length w) s) else None.

(** ** Arrays and objects, over the scanner of their elements *)

Section Containers.

Variable scan_once : list ascii -> result value.

(** The loop of [JSONArray]: a value, whitespace, then either the closing
    bracket or a comma and whitespace. *)
Fixpoint array_items (fuel : nat) (acc : list value) (s : list ascii)
  : result value :=
  match fuel with
  | O => OutOfFuel
  | S fuel' =>
      match scan_once s with
      | Ok v r =>
          match skip_ws r with
          | c :: r' =>
              if Ascii.eqb c "]" then Ok (JList (rev (v :: acc))) r'
              else if Ascii.eqb c "," then array_items fuel' (v :: acc) (skip_ws r')
              else Raise JSONDecodeError                   (* expecting ',' *)
          | [] => Raise JSONDecodeError
          end
      | Raise e => Raise e
      | OutOfFuel => OutOfFuel
      end
  end.

(** [JSONArray(s_and_end)], entered after the bracket. *)
Definition JSONArray (s : list ascii) : result value :=
  match skip_ws s with
  | c :: r =>
      if Ascii.eqb c "]" then Ok (JList []) r
      else array_items (List.length s) [] (c :: r)
  | [] => Raise JSONDecodeError
  end.

(** The loop of [JSONObject], entered after the quote that opens a key:
    the key, whitespace, a colon, whitespace, the value, whitespace, then
    either the closing brace or a comma, whitespace and the quote that
    opens the next key. *)
Fixpoint object_items (fuel : nat) (pairs : list (ustring * value))
  (s : list ascii) : result value :=
  match fuel with
  | O => OutOfFuel
  | S fuel' =>
      match scanstring (S (List.length s)) [] s with
      | Ok key r =>
          match skip_ws r with
          | c :: r1 =>
              if Ascii.eqb c ":" then
                match scan_once (skip_ws r1) with
                | Ok v r2 =>
                    match skip_ws r2 with
                    | c2 :: r3 =>
                        if Ascii.eqb c2 "}"
                        then Ok (JDict (dict_of_pairs (rev ((key, v) :: pairs)))) r3
                        else if Ascii.eqb c2 "," then
                          match skip_ws r3 with
                          | q :: r4 =>
                              if Ascii.eqb q dquote
                              then object_items fuel' ((key, v) :: pairs) r4
                              else Raise JSONDecodeError   (* expecting property name *)
                          | [] => Raise JSONDecodeError
                          end
                        else Raise JSONDecodeError         (* expecting ',' *)
                    | [] => Raise JSONDecodeError
                    end
                | Raise e => Raise e
                | OutOfFuel => OutOfFuel
                end
              else Raise JSONDecodeError                   (* expecting ':' *)
          | [] => Raise JSONDecodeError
          end
      | Raise e => Raise e
      | OutOfFuel => OutOfFuel
      end
  end.

(** [JSONObject(s_and_end)], entered after the brace. *)
Definition JSONObject (s : list ascii) : result value :=
  match skip_ws s with
  | c :: r =>
      if Ascii.eqb c "}" then Ok (JDict []) r
      else if Ascii.eqb c dquote then object_items (List.length s) [] r
      else Raise JSONDecodeError
  | [] => Raise JSONDecodeError
  end.

End Containers.

(** ** [scan_once] and [loads] *)

Section Scanner.

Context {py : Interpreter}.

Definition scan_constant (s : list ascii) : result value :=
  match literal "null" s with
  | Some r => Ok JNull r
  | None =>
  match literal "true" s with
  | Some r => Ok (JBool true) r
  | None =>
  match literal "false" s with
  | Some r => Ok (JBool false) r
  | None =>
  match scan_number s with
  | Some res => res
  | None =>
  match literal "NaN" s with
  | Some r => Ok (JFloat "NaN") r
  | None =>
  match literal "Infinity" s with
  | Some r => Ok (JFloat "Infinity") r
  | None =>
  match literal "-Infinity" s with
  | Some r => Ok (JFloat "-Infinity") r
  | None => Raise JSONDecodeError
  end end end end end end end.

(** [scan_once(string, idx)].  [room] is the number of arrays and objects
    that may still be entered, one inside the other: the scanner raises
    [RecursionError] at the bracket or brace that would go deeper. *)
Fixpoint scan_once (room : nat) (s : list ascii) : result value :=
  match s with
  | [] => Raise JSONDecodeError
  | c :: r =>
      if Ascii.eqb c dquote then
        match scanstring (S (List.length r)) [] r with
        | Ok u r' => Ok (JStr u) r'
        | Raise e => Raise e
        | OutOfFuel => OutOfFuel
        end
      else if Ascii.eqb c "{" then
        match room with
        | O => Raise RecursionError
        | S room' => JSONObject (scan_once room') r
        end
      else if Ascii.eqb c "[" then
        match room with
        | O => Raise RecursionError
        | S room' => JSONArray (scan_once room') r
        end
      else scan_constant s
  end.

(** [JSONDecoder.decode]: whitespace, one value, whitespace, end of text. *)
Definition JSONDecoder_decode (s : string) : result value :=
  let t := skip_ws (list_ascii_of_string s) in
  match scan_once nesting_limit t with
  | Ok v r =>
      match skip_ws r with
      | [] => Ok v []
      | _ :: _ => Raise JSONDecodeError              (* extra data *)
      end
  | e => e
  end.

(** [json.loads(s)]: the value, or the exception raised.  (The scanners
    never run out of fuel, see [decode_fuel] below.) *)
Definition loads (s : string) : value + Exn :=
  match JSONDecoder_decode s with
  | Ok v _ => inl v
  | Raise e => inr e
  | OutOfFuel => inr JSONDecodeError
  end.

End Scanner.

End Json.

(** * The file system and the effects of a handler *)

Module Sys.
Import Py Json.

(** A path: below the log directory [LOG_DIR] by the given components, or
    an absolute path.  [LOG_DIR] itself is
    [Path(__file__).parent.parent / "ralph-logs"]. *)
Inductive Path : Type :=
| in_log_dir (parts : list string)
| absolute (parts : list string).

Definition LOG_DIR : Path := in_log_dir [].
Definition CURRENT_LOG : Path := in_log_dir ["current-run.jsonl"].

(** The components that [pathlib] keeps of a string: the pieces between
    slashes, without the empty ones and the single dots ([..] is kept). *)
Definition path_parts (s : string) : list string :=
  filter (fun p => negb (String.eqb p EmptyString || String.eqb p "."))
         (split "/" s).

(** [p / name]: an absolute [name] replaces [p]. *)
Definition joinpath (p : Path) (name : string) : Path :=
  if startswith "/" name then absolute (path_parts name)
  else match p with
       | in_log_dir parts => in_log_dir (parts ++ path_parts name)
       | absolute parts => absolute (parts ++ path_parts name)
       end.

(** [f.name]: the last component. *)
Definition path_name (p : Path) : string :=
  match p with
  | in_log_dir parts | absolute parts => List.last parts EmptyString
  end.

(** Where a path below the log directory leads, read component by
    component: [None] as soon as [..] climbs above the log directory. *)
Fixpoint descend (depth : nat) (parts : list string) : option nat :=
  match parts with
  | [] => Some depth
  | p :: r =>
      if String.eqb p ".."
      then match depth with
           | O => None
           | S d => descend d r
           end
      else descend (S depth) r
  end.

(** The path stays inside the log directory.  Nothing is known of where an
    absolute path leads, so it does not count as inside. *)
Definition inside_log_dir (p : Path) : bool :=
  match p with
  | in_log_dir parts =>
      match descend 0 parts with Some _ => true | None => false end
  | absolute _ => false
  end.

(** A Python [float], written as a decimal literal. *)
Definition PyFloat := string.

(** [os.stat_result], the two fields the server reads. *)
Record Stat : Type := { st_size : Z; st_mtime : PyFloat }.

(** What a path names: a regular file with its text; a regular file whose
    bytes are not text in the encoding that [open] uses (a character cut
    in the middle, say), with the lines that reading it line by line
    yields before the decoding fails; or a directory with the names of its
    entries in the order the system lists them. *)
Inductive Node : Type :=
| File (st : Stat) (text : string)
| Undecodable (st : Stat) (before : list string)
| Dir (st : Stat) (entries : list string).

Definition node_stat (n : Node) : Stat :=
  match n with File st _ | Undecodable st _ | Dir st _ => st end.

(** A snapshot of the file system. *)
Definition FS := Path -> option Node.

(** What a handler writes to [self.wfile]. *)
Inductive Payload : Type :=
| json_dumps (v : value)          (* json.dumps(v).encode() *)
| sse_data (v : value)            (* the frame "data: " + json.dumps(v) + two LF *)
| sse_keepalive.                  (* the comment line ": keepalive" + two LF *)

(** The effects of a handler, in the order it performs them. *)
Inductive Action : Type :=
| SendResponse (code : Z)
| SendHeader (keyword value : string)
| EndHeaders
| SendError (code : Z) (message : string)
| Write (data : Payload)
| Flush
| Sleep                            (* time.sleep(0.5) *)
| Exists (p : Path)
| StatOf (p : Path)
| Glob (p : Path) (pattern : string)
| Open (p : Path)
| StaticGET.                       (* super().do_GET() *)

(** A computation: the trace of its effects, and its value or the
    exception that ended it. *)
Definition M (A : Type) : Type := list Action * (A + Exn).

Definition ret {A} (a : A) : M A := ([], inl a).
Definition raise {A} (e : Exn) : M A := ([], inr e).
Definition emit (a : Action) : M unit := ([a], inl tt).

Definition bind {A B} (m : M A) (k : A -> M B) : M B :=
  match m with
  | (t, inl a) => let (t', r) := k a in (t ++ t', r)
  | (t, inr e) => (t, inr e)
  end.

Definition trace {A} (m : M A) : list Action := fst m.
Definition outcome {A} (m : M A) : A + Exn := snd m.

Declare Scope monad_scope.
Delimit Scope monad_scope with monad.
Notation "x <- m ;; k" := (bind m (fun x => k))
  (at level 61, m at next level, right associativity) : monad_scope.
Notation "m ;; k" := (bind m (fun _ => k))
  (at level 61, right associativity) : monad_scope.
Local Open Scope monad_scope.

(** A [for] loop that carries a state. *)
Fixpoint for_each {A S} (l : list A) (body : S -> A -> M S) (s : S) : M S :=
  match l with
  | [] => ret s
  | x :: r => s' <- body s x ;; for_each r body s'
  end.

(** ** The calls on the response *)
Definition send_response (code : Z) : M unit := emit (SendResponse code).
Definition send_header (k v : string) : M unit := emit (SendHeader k v).
Definition end_headers : M unit := emit EndHeaders.
Definition send_error (code : Z) (msg : string) : M unit := emit (SendError code msg).
Definition wfile_write (d : Payload) : M unit := emit (Write d).
Definition wfile_flush : M unit := emit Flush.
Definition time_sleep : M unit := emit Sleep.

(** [json.dumps(v)]: the value as it will be written, or
    [RecursionError]. *)
Definition dumps {py : Interpreter} (v : value) : M value :=
  if encodable v then ret v else raise RecursionError.

(** ** The calls on the file system *)

(** [p.exists()] *)
Definition exists_ (fs : FS) (p : Path) : M bool :=
  emit (Exists p) ;; ret (match fs p with Some _ => true | None => false end).

(** [p.stat()] *)
Definition stat (fs : FS) (p : Path) : M Stat :=
  emit (StatOf p) ;;
  match fs p with
  | Some n => ret (node_stat n)
  | None => raise FileNotFoundError
  end.

(** [open(p, "r")] and [f.readlines()]: all the lines, or
    [UnicodeDecodeError] when the bytes of the file are not text. *)
Definition open_lines (fs : FS) (p : Path) : M (list string) :=
  emit (Open p) ;;
  match fs p with
  | Some (File _ text) => ret (readlines text)
  | Some (Undecodable _ _) => raise UnicodeDecodeError
  | Some (Dir _ _) => raise IsADirectoryError
  | None => raise FileNotFoundError
  end.

(** [open(p, "r")] and [for line in f]: the lines that the iteration
    yields, and the exception that ends it when the bytes of the file stop
    being text. *)
Definition open_iter (fs : FS) (p : Path) : M (list string * option Exn) :=
  emit (Open p) ;;
  match fs p with
  | Some (File _ text) => ret (readlines text, None)
  | Some (Undecodable _ before) => ret (before, Some UnicodeDecodeError)
  | Some (Dir _ _) => raise IsADirectoryError
  | None => raise FileNotFoundError
  end.

(** [fnmatch] for patterns made of literal characters, [?] and [*]. *)
Fixpoint fnmatch_chars (pat : list ascii) (s : list ascii) : bool :=
  match pat with
  | [] => match s with [] => true | _ :: _ => false end
  | c :: pat' =>
      if Ascii.eqb c "*" then
        (fix star (t : list ascii) : bool :=
           (fnmatch_chars pat' t ||
            match t with
            | [] => false
            | _ :: t' => star t'
            end)%bool) s
      else
        match s with
        | [] => false
        | d :: s' =>
            ((Ascii.eqb c "?" || Ascii.eqb c d) && fnmatch_chars pat' s')%bool
        end
  end.

Definition fnmatch (pat s : string) : bool :=
  fnmatch_chars (list_ascii_of_string pat) (list_ascii_of_string s).

(** The path of an entry of directory [p]: the entry's name becomes the
    last component as it is. *)
Definition child (p : Path) (entry : string) : Path :=
  match p with
  | in_log_dir parts => in_log_dir (parts ++ [entry])
  | absolute parts => absolute (parts ++ [entry])
  end.

(** [p.glob(pattern)] for a pattern of one component: the matching entries
    of the directory, in listing order; nothing when [p] is no directory. *)
Definition glob (fs : FS) (p : Path) (pattern : string) : M (list Path) :=
  emit (Glob p pattern) ;;
  match fs p with
  | Some (Dir _ entries) =>
      ret (map (child p) (filter (fnmatch pattern) entries))
  | _ => ret []
  end.

(** ** [sorted(paths, reverse=True)]

    Paths compare by their components, strings by code points.  The sort
    is stable: of two paths that compare equal, the one that came first
    stays first. *)
Fixpoint parts_compare (a b : list string) : comparison :=
  match a, b with
  | [], [] => Eq
  | [], _ :: _ => Lt
  | _ :: _, [] => Gt
  | x :: a', y :: b' =>
      match String.compare x y with
      | Eq => parts_compare a' b'
      | c => c
      end
  end.

Definition path_compare (p q : Path) : comparison :=
  match p, q with
  | in_log_dir a, in_log_dir b => parts_compare a b
  | absolute a, absolute b => parts_compare a b
  | absolute _, in_log_dir _ => Lt
  | in_log_dir _, absolute _ => Gt
  end.

Definition path_ltb (p q : Path) : bool :=
  match path_compare p q with Lt => true | _ => false end.

Fixpoint insert_reverse (p : Path) (l : list Path) : list Path :=
  match l with
  | [] => [p]
  | q :: r => if path_ltb p q then q :: insert_reverse p r else p :: l
  end.

Fixpoint sorted_reverse (l : list Path) : list Path :=
  match l with
  | [] => []
  | p :: r => insert_reverse p (sorted_reverse r)
  end.

End Sys.
(** * The handlers of [MissionControlHandler] *)

Module Server.
Import Py Json Sys.
Local Open Scope monad_scope.

(** The request, as the handlers look at it: [urlparse(self.path).path]
    and [parse_qs(urlparse(self.path).query)], a dictionary from names to
    the lists of their values. *)
Record Request : Type := {
  path : string;
  params : list (string * list string)
}.

Section Handlers.

Context {py : Interpreter}.

(** [params.get(key)] *)
Fixpoint dict_get (d : list (string * list string)) (key : string)
  : option (list string) :=
  match d with
  | [] => None
  | (k, v) :: r => if String.eqb k key then Some v else dict_get r key
  end.

(** The loop shared by [serve_log] and [serve_specific_log]:
[[
    for line in f:
        line = line.strip()
        if line:
            try: events.append(json.loads(line))
            except json.JSONDecodeError: pass
]]
    [JSONDecodeError] is caught; whatever else [json.loads] raises ends
    the loop and the handler. *)
Definition read_line (events : list value) (line : string) : M (list value) :=
  let line := strip line in
  if truthy line then
    match loads line with
    | inl event => ret (events ++ [event])
    | inr JSONDecodeError => ret events
    | inr e => raise e
    end
  else ret events.

Definition read_all (lines : list string) : M (list value) :=
  for_each lines read_line [].

(** The block [with open(p, "r") as f: for line in f: ...] of the two
    handlers. *)
Definition read_file (fs : FS) (p : Path) : M (list value) :=
  f <- open_iter fs p ;;
  events <- read_all (fst f) ;;
  match snd f with
  | Some e => raise e
  | None => ret events
  end.

(** [serve_log]: the current log as a JSON array. *)
Definition serve_log (fs : FS) : M unit :=
  send_response 200 ;;
  send_header "Content-Type" "application/json" ;;
  send_header "Access-Control-Allow-Origin" "*" ;;
  send_header "Cache-Control" "no-cache" ;;
  end_headers ;;
  found <- exists_ fs CURRENT_LOG ;;
  events <- (if found : bool
             then read_file fs CURRENT_LOG
             else ret []) ;;
  body <- dumps (JList events) ;;
  wfile_write (json_dumps body).

(** The cursor of a stream: the local variables [offset] and [last_size]. *)
Record Cursor : Type := { offset : Z; last_size : Z }.

(** The payload of one event: [{"index": i, "event": event}]. *)
Definition indexed (i : Z) (event : value) : value :=
  JDict [(ustr "index", JInt i); (ustr "event", event)].

(** One turn of [for i, line in enumerate(lines)], on the variable
    [offset]. *)
Definition send_line (offset : Z) (il : Z * string) : M Z :=
  let (i, line) := il in
  if (i >=? offset)%Z then
    let line := strip line in
    if truthy line then
      match loads line with
      | inl event =>
          data <- dumps (indexed i event) ;;
          wfile_write (sse_data data) ;;
          wfile_flush ;;
          ret (i + 1)
      | inr JSONDecodeError => ret offset
      | inr e => raise e
      end
    else ret offset
  else ret offset.

Definition send_new_lines (lines : list string) (offset : Z) : M Z :=
  for_each (enumerate lines) send_line offset.

(** The poll of the log, lines 79 to 100: the [if CURRENT_LOG.exists()]
    block in the body of [while True]. *)
Definition poll (fs : FS) (c : Cursor) : M Cursor :=
  found <- exists_ fs CURRENT_LOG ;;
  if found : bool then
    st <- stat fs CURRENT_LOG ;;
    let current_size := st_size st in
    if negb (current_size =? last_size c)%Z then
      lines <- open_lines fs CURRENT_LOG ;;
      offset' <- send_new_lines lines (offset c) ;;
      ret {| offset := offset'; last_size := current_size |}
    else ret c
  else ret c.

(** One turn of [while True]: the poll, the keepalive, the sleep. *)
Definition turn (c : Cursor) (fs : FS) : M Cursor :=
  c' <- poll fs c ;;
  wfile_write sse_keepalive ;;
  wfile_flush ;;
  time_sleep ;;
  ret c'.

(** [int(params.get("offset", [0])[0])] *)
Definition parse_offset (params : list (string * list string)) : M Z :=
  match dict_get params "offset" with
  | None => ret 0
  | Some [] => raise IndexError
  | Some (v :: _) =>
      match int_of_str v with
      | Some z => ret z
      | None => raise ValueError
      end
  end.

(** [stream_log]: the loop never ends by itself; it is followed here for
    as many turns as there are snapshots in [turns], one snapshot of the
    file system for each turn, while the peer stays connected. *)
Definition stream_log (req : Request) (turns : list FS) : M Cursor :=
  send_response 200 ;;
  send_header "Content-Type" "text/event-stream" ;;
  send_header "Access-Control-Allow-Origin" "*" ;;
  send_header "Cache-Control" "no-cache" ;;
  send_header "Connection" "keep-alive" ;;
  end_headers ;;
  offset <- parse_offset (params req) ;;
  for_each turns turn {| offset := offset; last_size := 0 |}.

(** One entry of the listing. *)
Definition log_entry (f : Path) (stats : Stat) : value :=
  JDict [(ustr "name", JStr (ustr (path_name f)));
         (ustr "size", JInt (st_size stats));
         (ustr "modified", JFloat (st_mtime stats))].

Definition append_entry (fs : FS) (logs : list value) (f : Path)
  : M (list value) :=
  stats <- stat fs f ;;
  ret (logs ++ [log_entry f stats]).

(** [list_logs]: the archived logs, newest name first. *)
Definition list_logs (fs : FS) : M unit :=
  send_response 200 ;;
  send_header "Content-Type" "application/json" ;;
  send_header "Access-Control-Allow-Origin" "*" ;;
  end_headers ;;
  found <- exists_ fs LOG_DIR ;;
  logs <- (if found : bool
           then paths <- glob fs LOG_DIR "ralph_*.jsonl" ;;
                for_each (sorted_reverse paths) (append_entry fs) []
           else ret []) ;;
  body <- dumps (JList logs) ;;
  wfile_write (json_dumps body).

(** [serve_specific_log]: one archived log by name. *)
Definition serve_specific_log (fs : FS) (log_name : string) : M unit :=
  let log_path := joinpath LOG_DIR log_name in
  found <- exists_ fs log_path ;;
  if (negb found || negb (endswith ".jsonl" log_name))%bool then
    send_error 404 "Log not found"
  else
    send_response 200 ;;
    send_header "Content-Type" "application/json" ;;
    send_header "Access-Control-Allow-Origin" "*" ;;
    end_headers ;;
    events <- read_file fs log_path ;;
    body <- dumps (JList events) ;;
    wfile_write (json_dumps body).

(** [do_GET]: the routes.  [fs] is the file system when the request
    arrives, [later] what it becomes at the later turns of a stream. *)
Definition do_GET (fs : FS) (later : list FS) (req : Request) : M unit :=
  if String.eqb (path req) "/api/log" then serve_log fs
  else if String.eqb (path req) "/api/log/stream"
  then stream_log req (fs :: later) ;; ret tt
  else if String.eqb (path req) "/api/logs" then list_logs fs
  else if startswith "/api/log/" (path req)
  then serve_specific_log fs (last_item (split "/" (path req)))
  else emit StaticGET.

End Handlers.

End Server.
(** * Reading a trace, and the vocabulary of the properties *)

Module Obs.
Import Py Json Sys Server.

(** The payloads of the events pushed to the subscriber, in order. *)
Fixpoint events_sent (t : list Action) : list value :=
  match t with
  | Write (sse_data v) :: r => v :: events_sent r
  | _ :: r => events_sent r
  | [] => []
  end.

(** Everything written to [wfile], in order. *)
Fixpoint written (t : list Action) : list Payload :=
  match t with
  | Write d :: r => d :: written r
  | _ :: r => written r
  | [] => []
  end.

(** The headers set with [send_header], in order. *)
Fixpoint response_headers (t : list Action) : list (string * string) :=
  match t with
  | SendHeader k v :: r => (k, v) :: response_headers r
  | _ :: r => response_headers r
  | [] => []
  end.

Definition has_header (k : string) (t : list Action) : bool :=
  existsb (fun kv => String.eqb (fst kv) k) (response_headers t).

(** The paths handed to the file system, in order. *)
Fixpoint accessed (t : list Action) : list Path :=
  match t with
  | Exists p :: r | StatOf p :: r | Glob p _ :: r | Open p :: r =>
      p :: accessed r
  | _ :: r => accessed r
  | [] => []
  end.

(** The status lines sent: [send_response] and [send_error]. *)
Fixpoint statuses (t : list Action) : list Z :=
  match t with
  | SendResponse c :: r | SendError c _ :: r => c :: statuses r
  | _ :: r => statuses r
  | [] => []
  end.

(** What the handlers make of one line (the [strip], the [if line:] and
    the [try] of their loops): it holds a record; or it is skipped, being
    blank or a text on which [json.loads] raises [JSONDecodeError]; or it
    ends the handler with the exception that [json.loads] raises and the
    handlers do not catch. *)
Inductive Decoded : Type :=
| Holds (event : value)
| Skipped
| Aborts (e : Exn).

Section Lines.

Context {py : Interpreter}.

Definition decode (line : string) : Decoded :=
  let line := strip line in
  if truthy line then
    match loads line with
    | inl event => Holds event
    | inr JSONDecodeError => Skipped
    | inr e => Aborts e
    end
  else Skipped.

Definition holds_record (line : string) : bool :=
  match decode line with Holds _ => true | _ => false end.

(** The record can be encoded inside the list of a snapshot or the
    payload of an event, which nest it one level deeper. *)
Definition fits (event : value) : bool := Nat.ltb (depth event) encoding_limit.

(** The line ends a handler that decodes it: [json.loads] raises on it
    another exception than [JSONDecodeError], or [json.dumps] raises on
    what holds its record. *)
Definition aborts (line : string) : bool :=
  match decode line with
  | Holds event => negb (fits event)
  | Skipped => false
  | Aborts _ => true
  end.

(** No line ends a handler that decodes it. *)
Definition quiet (lines : list string) : Prop :=
  Forall (fun line => aborts line = false) lines.

(** No line numbered [off] or more ends a handler that decodes it. *)
Definition quiet_from (off : Z) (lines : list string) : Prop :=
  forall (j : nat) (line : string),
    nth_error lines j = Some line -> off <= Z.of_nat j -> aborts line = false.

(** The number of lines that hold a record. *)
Definition count_valid (lines : list string) : Z :=
  Z.of_nat (List.length (filter holds_record lines)).

(** The cursors of a session after each of its turns, for as long as no
    turn raises. *)
Fixpoint cursors (c : Cursor) (turns : list FS) : list Cursor :=
  match turns with
  | [] => []
  | fs :: r =>
      match outcome (turn c fs) with
      | inl c' => c' :: cursors c' r
      | inr _ => []
      end
  end.

(** The current log is absent or a regular file (not a directory), so
    that it can be opened. *)
Definition regular (fs : FS) : Prop :=
  match fs CURRENT_LOG with
  | Some (Dir _ _) => False
  | _ => True
  end.

(** The current log is absent, or a regular file of text none of whose
    lines ends a handler that decodes it. *)
Definition calm (fs : FS) : Prop :=
  match fs CURRENT_LOG with
  | None => True
  | Some (File _ text) => quiet (readlines text)
  | Some _ => False
  end.

End Lines.

(** The current log has not changed since the cursor recorded its size:
    it is absent, or its size is the recorded one. *)
Definition unchanged (fs : FS) (c : Cursor) : Prop :=
  match fs CURRENT_LOG with
  | None => True
  | Some n => st_size (node_stat n) = last_size c
  end.

(** ** The data of the scenarios *)

Definition quoted (s : string) : string :=
  String dquote s ++ String dquote EmptyString.

Definition newline : string := String LF EmptyString.

(** The lines [{"a":1}] and [{"a":2}] and the records they hold. *)
Definition line_a (n : string) : string := "{" ++ quoted "a" ++ ":" ++ n ++ "}".
Definition record_a (n : Z) : value := JDict [(ustr "a", JInt n)].

(** A line cut short in the middle of a write. *)
Definition truncated_line : string := "{" ++ quoted "a" ++ ":" ++ newline.

(** A regular file of the given text, its size the length of the text. *)
Definition file_of (text : string) (mtime : PyFloat) : Node :=
  File {| st_size := Z.of_nat (String.length text); st_mtime := mtime |} text.

(** A file system that holds the given nodes and nothing else. *)
Definition path_eqb (p q : Path) : bool :=
  match p, q with
  | in_log_dir a, in_log_dir b | absolute a, absolute b =>
      if list_eq_dec string_dec a b then true else false
  | _, _ => false
  end.

Fixpoint fs_of (nodes : list (Path * Node)) : FS :=
  fun p =>
    match nodes with
    | [] => None
    | (q, n) :: r => if path_eqb q p then Some n else fs_of r p
    end.

(** The current log of the first scenario: a record, an empty line, a
    record. *)
Definition scenario_text : string :=
  line_a "1" ++ newline ++ newline ++ line_a "2" ++ newline.

Definition scenario_fs : FS :=
  fs_of [(CURRENT_LOG, file_of scenario_text "1700000000.0")].

(** A current log replaced by a shorter one: a single record. *)
Definition replaced_text : string := line_a "1" ++ newline.

Definition replaced_fs : FS :=
  fs_of [(CURRENT_LOG, file_of replaced_text "1700000001.0")].

(** A current log seen in the middle of a write, and once the write is
    complete. *)
Definition partial_text : string :=
  line_a "1" ++ newline ++ "{" ++ quoted "a" ++ ":".

Definition partial_fs : FS :=
  fs_of [(CURRENT_LOG, file_of partial_text "1700000002.0")].

Definition completed_text : string :=
  line_a "1" ++ newline ++ line_a "2" ++ newline.

Definition completed_fs : FS :=
  fs_of [(CURRENT_LOG, file_of completed_text "1700000003.0")].




(** The name [a] does not come before the name [b]: code point order. *)
Definition name_ge (a b : string) : Prop := String.ltb a b = false.

Definition path_ge (p q : Path) : Prop := path_ltb p q = false.

(** The entry of the listing for the name [n] of the log directory is [v]:
    the name, and the size and the modification time that [stat] gives. *)
Definition entry_of (fs : FS) (n : string) (v : value) : Prop :=
  exists node : Node,
    fs (child LOG_DIR n) = Some node
    /\ v = JDict [(ustr "name", JStr (ustr n));
                  (ustr "size", JInt (st_size (node_stat node)));
                  (ustr "modified", JFloat (st_mtime (node_stat node)))].

(** A character that stands for itself in a pattern. *)
Definition plain (c : ascii) : Prop :=
  Ascii.eqb c "*" = false /\ Ascii.eqb c "?" = false.

(** The pattern of the archived logs. *)
Definition archived_pattern : string := "ralph_*.jsonl".

(** A log directory with two archived logs, the current log and a file
    that is no log, listed in no particular order. *)
Definition archive_fs : FS :=
  fs_of [(LOG_DIR,
          Dir {| st_size := 4096; st_mtime := "1700000009.0" |}
              ["ralph_1.jsonl"; "notes.txt"; "ralph_2.jsonl"; "current-run.jsonl"]);
         (child LOG_DIR "ralph_1.jsonl", file_of replaced_text "1700000005.0");
         (child LOG_DIR "ralph_2.jsonl", file_of completed_text "1700000006.0");
         (child LOG_DIR "notes.txt", file_of "todo" "1700000007.0");
         (CURRENT_LOG, file_of scenario_text "1700000008.0")].

(** The status line and the headers that open a stream. *)
Definition stream_headers : list Action :=
  [SendResponse 200;
   SendHeader "Content-Type" "text/event-stream";
   SendHeader "Access-Control-Allow-Origin" "*";
   SendHeader "Cache-Control" "no-cache";
   SendHeader "Connection" "keep-alive";
   EndHeaders].

Definition stream_request (params : list (string * list string)) : Request :=
  {| path := "/api/log/stream"; params := params |}.

(** A current log with a line cut short between two records. *)
Definition malformed_text : string :=
  line_a "1" ++ newline ++ truncated_line ++ line_a "2" ++ newline.

Definition malformed_fs : FS :=
  fs_of [(CURRENT_LOG, file_of malformed_text "1700000013.0")].

(** A current log seen while a character of several bytes is half
    written: the record [{"a":1}] on a first line, then the start of a
    line that ends in the first byte of such a character.  Its fifteen
    bytes are no text, and reading it yields no line. *)
Definition garbled_fs : FS :=
  fs_of [(CURRENT_LOG,
          Undecodable {| st_size := 15; st_mtime := "1700000014.0" |} [])].

(** A line of 1500 opening brackets: the start of a value nested deeper
    than the interpreter follows. *)
Definition deep_line : string :=
  string_of_list_ascii (repeat "["%char 1500).

(** A current log with such a line between two records. *)
Definition deep_text : string :=
  line_a "1" ++ newline ++ deep_line ++ newline ++ line_a "2" ++ newline.

Definition deep_fs : FS :=
  fs_of [(CURRENT_LOG, file_of deep_text "1700000011.0")].

(** A current log seen in the middle of the write of such a line. *)
Definition deep_partial_text : string := line_a "1" ++ newline ++ deep_line.

Definition deep_partial_fs : FS :=
  fs_of [(CURRENT_LOG, file_of deep_partial_text "1700000012.0")].

End Obs.
(** * Further vocabulary: what a subscriber and a client see *)

Module Views.
Import Py Json Sys Server Obs.

(** The records of the lines numbered from [i] on, each with the number of
    its line, in file order. *)
Definition numbered_from {py : Interpreter} (i : Z) (lines : list string)
  : list (Z * value) :=
  flat_map (fun il : Z * string =>
              match decode (snd il) with
              | Holds ev => [(fst il, ev)]
              | _ => []
              end)
           (enumerate_from i lines).

Definition numbered_records {py : Interpreter} (lines : list string)
  : list (Z * value) :=
  numbered_from 0 lines.

(** What the snapshot handlers do once the lines are read: the body, or
    the exception of the loop or of the encoder. *)
Definition body_of {py : Interpreter} (r : list value + Exn) : list Action :=
  match r with
  | inl events =>
      if encodable (JList events) then [Write (json_dumps (JList events))] else []
  | inr _ => []
  end.

Definition end_of {py : Interpreter} (r : list value + Exn) : unit + Exn :=
  match r with
  | inl events => if encodable (JList events) then inl tt else inr RecursionError
  | inr e => inr e
  end.

(** The payload of the event for a numbered record. *)
Definition as_event (ir : Z * value) : value := indexed (fst ir) (snd ir).

(** The record is numbered [off] or more. *)
Definition from_offset (off : Z) (ir : Z * value) : bool := (fst ir >=? off)%Z.

(** The record is numbered less than [off]. *)
Definition before_offset (off : Z) (ir : Z * value) : bool := (fst ir <? off)%Z.

(** A log that only grows, as a session sees it turn after turn once it
    has seen the lines [lines] at the byte size [size]: at every turn the
    current log is a regular file whose lines are those seen before and
    possibly more, with another size whenever there are more; [final] are
    the lines at the last turn. *)
Fixpoint grows (lines : list string) (size : Z) (turns : list FS)
  (final : list string) : Prop :=
  match turns with
  | [] => final = lines
  | fs :: later =>
      exists (st : Stat) (text : string) (more : list string),
        fs CURRENT_LOG = Some (File st text)
        /\ readlines text = lines ++ more
        /\ (st_size st = size -> more = [])
        /\ grows (lines ++ more) (st_size st) later final
  end.

(** Every write is followed at once by a flush. *)
Fixpoint flushed (t : list Action) : bool :=
  match t with
  | [] => true
  | Write _ :: r =>
      match r with
      | Flush :: r' => flushed r'
      | _ => false
      end
  | _ :: r => flushed r
  end.

Definition is_keepalive (d : Payload) : bool :=
  match d with
  | sse_keepalive => true
  | _ => false
  end.

(** The paths opened for reading, in order. *)
Fixpoint opened (t : list Action) : list Path :=
  match t with
  | Open p :: r => p :: opened r
  | _ :: r => opened r
  | [] => []
  end.


(** The status line and the headers of the listing and of an archived
    log. *)
Definition listing_headers : list Action :=
  [SendResponse 200;
   SendHeader "Content-Type" "application/json";
   SendHeader "Access-Control-Allow-Origin" "*";
   EndHeaders].

(** The status line and the headers of the snapshot. *)
Definition snapshot_headers : list Action :=
  [SendResponse 200;
   SendHeader "Content-Type" "application/json";
   SendHeader "Access-Control-Allow-Origin" "*";
   SendHeader "Cache-Control" "no-cache";
   EndHeaders].

(** The paths that the listing stats: the matching entries, sorted. *)
Definition listed_paths (entries : list string) : list Path :=
  sorted_reverse (map (child LOG_DIR) (filter (fnmatch archived_pattern) entries)).

(** A log directory that lists an archived log which is no longer
    there. *)
Definition vanished_fs : FS :=
  fs_of [(LOG_DIR,
          Dir {| st_size := 4096; st_mtime := "1700000009.0" |}
              ["ralph_1.jsonl"])].

(** A file system where the path of the current log names a directory. *)
Definition directory_fs : FS :=
  fs_of [(CURRENT_LOG, Dir {| st_size := 4096; st_mtime := "1700000010.0" |} [])].

(** The request for the log of the given name. *)
Definition by_name (log_name : string) (params : list (string * list string))
  : Request :=
  {| path := "/api/log/" ++ log_name; params := params |}.

(** The request for the snapshot of the current log. *)
Definition snapshot_request : Request := {| path := "/api/log"; params := [] |}.

(** The request for the listing. *)
Definition listing_request : Request := {| path := "/api/logs"; params := [] |}.

(** The log directory listed in another order, everything else as in
    [fs]. *)
Definition relisted (fs : FS) (st : Stat) (entries : list string) : FS :=
  fun p => if path_eqb p LOG_DIR then Some (Dir st entries) else fs p.


End Views.
(** * Properties *)

Import Py Json Sys Server Obs Views.
Local Open Scope monad_scope.

Section General.

Context {py : Interpreter}.

(** ** The decoder never runs out of fuel

    The loops of the decoder are given a fuel that is computed from the
    length of the text.  The lemmas below show that this is enough: every
    scanner returns a text strictly shorter than the one it was given, and
    with that much fuel none of them stops for want of it.  So [loads]
    answers what the decoder answers: a value or an exception. *)

Ltac break_match :=
  match goal with
  | |- context [match ?x with _ => _ end] => destruct x eqn:?
  | H : context [match ?x with _ => _ end] |- _ => destruct x eqn:?
  end.

Lemma skip_ws_length (s : list ascii) :
  (List.length (skip_ws s) <= List.length s)%nat.
Proof.
  induction s as [|c s IH]; simpl; [lia|].
  destruct (is_ws c); simpl; lia.
Qed.

Lemma decode_uXXXX_length (s r : list ascii) (u : N) :
  decode_uXXXX s = Some (u, r) -> (List.length r + 4 = List.length s)%nat.
Proof.
  unfold decode_uXXXX. intros H.
  repeat break_match; try discriminate.
  inversion H; subst. simpl. lia.
Qed.

Lemma scanstring_shorter (fuel : nat) :
  forall acc s u r,
    scanstring fuel acc s = Ok u r -> (List.length r < List.length s)%nat.
Proof.
  induction fuel as [|fuel IH]; intros acc s u r H; cbn [scanstring] in H;
    [discriminate|].
  repeat break_match; try discriminate;
    repeat match goal with
           | E : decode_uXXXX _ = Some _ |- _ =>
               apply decode_uXXXX_length in E
           end;
    try (inversion H; subst; simpl; lia);
    apply IH in H; simpl in *; lia.
Qed.

Lemma scanstring_fuel (fuel : nat) :
  forall acc s,
    (List.length s < fuel)%nat -> scanstring fuel acc s <> OutOfFuel.
Proof.
  induction fuel as [|fuel IH]; intros acc s L; [lia|].
  cbn [scanstring].
  repeat break_match; try discriminate;
    repeat match goal with
           | E : decode_uXXXX _ = Some _ |- _ =>
               apply decode_uXXXX_length in E
           end;
    apply IH; simpl in *; lia.
Qed.

Lemma list_prefix_length (w s : list ascii) :
  list_prefix w s = true -> (List.length w <= List.length s)%nat.
Proof.
  revert s. induction w as [|a w IH]; intros [|b s]; simpl; intros H;
    try lia; try discriminate.
  apply andb_true_iff in H. destruct H as (_ & H).
  apply IH in H. lia.
Qed.

Lemma literal_shorter (word : string) (s r : list ascii) :
  word <> EmptyString ->
  literal word s = Some r -> (List.length r < List.length s)%nat.
Proof.
  unfold literal. intros N H.
  destruct (list_prefix (list_ascii_of_string word) s) eqn:P; [|discriminate].
  inversion H; subst. apply list_prefix_length in P.
  rewrite length_skipn.
  destruct word; [contradiction|]. simpl in *. lia.
Qed.

Lemma span_digits_length (s : list ascii) :
  (List.length (snd (span_digits s)) <= List.length s)%nat.
Proof.
  induction s as [|c s IH]; simpl; [lia|].
  destruct (isdigit c); [|simpl; lia].
  destruct (span_digits s); simpl in *; lia.
Qed.

Lemma match_integer_shorter (s d r : list ascii) :
  match_integer s = Some (d, r) -> (List.length r < List.length s)%nat.
Proof.
  unfold match_integer. destruct s as [|c s]; [discriminate|].
  destruct (Ascii.eqb c "0").
  - intros H. inversion H; subst. simpl. lia.
  - destruct (isdigit c); [|discriminate].
    pose proof (span_digits_length s) as L.
    destruct (span_digits s). intros H. inversion H; subst. simpl in *. lia.
Qed.

Lemma match_frac_length (s : list ascii) :
  (List.length (snd (match_frac s)) <= List.length s)%nat.
Proof.
  unfold match_frac. destruct s as [|c s]; [simpl; lia|].
  destruct (Ascii.eqb c "."); [|simpl; lia].
  pose proof (span_digits_length s) as L.
  destruct (span_digits s) as [[|x d] t]; simpl in *; lia.
Qed.

Lemma match_exp_length (s : list ascii) :
  (List.length (snd (match_exp s)) <= List.length s)%nat.
Proof.
  unfold match_exp. destruct s as [|e s]; [simpl; lia|].
  destruct (Ascii.eqb e "e" || Ascii.eqb e "E")%bool; [|simpl; lia].
  destruct s as [|c s1].
  - simpl. lia.
  - pose proof (span_digits_length s1) as L1.
    pose proof (span_digits_length (c :: s1)) as L2.
    destruct (Ascii.eqb c "-" || Ascii.eqb c "+")%bool.
    + destruct (span_digits s1) as [[|x d] t]; simpl in *; lia.
    + destruct (span_digits (c :: s1)) as [[|x d] t]; simpl in *; lia.
Qed.

Lemma scan_number_shorter (s r : list ascii) (v : value) :
  scan_number s = Some (Ok v r) -> (List.length r < List.length s)%nat.
Proof.
  unfold scan_number. intros H.
  assert (G : forall s1, (List.length s1 <= List.length s)%nat ->
              match match_integer s1 with
              | Some (int, s2) =>
                  (List.length (snd (match_exp (snd (match_frac s2))))
                   < List.length s)%nat
              | None => True
              end).
  { intros s1 L. destruct (match_integer s1) as [[int s2]|] eqn:M; [|exact I].
    apply match_integer_shorter in M.
    pose proof (match_frac_length s2).
    pose proof (match_exp_length (snd (match_frac s2))). lia. }
  destruct s as [|c s'].
  - simpl in H. discriminate.
  - destruct (Ascii.eqb c "-").
    + specialize (G s' ltac:(simpl; lia)).
      destruct (match_integer s') as [[int s2]|]; [|discriminate].
      destruct (match_frac s2) as [frac s3]. cbn [snd] in G.
      destruct (match_exp s3) as [exp s4]. cbn [snd] in G.
      destruct frac, exp; try destruct (exceeds_digits _);
        inversion H; subst; exact G.
    + specialize (G (c :: s') ltac:(simpl; lia)).
      destruct (match_integer (c :: s')) as [[int s2]|]; [|discriminate].
      destruct (match_frac s2) as [frac s3]. cbn [snd] in G.
      destruct (match_exp s3) as [exp s4]. cbn [snd] in G.
      destruct frac, exp; try destruct (exceeds_digits _);
        inversion H; subst; exact G.
Qed.

Lemma scan_number_fuel (s : list ascii) : scan_number s <> Some OutOfFuel.
Proof.
  unfold scan_number.
  repeat break_match; discriminate.
Qed.

Lemma scan_constant_shorter (s r : list ascii) (v : value) :
  scan_constant s = Ok v r -> (List.length r < List.length s)%nat.
Proof.
  unfold scan_constant. intros H.
  repeat match type of H with
         | match literal ?w s with _ => _ end = _ =>
             let E := fresh "E" in
             destruct (literal w s) eqn:E;
             [inversion H; subst;
              apply (@literal_shorter w); [discriminate|exact E]|]
         | match scan_number s with _ => _ end = _ =>
             let E := fresh "E" in
             destruct (scan_number s) as [?|] eqn:E;
             [subst; exact (scan_number_shorter _ E)|]
         end.
  discriminate.
Qed.

Lemma scan_constant_fuel (s : list ascii) : scan_constant s <> OutOfFuel.
Proof.
  unfold scan_constant.
  destruct (literal "null" s); [discriminate|].
  destruct (literal "true" s); [discriminate|].
  destruct (literal "false" s); [discriminate|].
  destruct (scan_number s) as [res|] eqn:E.
  - intros ->. exact (@scan_number_fuel s E).
  - repeat break_match; discriminate.
Qed.

Section ContainersFuel.

Variable scan : list ascii -> result value.

Hypothesis scan_shorter :
  forall s v r, scan s = Ok v r -> (List.length r < List.length s)%nat.
Hypothesis scan_fuel : forall s, scan s <> OutOfFuel.

Lemma array_items_shorter (fuel : nat) :
  forall acc s v r,
    array_items scan fuel acc s = Ok v r ->
    (List.length r < List.length s)%nat.
Proof.
  induction fuel as [|fuel IH]; intros acc s v r H; cbn [array_items] in H;
    [discriminate|].
  destruct (scan s) as [x r1| |] eqn:E; try discriminate.
  apply scan_shorter in E. pose proof (skip_ws_length r1) as W.
  destruct (skip_ws r1) as [|c r2]; [discriminate|].
  destruct (Ascii.eqb c "]").
  - inversion H; subst. simpl in *. lia.
  - destruct (Ascii.eqb c ","); [|discriminate].
    apply IH in H. pose proof (skip_ws_length r2). simpl in *. lia.
Qed.

Lemma array_items_fuel (fuel : nat) :
  forall acc s,
    (List.length s <= fuel)%nat -> (0 < fuel)%nat ->
    array_items scan fuel acc s <> OutOfFuel.
Proof.
  induction fuel as [|fuel IH]; intros acc s L P; [lia|].
  cbn [array_items].
  destruct (scan s) as [x r1| |] eqn:E; try discriminate.
  - apply scan_shorter in E. pose proof (skip_ws_length r1) as W.
    destruct (skip_ws r1) as [|c r2]; [discriminate|].
    destruct (Ascii.eqb c "]"); [discriminate|].
    destruct (Ascii.eqb c ","); [|discriminate].
    pose proof (skip_ws_length r2). simpl in *. apply IH; lia.
  - exfalso. exact (@scan_fuel _ E).
Qed.

Lemma JSONArray_shorter (s r : list ascii) (v : value) :
  JSONArray scan s = Ok v r -> (List.length r < List.length s)%nat.
Proof.
  unfold JSONArray. pose proof (skip_ws_length s) as W.
  destruct (skip_ws s) as [|c t]; [discriminate|].
  destruct (Ascii.eqb c "]").
  - intros H. inversion H; subst. simpl in *. lia.
  - intros H. apply array_items_shorter in H. lia.
Qed.

Lemma JSONArray_fuel (s : list ascii) : JSONArray scan s <> OutOfFuel.
Proof.
  unfold JSONArray. pose proof (skip_ws_length s) as W.
  destruct (skip_ws s) as [|c t]; [discriminate|].
  destruct (Ascii.eqb c "]"); [discriminate|].
  apply array_items_fuel; simpl in *; lia.
Qed.

Lemma object_items_shorter (fuel : nat) :
  forall pairs s v r,
    object_items scan fuel pairs s = Ok v r ->
    (List.length r < List.length s)%nat.
Proof.
  induction fuel as [|fuel IH]; intros pairs s v r H; cbn [object_items] in H;
    [discriminate|].
  destruct (scanstring (S (List.length s)) [] s) as [key r0| |] eqn:K;
    try discriminate.
  apply scanstring_shorter in K. pose proof (skip_ws_length r0).
  destruct (skip_ws r0) as [|c r1]; [discriminate|].
  destruct (Ascii.eqb c ":"); [|discriminate].
  pose proof (skip_ws_length r1).
  destruct (scan (skip_ws r1)) as [x r2| |] eqn:E; try discriminate.
  apply scan_shorter in E. pose proof (skip_ws_length r2).
  destruct (skip_ws r2) as [|c2 r3]; [discriminate|].
  destruct (Ascii.eqb c2 "}").
  - inversion H; subst. simpl in *. lia.
  - destruct (Ascii.eqb c2 ","); [|discriminate].
    pose proof (skip_ws_length r3).
    destruct (skip_ws r3) as [|q r4]; [discriminate|].
    destruct (Ascii.eqb q dquote); [|discriminate].
    apply IH in H. simpl in *. lia.
Qed.

Lemma object_items_fuel (fuel : nat) :
  forall pairs s,
    (List.length s < fuel)%nat ->
    object_items scan fuel pairs s <> OutOfFuel.
Proof.
  induction fuel as [|fuel IH]; intros pairs s L; [lia|].
  cbn [object_items].
  destruct (scanstring (S (List.length s)) [] s) as [key r0| |] eqn:K;
    try discriminate.
  - apply scanstring_shorter in K. pose proof (skip_ws_length r0).
    destruct (skip_ws r0) as [|c r1]; [discriminate|].
    destruct (Ascii.eqb c ":"); [|discriminate].
    pose proof (skip_ws_length r1).
    destruct (scan (skip_ws r1)) as [x r2| |] eqn:E; try discriminate.
    + apply scan_shorter in E. pose proof (skip_ws_length r2).
      destruct (skip_ws r2) as [|c2 r3]; [discriminate|].
      destruct (Ascii.eqb c2 "}"); [discriminate|].
      destruct (Ascii.eqb c2 ","); [|discriminate].
      pose proof (skip_ws_length r3).
      destruct (skip_ws r3) as [|q r4]; [discriminate|].
      destruct (Ascii.eqb q dquote); [|discriminate].
      apply IH; simpl in *; lia.
    + exfalso. exact (@scan_fuel _ E).
  - exfalso. apply (@scanstring_fuel (S (List.length s)) [] s); [lia|exact K].
Qed.

Lemma JSONObject_shorter (s r : list ascii) (v : value) :
  JSONObject scan s = Ok v r -> (List.length r < List.length s)%nat.
Proof.
  unfold JSONObject. pose proof (skip_ws_length s) as W.
  destruct (skip_ws s) as [|c t]; [discriminate|].
  destruct (Ascii.eqb c "}").
  - intros H. inversion H; subst. simpl in *. lia.
  - destruct (Ascii.eqb c dquote); [|discriminate].
    intros H. apply object_items_shorter in H. simpl in *. lia.
Qed.

Lemma JSONObject_fuel (s : list ascii) : JSONObject scan s <> OutOfFuel.
Proof.
  unfold JSONObject. pose proof (skip_ws_length s) as W.
  destruct (skip_ws s) as [|c t]; [discriminate|].
  destruct (Ascii.eqb c "}"); [discriminate|].
  destruct (Ascii.eqb c dquote); [|discriminate].
  apply object_items_fuel; simpl in *; lia.
Qed.

End ContainersFuel.

Lemma scan_once_adequate (room : nat) :
  (forall s v r,
      scan_once room s = Ok v r -> (List.length r < List.length s)%nat)
  /\ (forall s, scan_once room s <> OutOfFuel).
Proof.
  assert (Str : forall t (v : value) r,
             match scanstring (S (List.length t)) [] t with
             | Ok u r' => Ok (JStr u) r'
             | Raise e => Raise e
             | OutOfFuel => OutOfFuel
             end = Ok v r -> (List.length r < S (List.length t))%nat).
  { intros t v r H.
    destruct (scanstring (S (List.length t)) [] t) as [u r'| |] eqn:K;
      try discriminate.
    inversion H; subst. apply scanstring_shorter in K. lia. }
  assert (Stf : forall t,
             match scanstring (S (List.length t)) [] t with
             | Ok u r' => Ok (JStr u) r'
             | Raise e => Raise e
             | OutOfFuel => @OutOfFuel value
             end <> OutOfFuel).
  { intros t.
    destruct (scanstring (S (List.length t)) [] t) as [u r'| |] eqn:K;
      try discriminate.
    exfalso. apply (@scanstring_fuel (S (List.length t)) [] t); [lia|exact K]. }
  induction room as [|room (IHs & IHf)].
  - split.
    + intros s v r H. destruct s as [|c t]; cbn [scan_once] in H;
        [discriminate|].
      destruct (Ascii.eqb c dquote); [exact (Str t v r H)|].
      destruct (Ascii.eqb c "{"); [discriminate|].
      destruct (Ascii.eqb c "["); [discriminate|].
      exact (scan_constant_shorter _ H).
    + intros s. destruct s as [|c t]; cbn [scan_once]; [discriminate|].
      destruct (Ascii.eqb c dquote); [apply Stf|].
      destruct (Ascii.eqb c "{"); [discriminate|].
      destruct (Ascii.eqb c "["); [discriminate|].
      apply scan_constant_fuel.
  - split.
    + intros s v r H. destruct s as [|c t]; cbn [scan_once] in H;
        [discriminate|].
      destruct (Ascii.eqb c dquote); [exact (Str t v r H)|].
      destruct (Ascii.eqb c "{").
      { apply (@JSONObject_shorter (scan_once room) IHs) in H. simpl. lia. }
      destruct (Ascii.eqb c "[").
      { apply (@JSONArray_shorter (scan_once room) IHs) in H. simpl. lia. }
      exact (scan_constant_shorter _ H).
    + intros s. destruct s as [|c t]; cbn [scan_once]; [discriminate|].
      destruct (Ascii.eqb c dquote); [apply Stf|].
      destruct (Ascii.eqb c "{").
      { apply (@JSONObject_fuel (scan_once room) IHs IHf). }
      destruct (Ascii.eqb c "[").
      { apply (@JSONArray_fuel (scan_once room) IHs IHf). }
      apply scan_constant_fuel.
Qed.

(** The fuel of the decoder is enough for every text. *)
Lemma decode_fuel (s : string) : JSONDecoder_decode s <> OutOfFuel.
Proof.
  unfold JSONDecoder_decode. cbv zeta.
  set (t := skip_ws (list_ascii_of_string s)).
  pose proof (proj2 (scan_once_adequate nesting_limit) t) as F.
  destruct (scan_once nesting_limit t) as [v r| |]; try discriminate.
  - destruct (skip_ws r); discriminate.
  - contradiction.
Qed.

(** [loads] raises what the decoder raises. *)
Lemma loads_raises (s : string) (e : Exn) :
  loads s = inr e <-> JSONDecoder_decode s = Raise e.
Proof.
  unfold loads. pose proof (decode_fuel s) as F.
  destruct (JSONDecoder_decode s); split; congruence.
Qed.

(** ** Computations and traces *)

Lemma bind_value {A B} (t : list Action) (a : A) (k : A -> M B) :
  bind (t, inl a) k = (t ++ trace (k a), outcome (k a)).
Proof. unfold bind, trace, outcome. destruct (k a); reflexivity. Qed.

Lemma bind_exn {A B} (t : list Action) (e : Exn) (k : A -> M B) :
  bind (t, inr e) k = (t, inr e).
Proof. reflexivity. Qed.

Lemma bind_ret {A B} (a : A) (k : A -> M B) : bind (ret a) k = k a.
Proof. unfold bind, ret. destruct (k a); reflexivity. Qed.

Lemma outcome_bind {A B} (m : M A) (k : A -> M B) :
  outcome (bind m k) =
  match outcome m with
  | inl a => outcome (k a)
  | inr e => inr e
  end.
Proof.
  destruct m as [t [a|e]]; [|reflexivity].
  rewrite bind_value. reflexivity.
Qed.

Lemma trace_bind {A B} (m : M A) (k : A -> M B) :
  trace (bind m k) =
  trace m ++ match outcome m with
             | inl a => trace (k a)
             | inr e => []
             end.
Proof.
  destruct m as [t [a|e]].
  - rewrite bind_value. reflexivity.
  - cbn. now rewrite app_nil_r.
Qed.

Lemma for_each_cons {A S} (x : A) (l : list A) (body : S -> A -> M S) (s : S) :
  for_each (x :: l) body s = bind (body s x) (fun s' => for_each l body s').
Proof. reflexivity. Qed.

Lemma events_sent_app (t u : list Action) :
  events_sent (t ++ u) = events_sent t ++ events_sent u.
Proof.
  induction t as [|a t IH]; simpl; [reflexivity|].
  destruct a; try assumption.
  destruct data; simpl; try assumption. now rewrite IH.
Qed.

Lemma accessed_app (t u : list Action) :
  accessed (t ++ u) = accessed t ++ accessed u.
Proof.
  induction t as [|a t IH]; simpl; [reflexivity|].
  destruct a; simpl; try assumption; now rewrite IH.
Qed.

(** ** The loop of the snapshot handlers *)

Lemma read_line_decode (events : list value) (line : string) :
  read_line events line =
  match decode line with
  | Holds event => ret (events ++ [event])
  | Skipped => ret events
  | Aborts e => raise e
  end.
Proof.
  unfold read_line, decode. destruct (truthy (strip line)); [|reflexivity].
  destruct (loads (strip line)) as [v|[]]; reflexivity.
Qed.

(** [JSONDecodeError] never ends a handler. *)
Lemma decode_not_caught (line : string) : decode line <> Aborts JSONDecodeError.
Proof.
  unfold decode. destruct (truthy (strip line)); [|discriminate].
  destruct (loads (strip line)) as [v|[]]; discriminate.
Qed.

(** A blank line is skipped. *)
Lemma decode_blank (line : string) :
  strip line = EmptyString -> decode line = Skipped.
Proof. unfold decode. intros ->. reflexivity. Qed.

Lemma aborts_decode (line : string) :
  aborts line = false -> forall e, decode line <> Aborts e.
Proof. unfold aborts. destruct (decode line); congruence. Qed.

(** A line that does not end a handler holds a record that fits, or is
    skipped. *)
Lemma aborts_false (line : string) :
  aborts line = false ->
  (exists event, decode line = Holds event /\ fits event = true)
  \/ decode line = Skipped.
Proof.
  unfold aborts. destruct (decode line) as [ev| |e]; intros H.
  - left. exists ev. split; [reflexivity|].
    now destruct (fits ev).
  - now right.
  - discriminate.
Qed.

(** The payload of an event is encoded when its record fits. *)
Lemma encodable_indexed (i : Z) (event : value) :
  encodable (indexed i event) = fits event.
Proof.
  unfold encodable, fits, indexed. cbn [depth snd].
  rewrite Nat.max_0_r. reflexivity.
Qed.

Lemma encodable_list (events : list value) :
  Forall (fun event => fits event = true) events ->
  encodable (JList events) = true.
Proof.
  unfold encodable, fits. intros H. cbn [depth].
  apply Nat.leb_le.
  pose proof encoding_room as R. apply Nat.leb_le in R.
  induction H as [|ev events Hev _ IH]; [lia|].
  apply Nat.ltb_lt in Hev. lia.
Qed.

Lemma encodable_list_inv (events : list value) :
  encodable (JList events) = true ->
  Forall (fun event => fits event = true) events.
Proof.
  unfold encodable, fits. cbn [depth]. intros H. apply Nat.leb_le in H.
  induction events as [|ev events IH]; constructor.
  - apply Nat.ltb_lt. lia.
  - apply IH. lia.
Qed.

Lemma dumps_encodable (v : value) : encodable v = true -> dumps v = ret v.
Proof. unfold dumps. now intros ->. Qed.

(** The loop performs no effect, and what it has collected before does not
    matter to what it does next. *)
Lemma read_from (lines : list string) :
  forall events,
    for_each lines read_line events =
    ([], match outcome (read_all lines) with
         | inl records => inl (events ++ records)
         | inr e => inr e
         end).
Proof.
  unfold read_all. induction lines as [|l lines IH]; intros events;
    cbn [for_each].
  - cbn. now rewrite app_nil_r.
  - rewrite !read_line_decode. destruct (decode l) as [ev| |e].
    + unfold ret. rewrite !bind_value.
      rewrite (IH (events ++ [ev])), (IH ([] ++ [ev])).
      unfold trace, outcome. cbn [fst snd app].
      destruct (snd (for_each lines read_line [])) as [rs|e]; [|reflexivity].
      now rewrite <- app_assoc.
    + unfold ret. rewrite !bind_value. rewrite (IH events).
      unfold trace, outcome. cbn [fst snd app].
      destruct (for_each lines read_line []) as [t r]. reflexivity.
    + reflexivity.
Qed.

Lemma read_all_trace (lines : list string) : trace (read_all lines) = [].
Proof.
  pose proof (read_from lines []) as H. unfold read_all in *.
  rewrite H. reflexivity.
Qed.

Lemma read_all_cons (line : string) (lines : list string) :
  read_all (line :: lines) =
  match decode line with
  | Holds event =>
      ([], match outcome (read_all lines) with
           | inl records => inl (event :: records)
           | inr e => inr e
           end)
  | Skipped => read_all lines
  | Aborts e => raise e
  end.
Proof.
  unfold read_all at 1. cbn [for_each]. rewrite read_line_decode.
  destruct (decode line) as [ev| |e].
  - unfold ret. rewrite bind_value, read_from. reflexivity.
  - unfold ret. rewrite bind_value, read_from.
    pose proof (read_all_trace lines) as T.
    destruct (read_all lines) as [t [rs|e]]; unfold trace in T; simpl in T;
      subst t; reflexivity.
  - reflexivity.
Qed.

(** What the loop makes of the lines that follow lines it has read. *)
Lemma read_all_app (pre post : list string) (records : list value) :
  outcome (read_all pre) = inl records ->
  read_all (pre ++ post) =
  ([], match outcome (read_all post) with
       | inl more => inl (records ++ more)
       | inr e => inr e
       end).
Proof.
  revert records. induction pre as [|l pre IH]; intros records H.
  - cbn in H. inversion H; subst. cbn [app].
    pose proof (read_all_trace post) as T.
    destruct (read_all post) as [t [rs|e]]; unfold trace in T; simpl in T;
      subst t; reflexivity.
  - cbn [app]. rewrite read_all_cons in *.
    destruct (decode l) as [ev| |e].
    + unfold outcome in H at 1. cbn [snd] in H.
      destruct (outcome (read_all pre)) as [rs|e] eqn:O; [|discriminate].
      inversion H; subst. rewrite (IH rs eq_refl).
      unfold outcome at 1. cbn [snd].
      destruct (outcome (read_all post)); reflexivity.
    + exact (IH records H).
    + discriminate.
Qed.

(** A line that is skipped may as well not be there. *)
Lemma read_all_skip (pre post : list string) (bad : string) :
  decode bad = Skipped -> read_all (pre ++ bad :: post) = read_all (pre ++ post).
Proof.
  intros D. induction pre as [|l pre IH]; cbn [app].
  - rewrite read_all_cons, D. reflexivity.
  - rewrite !read_all_cons, IH. reflexivity.
Qed.

(** The first line that [json.loads] refuses with another exception than
    [JSONDecodeError] ends the loop with that exception. *)
Lemma read_all_aborts (pre post : list string) (bad : string) (e : Exn) :
  quiet pre -> decode bad = Aborts e ->
  read_all (pre ++ bad :: post) = raise e.
Proof.
  intros Q D. induction Q as [|l pre Hl Q IH]; cbn [app].
  - rewrite read_all_cons, D. reflexivity.
  - rewrite read_all_cons, IH. unfold aborts in Hl.
    destruct (decode l); [reflexivity|reflexivity|discriminate].
Qed.

(** Without such a line the loop returns. *)
Lemma read_all_returns (lines : list string) :
  quiet lines -> exists records, read_all lines = ret records.
Proof.
  induction 1 as [|l lines Hl Q (rs & IH)].
  - now exists [].
  - rewrite read_all_cons, IH. unfold aborts in Hl.
    destruct (decode l) as [ev| |e]; [|eauto|discriminate].
    exists (ev :: rs). reflexivity.
Qed.

(** ** The loop of the stream *)

Lemma send_line_decode (off i : Z) (line : string) :
  send_line off (i, line) =
  if i >=? off then
    match decode line with
    | Holds event =>
        if fits event
        then ([Write (sse_data (indexed i event)); Flush], inl (i + 1))
        else ([], inr RecursionError)
    | Skipped => ([], inl off)
    | Aborts e => ([], inr e)
    end
  else ([], inl off).
Proof.
  unfold send_line, decode.
  destruct (i >=? off), (truthy (strip line)); try reflexivity.
  destruct (loads (strip line)) as [v|[]]; try reflexivity.
  unfold dumps. rewrite encodable_indexed.
  destruct (fits v); reflexivity.
Qed.

(** The loop over the lines returns when none of the lines that it
    decodes, those numbered from the offset on, ends the handler. *)
Lemma send_from_returns (lines : list string) :
  forall i off,
    (forall (j : nat) (line : string),
        nth_error lines j = Some line -> off <= i + Z.of_nat j ->
        aborts line = false) ->
    exists t off',
      for_each (enumerate_from i lines) send_line off = (t, inl off').
Proof.
  induction lines as [|l lines IH]; intros i off Q; cbn [enumerate_from for_each].
  - now exists [], off.
  - rewrite send_line_decode.
    assert (Q1 : forall (j : nat) (line : string),
               nth_error lines j = Some line -> off <= i + 1 + Z.of_nat j ->
               aborts line = false).
    { intros j line Hn Hj. apply (Q (S j) line Hn). lia. }
    destruct (i >=? off) eqn:G.
    + pose proof (Q 0%nat l eq_refl) as Q0. unfold aborts in Q0.
      apply Z.geb_le in G.
      destruct (decode l) as [ev| |e].
      * replace (fits ev) with true
          by (symmetry; apply negb_false_iff, Q0; lia).
        rewrite bind_value.
        destruct (IH (i + 1) (i + 1)) as (t & off' & E).
        { intros j line Hn _. apply (Q (S j) line Hn). lia. }
        rewrite E. unfold trace, outcome; simpl; eauto.
      * rewrite bind_value.
        destruct (IH (i + 1) off) as (t & off' & E).
        { exact Q1. }
        rewrite E. unfold trace, outcome; simpl; eauto.
      * exfalso. assert (true = false) by (apply Q0; lia). discriminate.
    + rewrite bind_value.
      destruct (IH (i + 1) off) as (t & off' & E).
      { exact Q1. }
      rewrite E. unfold trace, outcome; simpl; eauto.
Qed.

(** The first line, numbered from the offset on, on which [json.loads]
    raises another exception than [JSONDecodeError] ends the loop with that
    exception, after the events of the lines before it. *)
Lemma send_from_aborts (pre : list string) :
  forall (post : list string) (bad : string) (e : Exn) i off,
    (forall (j : nat) (line : string),
        nth_error pre j = Some line -> off <= i + Z.of_nat j ->
        aborts line = false) ->
    decode bad = Aborts e ->
    off <= i + Z.of_nat (List.length pre) ->
    exists t off',
      for_each (enumerate_from i pre) send_line off = (t, inl off')
      /\ for_each (enumerate_from i (pre ++ bad :: post)) send_line off
         = (t, inr e).
Proof.
  induction pre as [|l pre IH]; intros post bad e i off Q D L;
    cbn [enumerate_from for_each app].
  - exists [], off. split; [reflexivity|].
    rewrite send_line_decode, D.
    cbn [List.length] in L.
    replace (i >=? off) with true by (symmetry; apply Z.geb_le; lia).
    reflexivity.
  - rewrite send_line_decode.
    assert (Q1 : forall (j : nat) (line : string),
               nth_error pre j = Some line -> off <= i + 1 + Z.of_nat j ->
               aborts line = false).
    { intros j line Hn Hj. apply (Q (S j) line Hn). lia. }
    cbn [List.length] in L.
    destruct (i >=? off) eqn:G.
    + pose proof (Q 0%nat l eq_refl) as Q0. unfold aborts in Q0.
      apply Z.geb_le in G.
      destruct (decode l) as [ev| |e'].
      * replace (fits ev) with true
          by (symmetry; apply negb_false_iff, Q0; lia).
        rewrite !bind_value.
        destruct (IH post bad e (i + 1) (i + 1)) as (t & off' & E1 & E2);
          [intros j line Hn _; apply (Q (S j) line Hn); lia|exact D|lia|].
        rewrite E1, E2. unfold trace, outcome; simpl; eauto.
      * rewrite !bind_value.
        destruct (IH post bad e (i + 1) off) as (t & off' & E1 & E2);
          [exact Q1|exact D|lia|].
        rewrite E1, E2. unfold trace, outcome; simpl; eauto.
      * exfalso. assert (true = false) by (apply Q0; lia). discriminate.
    + rewrite !bind_value.
      destruct (IH post bad e (i + 1) off) as (t & off' & E1 & E2);
        [exact Q1|exact D|lia|].
      rewrite E1, E2. unfold trace, outcome; simpl; eauto.
Qed.

(** What the loop over the lines does to [offset] and what it sends, for
    the lines numbered from [i] on, when it returns. *)
Lemma send_from_spec (lines : list string) :
  forall i off t off',
    for_each (enumerate_from i lines) send_line off = (t, inl off') ->
    off <= off'
    /\ (off' = off \/
        off < off' /\ i < off' /\
        exists line ev,
          nth_error lines (Z.to_nat (off' - 1 - i)) = Some line /\
          decode line = Holds ev /\
          In (indexed (off' - 1) ev) (events_sent t))
    /\ (forall j line ev,
          nth_error lines j = Some line -> decode line = Holds ev ->
          off <= i + Z.of_nat j ->
          In (indexed (i + Z.of_nat j) ev) (events_sent t) /\
          i + Z.of_nat j < off')
    /\ count_valid lines <= Z.max 0 (off' - i).
Proof.
  induction lines as [|l lines IH]; intros i off t off' E;
    cbn [enumerate_from for_each] in E.
  - inversion E; subst. split; [lia|]. split; [now left|].
    split; [intros j line ev Hn; destruct j; discriminate|].
    unfold count_valid; simpl; lia.
  - rewrite send_line_decode in E.
    assert (CV : count_valid (l :: lines) =
                 (if holds_record l then 1 else 0) + count_valid lines).
    { unfold count_valid. cbn [filter].
      destruct (holds_record l); cbn [List.length]; lia. }
    assert (Rest : forall (tr : list Action) (o : Z),
               bind (tr, inl o)
                    (fun s' => for_each (enumerate_from (i + 1) lines) send_line s')
               = (t, inl off') ->
               exists t1,
                 for_each (enumerate_from (i + 1) lines) send_line o = (t1, inl off')
                 /\ t = tr ++ t1).
    { intros tr o B. rewrite bind_value in B. unfold trace, outcome in B.
      destruct (for_each (enumerate_from (i + 1) lines) send_line o) as [t1 r1].
      cbn [fst snd] in B. inversion B; subst. now exists t1. }
    destruct (i >=? off) eqn:G; [destruct (decode l) as [ev| |e] eqn:D|].
    + destruct (fits ev); [|discriminate E].
      destruct (Rest _ _ E) as (t1 & E1 & ->).
      destruct (IH _ _ _ _ E1) as (Hle & Hlast & Hall & Hcnt).
      apply Z.geb_le in G.
      split; [lia|]. split; [|split].
      * right. split; [lia|]. split; [lia|].
        destruct Hlast as [->|(Hlt & Hi & line & ev' & Hn & Hd & Hin)].
        -- exists l, ev. replace (i + 1 - 1 - i) with 0 by lia.
           simpl. replace (i + 1 - 1) with i by lia. auto.
        -- exists line, ev'.
           replace (Z.to_nat (off' - 1 - i))
             with (S (Z.to_nat (off' - 1 - (i + 1)))) by lia.
           simpl. auto.
      * intros j line ev' Hn Hd Hoff. destruct j as [|j]; simpl in Hn.
        -- inversion Hn; subst line. rewrite D in Hd. inversion Hd; subst ev'.
           simpl. replace (i + 0) with i by lia. split; [auto|lia].
        -- destruct (Hall j line ev' Hn Hd) as (Hin & Hlt); [lia|].
           replace (i + Z.of_nat (S j)) with (i + 1 + Z.of_nat j) by lia.
           simpl. split; [auto|lia].
      * rewrite CV. destruct (holds_record l); lia.
    + destruct (Rest _ _ E) as (t1 & E1 & ->). cbn [app].
      destruct (IH _ _ _ _ E1) as (Hle & Hlast & Hall & Hcnt).
      split; [lia|]. split; [|split].
      * destruct Hlast as [->|(Hlt & Hi & line & ev' & Hn & Hd & Hin)];
          [now left|right].
        split; [lia|]. split; [lia|]. exists line, ev'.
        replace (Z.to_nat (off' - 1 - i))
          with (S (Z.to_nat (off' - 1 - (i + 1)))) by lia.
        simpl. auto.
      * intros j line ev' Hn Hd Hoff. destruct j as [|j]; simpl in Hn.
        -- inversion Hn; subst line. congruence.
        -- destruct (Hall j line ev' Hn Hd) as (Hin & Hlt); [lia|].
           replace (i + Z.of_nat (S j)) with (i + 1 + Z.of_nat j) by lia.
           split; [auto|lia].
      * rewrite CV. unfold holds_record. rewrite D. lia.
    + discriminate E.
    + destruct (Rest _ _ E) as (t1 & E1 & ->). cbn [app].
      destruct (IH _ _ _ _ E1) as (Hle & Hlast & Hall & Hcnt).
      rewrite Z.geb_leb in G. apply Z.leb_gt in G.
      split; [lia|]. split; [|split].
      * destruct Hlast as [->|(Hlt & Hi & line & ev' & Hn & Hd & Hin)];
          [now left|right].
        split; [lia|]. split; [lia|]. exists line, ev'.
        replace (Z.to_nat (off' - 1 - i))
          with (S (Z.to_nat (off' - 1 - (i + 1)))) by lia.
        simpl. auto.
      * intros j line ev' Hn Hd Hoff. destruct j as [|j]; simpl in Hn; [lia|].
        destruct (Hall j line ev' Hn Hd) as (Hin & Hlt); [lia|].
        replace (i + Z.of_nat (S j)) with (i + 1 + Z.of_nat j) by lia.
        split; [auto|lia].
      * rewrite CV. destruct (holds_record l); lia.
Qed.

(** A record numbered from the offset on is sent once the loop has come to
    its line, whatever the lines after it do. *)
Lemma send_from_reaches (pre : list string) :
  forall (post : list string) (good : string) (ev : value) i off,
    (forall (j : nat) (line : string),
        nth_error pre j = Some line -> off <= i + Z.of_nat j ->
        aborts line = false) ->
    decode good = Holds ev ->
    fits ev = true ->
    off <= i + Z.of_nat (List.length pre) ->
    In (indexed (i + Z.of_nat (List.length pre)) ev)
       (events_sent
          (trace (for_each (enumerate_from i (pre ++ good :: post)) send_line off))).
Proof.
  induction pre as [|l pre IH]; intros post good ev i off Q D Fit L;
    cbn [enumerate_from for_each app].
  - rewrite send_line_decode, D, Fit. cbn [List.length] in *.
    replace (i >=? off) with true by (symmetry; apply Z.geb_le; lia).
    rewrite bind_value. cbn [trace fst]. rewrite events_sent_app.
    apply in_or_app. left. replace (i + Z.of_nat 0) with i by lia.
    simpl. auto.
  - rewrite send_line_decode.
    assert (Q1 : forall (j : nat) (line : string),
               nth_error pre j = Some line -> off <= i + 1 + Z.of_nat j ->
               aborts line = false).
    { intros j line Hn Hj. apply (Q (S j) line Hn). lia. }
    cbn [List.length] in *.
    replace (i + Z.of_nat (S (List.length pre)))
      with (i + 1 + Z.of_nat (List.length pre)) by lia.
    destruct (i >=? off) eqn:G.
    + pose proof (Q 0%nat l eq_refl) as Q0. unfold aborts in Q0.
      apply Z.geb_le in G.
      destruct (decode l) as [ev'| |e'].
      * replace (fits ev') with true
          by (symmetry; apply negb_false_iff, Q0; lia).
        rewrite bind_value. cbn [trace fst]. rewrite events_sent_app.
        apply in_or_app. right. apply IH; [|exact D|exact Fit|lia].
        intros j line Hn _. apply (Q (S j) line Hn). lia.
      * rewrite bind_value. cbn [trace fst app].
        apply IH; [exact Q1|exact D|exact Fit|lia].
      * exfalso. assert (true = false) by (apply Q0; lia). discriminate.
    + rewrite bind_value. cbn [trace fst app].
      apply IH; [exact Q1|exact D|exact Fit|lia].
Qed.

(** ** The poll, case by case *)

Lemma poll_absent (fs : FS) (c : Cursor) :
  fs CURRENT_LOG = None -> poll fs c = ([Exists CURRENT_LOG], inl c).
Proof. intros H. unfold poll, exists_. rewrite H. reflexivity. Qed.

Lemma poll_same_size (fs : FS) (c : Cursor) (n : Node) :
  fs CURRENT_LOG = Some n -> st_size (node_stat n) = last_size c ->
  poll fs c = ([Exists CURRENT_LOG; StatOf CURRENT_LOG], inl c).
Proof.
  intros H S. unfold poll, exists_, stat. rewrite H. cbn.
  rewrite S, Z.eqb_refl. reflexivity.
Qed.

(** The poll of a file of text whose size is not the recorded one. *)
Lemma poll_open (fs : FS) (c : Cursor) (st : Stat) (text : string) :
  fs CURRENT_LOG = Some (File st text) -> st_size st <> last_size c ->
  poll fs c =
  (Exists CURRENT_LOG :: StatOf CURRENT_LOG :: Open CURRENT_LOG ::
     trace (send_new_lines (readlines text) (offset c)),
   match outcome (send_new_lines (readlines text) (offset c)) with
   | inl off' => inl {| offset := off'; last_size := st_size st |}
   | inr e => inr e
   end).
Proof.
  intros H S. unfold poll, exists_, stat, open_lines. rewrite H. cbn.
  apply Z.eqb_neq in S. rewrite S. cbn.
  destruct (send_new_lines (readlines text) (offset c)) as [t [o|e]]; cbn;
    [now rewrite app_nil_r|reflexivity].
Qed.

Lemma poll_read (fs : FS) (c : Cursor) (st : Stat) (text : string)
  (t : list Action) (off' : Z) :
  fs CURRENT_LOG = Some (File st text) -> st_size st <> last_size c ->
  send_new_lines (readlines text) (offset c) = (t, inl off') ->
  poll fs c =
  (Exists CURRENT_LOG :: StatOf CURRENT_LOG :: Open CURRENT_LOG :: t,
   inl {| offset := off'; last_size := st_size st |}).
Proof. intros H S E. rewrite (poll_open fs c H S), E. reflexivity. Qed.

Lemma poll_undecodable (fs : FS) (c : Cursor) (st : Stat)
  (before : list string) :
  fs CURRENT_LOG = Some (Undecodable st before) -> st_size st <> last_size c ->
  poll fs c =
  ([Exists CURRENT_LOG; StatOf CURRENT_LOG; Open CURRENT_LOG],
   inr UnicodeDecodeError).
Proof.
  intros H S. unfold poll, exists_, stat, open_lines. rewrite H. cbn.
  apply Z.eqb_neq in S. rewrite S. reflexivity.
Qed.

Lemma poll_directory (fs : FS) (c : Cursor) (st : Stat) (entries : list string) :
  fs CURRENT_LOG = Some (Dir st entries) -> st_size st <> last_size c ->
  poll fs c =
  ([Exists CURRENT_LOG; StatOf CURRENT_LOG; Open CURRENT_LOG],
   inr IsADirectoryError).
Proof.
  intros H S. unfold poll, exists_, stat, open_lines. rewrite H. cbn.
  apply Z.eqb_neq in S. rewrite S. reflexivity.
Qed.

(** The poll, whatever the current log is: nothing to read, or the loop
    over the lines of a file of text, or an exception at the opening. *)
Lemma poll_cases (fs : FS) (c : Cursor) :
  (exists t, poll fs c = (t, inl c)
             /\ (t = [Exists CURRENT_LOG]
                 \/ t = [Exists CURRENT_LOG; StatOf CURRENT_LOG])
             /\ unchanged fs c)
  \/ (exists st text,
         fs CURRENT_LOG = Some (File st text) /\ st_size st <> last_size c)
  \/ (exists e, poll fs c
                = ([Exists CURRENT_LOG; StatOf CURRENT_LOG; Open CURRENT_LOG], inr e)).
Proof.
  unfold unchanged.
  destruct (fs CURRENT_LOG) as [n|] eqn:F.
  - destruct (Z.eq_dec (st_size (node_stat n)) (last_size c)) as [S|S].
    + left. eexists. split; [exact (poll_same_size fs c F S)|]. split; [|exact S].
      now right.
    + right. destruct n as [st text|st before|st entries]; simpl in S.
      * left. eauto.
      * right. eexists. exact (poll_undecodable fs c F S).
      * right. eexists. exact (poll_directory fs c F S).
  - left. eexists. split; [exact (poll_absent fs c F)|]. split; [|exact I].
    now left.
Qed.

(** A poll that returns leaves a cursor that the same file system does not
    move. *)
Lemma poll_leaves_unchanged (fs : FS) (c c' : Cursor) :
  outcome (poll fs c) = inl c' -> unchanged fs c'.
Proof.
  intros H.
  destruct (poll_cases fs c) as [(t & P & _ & U)|[(st & text & F & S)|(e & P)]].
  - rewrite P in H. inversion H; subst. exact U.
  - rewrite (poll_open fs c F S) in H.
    destruct (send_new_lines (readlines text) (offset c)) as [t [o|e]];
      unfold outcome in H; cbn [snd] in H; [|discriminate].
    inversion H; subst. unfold unchanged. rewrite F. reflexivity.
  - rewrite P in H. discriminate.
Qed.

Lemma poll_unchanged (fs : FS) (c : Cursor) :
  unchanged fs c ->
  events_sent (trace (poll fs c)) = [] /\ outcome (poll fs c) = inl c.
Proof.
  unfold unchanged. intros U.
  destruct (fs CURRENT_LOG) as [n|] eqn:F.
  - rewrite (poll_same_size fs c F U). split; reflexivity.
  - rewrite (poll_absent fs c F). split; reflexivity.
Qed.

(** The poll of a file of text returns when none of the lines numbered
    from the offset on ends the loop. *)
Lemma poll_returns_from (fs : FS) (c : Cursor) (st : Stat) (text : string) :
  fs CURRENT_LOG = Some (File st text) ->
  quiet_from (offset c) (readlines text) ->
  exists c1 : Cursor, outcome (poll fs c) = inl c1.
Proof.
  intros F Q.
  destruct (Z.eq_dec (st_size st) (last_size c)) as [S|S].
  - rewrite (@poll_same_size fs c _ F S). eexists; reflexivity.
  - destruct (@send_from_returns (readlines text) 0 (offset c)) as (t & o & E).
    { intros j line Hn Hj. apply (Q j line Hn). lia. }
    rewrite (poll_read fs c F S E). eexists; reflexivity.
Qed.

Lemma quiet_quiet_from (lines : list string) (off : Z) :
  quiet lines -> quiet_from off lines.
Proof.
  unfold quiet, quiet_from. intros Q j line Hn _.
  rewrite Forall_forall in Q. apply Q. eapply nth_error_In; eauto.
Qed.

(** On a current log that is absent, or a file of text none of whose
    lines ends the loop, the poll returns. *)
Lemma poll_returns (fs : FS) (c : Cursor) :
  calm fs -> exists c1 : Cursor, outcome (poll fs c) = inl c1.
Proof.
  unfold calm. intros R.
  destruct (fs CURRENT_LOG) as [[st text|st before|st entries]|] eqn:F;
    try contradiction.
  - apply (@poll_returns_from fs c st text F). now apply quiet_quiet_from.
  - rewrite (poll_absent fs c F). eexists; reflexivity.
Qed.

Lemma turn_outcome (c : Cursor) (fs : FS) :
  outcome (turn c fs) = outcome (poll fs c).
Proof.
  unfold turn. destruct (poll fs c) as [t [c'|e]]; reflexivity.
Qed.

Lemma poll_offset_le (fs : FS) (c c' : Cursor) :
  outcome (poll fs c) = inl c' -> offset c <= offset c'.
Proof.
  intros H.
  destruct (poll_cases fs c) as [(t & P & _ & U)|[(st & text & F & S)|(e & P)]].
  - rewrite P in H. inversion H. lia.
  - rewrite (poll_open fs c F S) in H.
    destruct (send_new_lines (readlines text) (offset c)) as [t [o|e]] eqn:E;
      unfold outcome in H; cbn [snd] in H; [|discriminate].
    inversion H; subst. simpl. apply (send_from_spec _ _ _ E).
  - rewrite P in H. discriminate.
Qed.

Lemma count_valid_all (lines : list string) :
  Forall (fun l => holds_record l = true) lines ->
  count_valid lines = Z.of_nat (List.length lines).
Proof.
  unfold count_valid. induction 1 as [|l lines Hl _ IH]; [reflexivity|].
  cbn [filter]. rewrite Hl. cbn [List.length]. lia.
Qed.

Lemma holds_record_decode (line : string) :
  holds_record line = true -> exists ev, decode line = Holds ev.
Proof.
  unfold holds_record. destruct (decode line) as [ev| |e];
    [eauto|discriminate|discriminate].
Qed.

(** ** The snapshot handlers on a file of text *)

Lemma serve_log_file (fs : FS) (st : Stat) (text : string) :
  fs CURRENT_LOG = Some (File st text) ->
  serve_log fs =
  (snapshot_headers ++ Exists CURRENT_LOG :: Open CURRENT_LOG ::
     body_of (outcome (read_all (readlines text))),
   end_of (outcome (read_all (readlines text)))).
Proof.
  intros F. unfold serve_log, read_file, exists_, open_iter, dumps. rewrite F.
  pose proof (read_all_trace (readlines text)) as T.
  destruct (read_all (readlines text)) as [t [rs|e]] eqn:R;
    unfold trace in T; simpl in T; subst t;
    cbn -[read_all readlines encodable]; rewrite R;
    cbn -[read_all readlines encodable]; [|reflexivity].
  destruct (encodable (JList rs)); reflexivity.
Qed.

Lemma serve_log_absent (fs : FS) :
  fs CURRENT_LOG = None ->
  serve_log fs
  = (snapshot_headers ++ [Exists CURRENT_LOG; Write (json_dumps (JList []))],
     inl tt).
Proof.
  intros F. unfold serve_log, exists_. rewrite F. cbn -[dumps].
  rewrite (dumps_encodable _ (encodable_list (Forall_nil _))). reflexivity.
Qed.

Lemma serve_specific_log_file (fs : FS) (log_name : string) (st : Stat)
  (text : string) :
  fs (joinpath LOG_DIR log_name) = Some (File st text) ->
  endswith ".jsonl" log_name = true ->
  serve_specific_log fs log_name =
  (Exists (joinpath LOG_DIR log_name) :: listing_headers
     ++ Open (joinpath LOG_DIR log_name) ::
     body_of (outcome (read_all (readlines text))),
   end_of (outcome (read_all (readlines text)))).
Proof.
  intros F E. unfold serve_specific_log, read_file, exists_, open_iter, dumps.
  rewrite F, E.
  pose proof (read_all_trace (readlines text)) as T.
  destruct (read_all (readlines text)) as [t [rs|e]] eqn:R;
    unfold trace in T; simpl in T; subst t;
    cbn -[read_all readlines encodable]; rewrite R;
    cbn -[read_all readlines encodable]; [|reflexivity].
  destruct (encodable (JList rs)); reflexivity.
Qed.

(** The snapshot handlers on a file whose bytes are not text: no body,
    and the exception of the loop or of the decoding. *)
Lemma serve_log_garbled (fs : FS) (st : Stat) (before : list string) :
  fs CURRENT_LOG = Some (Undecodable st before) ->
  serve_log fs =
  (snapshot_headers ++ [Exists CURRENT_LOG; Open CURRENT_LOG],
   inr match outcome (read_all before) with
       | inl _ => UnicodeDecodeError
       | inr e => e
       end).
Proof.
  intros F. unfold serve_log, read_file, exists_, open_iter. rewrite F.
  pose proof (read_all_trace before) as T.
  destruct (read_all before) as [t [rs|e]] eqn:R;
    unfold trace in T; simpl in T; subst t;
    cbn -[read_all]; rewrite R; reflexivity.
Qed.

Lemma serve_specific_log_garbled (fs : FS) (log_name : string) (st : Stat)
  (before : list string) :
  fs (joinpath LOG_DIR log_name) = Some (Undecodable st before) ->
  endswith ".jsonl" log_name = true ->
  serve_specific_log fs log_name =
  (Exists (joinpath LOG_DIR log_name) :: listing_headers
     ++ [Open (joinpath LOG_DIR log_name)],
   inr match outcome (read_all before) with
       | inl _ => UnicodeDecodeError
       | inr e => e
       end).
Proof.
  intros F E. unfold serve_specific_log, read_file, exists_, open_iter.
  rewrite F, E.
  pose proof (read_all_trace before) as T.
  destruct (read_all before) as [t [rs|e]] eqn:R;
    unfold trace in T; simpl in T; subst t;
    cbn -[read_all]; rewrite R; reflexivity.
Qed.

(** ** Idempotence of the poll *)

(** C6: when the current log has not changed since the cursor recorded it
    (it is absent, or its size is the recorded one), a poll returns no new
    record and the same cursor, and so does the poll that follows it;
    whatever the cursor before a first poll, that poll returns when the
    log is absent or a file of text none of whose lines ends a handler
    that decodes it (neither [json.loads] nor [json.dumps] raises an
    exception that the handler does not catch); and whenever a first poll
    returns, the poll after it on the same file system returns no new
    record and leaves the cursor as the first poll left it. *)
Theorem poll_idempotent (fs : FS) (c : Cursor) :
  (unchanged fs c ->
   events_sent (trace (poll fs c)) = [] /\ outcome (poll fs c) = inl c)
  /\ (calm fs -> exists c1 : Cursor, outcome (poll fs c) = inl c1)
  /\ (forall c1 : Cursor,
        outcome (poll fs c) = inl c1 ->
        events_sent (trace (poll fs c1)) = [] /\ outcome (poll fs c1) = inl c1).
Proof.
  split; [|split].
  - apply poll_unchanged.
  - apply poll_returns.
  - intros c1 H. apply poll_unchanged. exact (poll_leaves_unchanged fs c H).
Qed.

(** ** Tolerance to malformed lines *)

(** C7: of three lines of which the first and the last hold a record, the
    loop of the snapshot handlers keeps exactly the two records, in file
    order, when the middle line is blank or a text on which [json.loads]
    raises [JSONDecodeError], and [serve_log] as well as
    [serve_specific_log] write them and return without an exception (the
    two records being such that [json.dumps] encodes them); such a line
    is skipped wherever it stands, the lines around it are processed as if
    it were not there; a line that is empty or made of whitespace yields
    nothing.  But when [json.loads] raises another exception on the middle
    line ([RecursionError] on arrays nested too deep, [ValueError] on an
    integer with too many digits), the exception is not caught: the loop
    ends with it, and both handlers, which have sent their status line and
    headers by then, write no body and end with the exception.  So do
    they, with [UnicodeDecodeError], on a file whose bytes are not text. *)
Theorem malformed_line_skipped (first second : string) (r1 r2 : value) :
  decode first = Holds r1 -> decode second = Holds r2 ->
  (forall bad : string,
      decode bad = Skipped ->
      read_all [first; bad; second] = ret [r1; r2]
      /\ (forall pre post : list string,
            read_all (pre ++ bad :: post) = read_all (pre ++ post))
      /\ (fits r1 = true -> fits r2 = true ->
          (forall (fs : FS) (st : Stat) (text : string),
              fs CURRENT_LOG = Some (File st text) ->
              readlines text = [first; bad; second] ->
              written (trace (serve_log fs)) = [json_dumps (JList [r1; r2])]
              /\ outcome (serve_log fs) = inl tt)
          /\ (forall (fs : FS) (log_name : string) (st : Stat) (text : string),
                fs (joinpath LOG_DIR log_name) = Some (File st text) ->
                endswith ".jsonl" log_name = true ->
                readlines text = [first; bad; second] ->
                written (trace (serve_specific_log fs log_name))
                = [json_dumps (JList [r1; r2])]
                /\ outcome (serve_specific_log fs log_name) = inl tt)))
  /\ (forall blank : string,
        strip blank = EmptyString -> read_all [blank] = ret [])
  /\ (forall (bad : string) (e : Exn),
        decode bad = Aborts e ->
        read_all [first; bad; second] = raise e
        /\ (forall (fs : FS) (st : Stat) (text : string),
              fs CURRENT_LOG = Some (File st text) ->
              readlines text = [first; bad; second] ->
              statuses (trace (serve_log fs)) = [200]
              /\ written (trace (serve_log fs)) = []
              /\ outcome (serve_log fs) = inr e)
        /\ (forall (fs : FS) (log_name : string) (st : Stat) (text : string),
              fs (joinpath LOG_DIR log_name) = Some (File st text) ->
              endswith ".jsonl" log_name = true ->
              readlines text = [first; bad; second] ->
              statuses (trace (serve_specific_log fs log_name)) = [200]
              /\ written (trace (serve_specific_log fs log_name)) = []
              /\ outcome (serve_specific_log fs log_name) = inr e))
  /\ (forall (fs : FS) (st : Stat) (before : list string),
        fs CURRENT_LOG = Some (Undecodable st before) ->
        quiet before ->
        statuses (trace (serve_log fs)) = [200]
        /\ written (trace (serve_log fs)) = []
        /\ outcome (serve_log fs) = inr UnicodeDecodeError).
Proof.
  intros D1 D2.
  split; [|split; [|split]].
  - intros bad Db.
    assert (R : read_all [first; bad; second] = ret [r1; r2]).
    { rewrite !read_all_cons, D1, Db, D2. reflexivity. }
    split; [exact R|]. split.
    + intros pre post. apply read_all_skip. exact Db.
    + intros F1 F2.
      assert (Fit : encodable (JList [r1; r2]) = true).
      { apply encodable_list. repeat constructor; assumption. }
      split.
      * intros fs st text F L. rewrite (serve_log_file fs F), L, R.
        cbn [outcome snd ret body_of end_of]. rewrite Fit. split; reflexivity.
      * intros fs log_name st text F E L.
        rewrite (serve_specific_log_file fs log_name F E), L, R.
        cbn [outcome snd ret body_of end_of]. rewrite Fit. split; reflexivity.
  - intros blank B. rewrite read_all_cons, (decode_blank blank B). reflexivity.
  - intros bad e Db.
    assert (R : read_all [first; bad; second] = raise e).
    { rewrite !read_all_cons, D1, Db. reflexivity. }
    split; [exact R|]. split.
    + intros fs st text F L. rewrite (serve_log_file fs F), L, R.
      repeat split; reflexivity.
    + intros fs log_name st text F E L.
      rewrite (serve_specific_log_file fs log_name F E), L, R.
      repeat split; reflexivity.
  - intros fs st before F Q. rewrite (serve_log_garbled fs F).
    destruct (read_all_returns Q) as (records & ->).
    repeat split; reflexivity.
Qed.

(** ** The offset of the cursor *)

(** C2, amended: over every sequence of polls of one session (whatever the
    log does) the offset never decreases from one poll to the next, and
    every poll returns as long as the log is absent or a file of text
    none of whose lines ends a handler that decodes it (neither
    [json.loads] nor [json.dumps] raises an exception that the handler
    does not catch).  The offset counts lines, not records: a poll that
    reads a file none of whose lines from the offset on ends the handler
    returns, and leaves the offset above the number of every line that
    holds a record from the old offset on, and either where it was or one
    past the number of a line that holds a record; hence, from a start
    that is not negative, it is never less than the number of valid
    records of the file, and it is equal to it when the session starts at
    0 and every line holds a record. *)
Theorem offset_monotone_counts_lines (c0 : Cursor) (turns : list FS) :
  Sorted Z.le (map offset (c0 :: cursors c0 turns))
  /\ (Forall calm turns ->
      List.length (cursors c0 turns) = List.length turns)
  /\ (forall (fs : FS) (c : Cursor) (st : Stat) (text : string),
        fs CURRENT_LOG = Some (File st text) ->
        st_size st <> last_size c ->
        quiet_from (offset c) (readlines text) ->
        exists c' : Cursor,
          outcome (poll fs c) = inl c'
          /\ offset c <= offset c'
          /\ (forall (j : nat) (line : string),
                nth_error (readlines text) j = Some line ->
                holds_record line = true ->
                offset c <= Z.of_nat j -> Z.of_nat j < offset c')
          /\ (offset c' = offset c \/
              0 < offset c' /\
              exists line : string,
                nth_error (readlines text) (Z.to_nat (offset c' - 1)) = Some line
                /\ holds_record line = true)
          /\ (0 <= offset c -> count_valid (readlines text) <= offset c')
          /\ (offset c = 0 ->
              Forall (fun l => holds_record l = true) (readlines text) ->
              offset c' = count_valid (readlines text))).
Proof.
  split; [|split].
  - revert c0. induction turns as [|fs turns IH]; intros c0.
    + simpl. repeat constructor.
    + cbn [cursors]. rewrite turn_outcome.
      destruct (outcome (poll fs c0)) as [c'|e] eqn:P.
      * specialize (IH c'). cbn [map] in *. constructor; [exact IH|].
        constructor. exact (poll_offset_le fs c0 P).
      * simpl. repeat constructor.
  - intros R. revert c0. induction R as [|fs turns Rfs _ IH]; intros c0;
      [reflexivity|].
    cbn [cursors]. rewrite turn_outcome.
    destruct (poll_returns fs c0 Rfs) as (c1 & ->).
    cbn [List.length]. now rewrite IH.
  - intros fs c st text F S Q.
    destruct (@send_from_returns (readlines text) 0 (offset c)) as (t & o & E).
    { intros j line Hn Hj. apply (Q j line Hn). lia. }
    exists {| offset := o; last_size := st_size st |}.
    rewrite (poll_read fs c F S E). cbn [outcome snd offset].
    destruct (send_from_spec _ _ _ E) as (Hle & Hlast & Hall & Hcnt).
    assert (Hlast' : o = offset c \/
              0 < o /\
              exists line : string,
                nth_error (readlines text) (Z.to_nat (o - 1)) = Some line
                /\ holds_record line = true).
    { destruct Hlast as [->|(Hlt & Hi & line & ev & Hn & Hd & _)]; [now left|].
      right. split; [lia|]. exists line.
      replace (o - 1 - 0) with (o - 1) in Hn by lia.
      split; [exact Hn|]. unfold holds_record. now rewrite Hd. }
    split; [reflexivity|]. split; [exact Hle|]. split; [|split; [|split]].
    + intros j line Hn Hv Hj. destruct (holds_record_decode _ Hv) as (ev & Hd).
      destruct (Hall j line ev Hn Hd) as (_ & Hlt); lia.
    + exact Hlast'.
    + intros H0. lia.
    + intros H0 Hall'. rewrite (count_valid_all Hall').
      destruct (readlines text) as [|l0 ls] eqn:L.
      * destruct Hlast' as [->|(_ & line & Hn & _)]; [simpl; lia|].
        destruct (Z.to_nat (o - 1)); discriminate.
      * set (lines := l0 :: ls) in *.
        assert (Hlen : (0 < List.length lines)%nat) by (simpl; lia).
        destruct (nth_error lines (List.length lines - 1)) as [line|] eqn:Hn.
        -- assert (Hv : holds_record line = true).
           { rewrite Forall_forall in Hall'. apply Hall'.
             eapply nth_error_In; eauto. }
           destruct (holds_record_decode _ Hv) as (ev & Hd).
           destruct (Hall _ line ev Hn Hd) as (_ & Hlt); [lia|].
           destruct Hlast' as [->|(Hpos & line' & Hn' & _)]; [lia|].
           assert (Z.to_nat (o - 1) < List.length lines)%nat
             by (apply nth_error_Some; congruence).
           lia.
        -- apply nth_error_None in Hn. lia.
Qed.

(** ** A log that shrank or was replaced *)

Lemma send_from_nothing (lines : list string) :
  forall i off,
    (forall j line,
        nth_error lines j = Some line -> off <= i + Z.of_nat j ->
        decode line = Skipped) ->
    for_each (enumerate_from i lines) send_line off = ([], inl off).
Proof.
  induction lines as [|l lines IH]; intros i off H;
    cbn [enumerate_from for_each]; [reflexivity|].
  rewrite send_line_decode.
  assert (IH' : for_each (enumerate_from (i + 1) lines) send_line off
                = ([], inl off)).
  { apply IH. intros j line Hn Hj. apply (H (S j) line Hn). lia. }
  destruct (i >=? off) eqn:G.
  - apply Z.geb_le in G. rewrite (H 0%nat l eq_refl) by lia.
    rewrite bind_value, IH'. reflexivity.
  - rewrite bind_value, IH'. reflexivity.
Qed.

(** C3, amended: if a poll observes a byte size different from the
    recorded one and every line numbered from the offset on is skipped,
    being blank or refused by [json.loads] with [JSONDecodeError] (so
    whenever the file has no more lines than the offset, as after it
    shrank or was replaced), the poll reads the file, returns no new
    record and leaves the offset where it was: the offset is not reset.
    Only the recorded size is updated. *)
Theorem poll_after_shrink_keeps_offset
  (fs : FS) (c : Cursor) (st : Stat) (text : string) :
  fs CURRENT_LOG = Some (File st text) ->
  st_size st <> last_size c ->
  (forall (j : nat) (line : string),
      nth_error (readlines text) j = Some line ->
      offset c <= Z.of_nat j -> decode line = Skipped) ->
  poll fs c
  = ([Exists CURRENT_LOG; StatOf CURRENT_LOG; Open CURRENT_LOG],
     inl {| offset := offset c; last_size := st_size st |})
  /\ events_sent (trace (poll fs c)) = [].
Proof.
  intros F S H.
  assert (E : send_new_lines (readlines text) (offset c) = ([], inl (offset c))).
  { apply send_from_nothing. intros j line Hn Hj. apply (H j line Hn). lia. }
  rewrite (poll_read fs c F S E). split; reflexivity.
Qed.

(** ** A trailing partial write *)

Lemma turn_poll_raises (fs : FS) (c : Cursor) (e : Exn) (later : list FS) :
  outcome (poll fs c) = inr e ->
  for_each (fs :: later) turn c = (trace (poll fs c), inr e).
Proof.
  intros H. cbn [for_each]. unfold turn.
  destruct (poll fs c) as [t [c'|e']]; unfold outcome in H; cbn [snd] in H;
    [discriminate|].
  inversion H; subst. reflexivity.
Qed.

(** C10: a poll moves the offset only to one past a line that it has
    parsed and sent.  Hence, when the last line of the file is skipped
    (blank, or refused by [json.loads] with [JSONDecodeError], as a line
    cut short is) and the offset is at or before the number of that line,
    the offset is still at or before it after the poll, which returns
    when no line before the last ends the handler; and when a later poll
    from that cursor observes another byte size and finds the line at
    that number well-formed (and [json.dumps] encodes its record), it
    sends it, with that number as index.  But when [json.loads] raises
    another exception on the last line (as it does on a line cut short
    inside arrays nested too deep), the exception is not caught: the poll
    ends with it, and with the poll the session, whatever the log becomes
    later; the line is never sent.  So does the poll of a file whose bytes
    are not text, as they are while a character of several bytes is half
    written: the session ends with [UnicodeDecodeError]. *)
Theorem trailing_line_retried
  (fs : FS) (c : Cursor) (st : Stat) (text : string)
  (pre : list string) (bad : string) :
  fs CURRENT_LOG = Some (File st text) ->
  readlines text = pre ++ [bad] ->
  offset c <= Z.of_nat (List.length pre) ->
  (decode bad = Skipped ->
   (quiet_from (offset c) pre ->
    exists c1 : Cursor, outcome (poll fs c) = inl c1)
   /\ (forall c1 : Cursor,
         outcome (poll fs c) = inl c1 ->
         offset c1 <= Z.of_nat (List.length pre)
         /\ (offset c1 = offset c \/
             exists ev : value,
               In (indexed (offset c1 - 1) ev) (events_sent (trace (poll fs c))))
         /\ (forall (fs2 : FS) (st2 : Stat) (text2 : string)
                    (pre2 post : list string) (good : string) (ev : value),
               fs2 CURRENT_LOG = Some (File st2 text2) ->
               st_size st2 <> last_size c1 ->
               readlines text2 = pre2 ++ good :: post ->
               List.length pre2 = List.length pre ->
               quiet_from (offset c1) pre2 ->
               decode good = Holds ev ->
               fits ev = true ->
               In (indexed (Z.of_nat (List.length pre)) ev)
                  (events_sent (trace (poll fs2 c1))))))
  /\ (forall e : Exn,
        decode bad = Aborts e ->
        st_size st <> last_size c ->
        quiet_from (offset c) pre ->
        outcome (poll fs c) = inr e
        /\ forall later : list FS,
             for_each (fs :: later) turn c = (trace (poll fs c), inr e))
  /\ (forall (fs' : FS) (c' : Cursor) (st' : Stat) (before : list string)
             (later : list FS),
        fs' CURRENT_LOG = Some (Undecodable st' before) ->
        st_size st' <> last_size c' ->
        for_each (fs' :: later) turn c'
        = ([Exists CURRENT_LOG; StatOf CURRENT_LOG; Open CURRENT_LOG],
           inr UnicodeDecodeError)).
Proof.
  intros F L Hoff. split; [|split].
  - intros Db.
    assert (Later : forall c1 : Cursor,
               offset c1 <= Z.of_nat (List.length pre) ->
               forall (fs2 : FS) (st2 : Stat) (text2 : string)
                      (pre2 post : list string) (good : string) (ev : value),
                 fs2 CURRENT_LOG = Some (File st2 text2) ->
                 st_size st2 <> last_size c1 ->
                 readlines text2 = pre2 ++ good :: post ->
                 List.length pre2 = List.length pre ->
                 quiet_from (offset c1) pre2 ->
                 decode good = Holds ev ->
                 fits ev = true ->
                 In (indexed (Z.of_nat (List.length pre)) ev)
                    (events_sent (trace (poll fs2 c1)))).
    { intros c1 H1 fs2 st2 text2 pre2 post good ev F2 S2 L2 Hlen Q2 Dg Fg.
      rewrite (poll_open fs2 c1 F2 S2). cbn [trace fst events_sent].
      unfold send_new_lines, enumerate. rewrite L2, <- Hlen.
      apply (@send_from_reaches pre2 post good ev 0 (offset c1));
        [|exact Dg|exact Fg|lia].
      intros j line Hn Hj. apply (Q2 j line Hn). lia. }
    split.
    + intros Q. apply (@poll_returns_from fs c st text F).
      rewrite L. intros j line Hn Hj.
      destruct (Nat.lt_ge_cases j (List.length pre)) as [A|A].
      * rewrite nth_error_app1 in Hn by exact A. exact (Q j line Hn Hj).
      * rewrite nth_error_app2 in Hn by exact A.
        destruct (j - List.length pre)%nat as [|k]; [|destruct k; discriminate].
        inversion Hn; subst line. unfold aborts. now rewrite Db.
    + intros c1 H.
      destruct (poll_cases fs c) as [(t & P & _ & U)|[(st' & text' & F' & S)|(e & P)]].
      * rewrite P in H |- *. inversion H; subst c1.
        split; [exact Hoff|]. split; [now left|]. apply Later. exact Hoff.
      * rewrite F in F'. inversion F'; subst st' text'.
        rewrite (poll_open fs c F S) in H |- *.
        destruct (send_new_lines (readlines text) (offset c)) as [t [o|e]] eqn:E;
          unfold outcome in H; cbn [snd] in H; [|discriminate].
        inversion H; subst c1. cbn [offset trace fst events_sent].
        destruct (send_from_spec _ _ _ E) as (Hle & Hlast & _ & _).
        assert (Hbound : o <= Z.of_nat (List.length pre)).
        { destruct Hlast as [->|(Hlt & Hi & line & ev & Hn & Hd & _)];
            [exact Hoff|].
          rewrite L in Hn.
          destruct (Nat.lt_ge_cases (Z.to_nat (o - 1 - 0)) (List.length pre))
            as [A|A]; [lia|].
          rewrite nth_error_app2 in Hn by exact A.
          destruct (Z.to_nat (o - 1 - 0) - List.length pre)%nat as [|k] eqn:K.
          - simpl in Hn. inversion Hn; subst line. congruence.
          - destruct k; discriminate Hn. }
        split; [exact Hbound|]. split.
        -- destruct Hlast as [->|(_ & _ & line & ev & _ & _ & Hin)]; [now left|].
           right. exists ev. exact Hin.
        -- apply Later. exact Hbound.
      * rewrite P in H. discriminate.
  - intros e Db S Q.
    assert (P : outcome (poll fs c) = inr e).
    { rewrite (poll_open fs c F S). unfold send_new_lines, enumerate.
      rewrite L.
      destruct (@send_from_aborts pre [] bad e 0 (offset c)) as (t & o & _ & E);
        [|exact Db|lia|].
      { intros j line Hn Hj. apply (Q j line Hn). lia. }
      rewrite E. reflexivity. }
    split; [exact P|]. intros later. exact (turn_poll_raises fs c later P).
  - intros fs' c' st' before later F' S'.
    rewrite (@turn_poll_raises fs' c' UnicodeDecodeError later);
      rewrite (poll_undecodable fs' c' F' S'); reflexivity.
Qed.

(** ** The offset parameter of a stream *)

Lemma stream_log_unfold (req : Request) (turns : list FS) :
  stream_log req turns =
  let rest := (offset <- parse_offset (params req) ;;
               for_each turns turn {| offset := offset; last_size := 0 |}) in
  (stream_headers ++ trace rest, outcome rest).
Proof.
  unfold stream_log. cbv zeta.
  destruct (offset <- parse_offset (params req) ;;
            for_each turns turn {| offset := offset; last_size := 0 |})
    as [t r]; reflexivity.
Qed.

(** A session of at least one turn starts with a look at the current
    log. *)
Lemma turns_start (fs : FS) (later : list FS) (c : Cursor) :
  exists t, trace (for_each (fs :: later) turn c) = Exists CURRENT_LOG :: t.
Proof.
  rewrite for_each_cons, trace_bind. unfold turn at 1. rewrite trace_bind.
  unfold poll at 1. rewrite trace_bind. cbn [exists_ emit bind ret trace fst app].
  eexists. reflexivity.
Qed.

(** C9: a stream request ends with [ValueError] right after the 200
    status line and the headers, before any poll, exactly when its
    [offset] parameter is present and its first value fails the conversion
    to an integer; nothing else is done then: no access to the log, no
    event, no keepalive. *)
Theorem stream_offset_conversion (req : Request) (turns : list FS) :
  (stream_log req turns = (stream_headers, inr ValueError) <->
   exists (v : string) (others : list string),
     dict_get (params req) "offset" = Some (v :: others)
     /\ int_of_str v = None)
  /\ (stream_log req turns = (stream_headers, inr ValueError) ->
      written (trace (stream_log req turns)) = []
      /\ accessed (trace (stream_log req turns)) = []
      /\ events_sent (trace (stream_log req turns)) = []).
Proof.
  split; [|intros ->; repeat split; reflexivity].
  assert (Converted : forall z : Z,
             (stream_headers ++ trace (for_each turns turn {| offset := z; last_size := 0 |}),
              outcome (for_each turns turn {| offset := z; last_size := 0 |}))
             <> (stream_headers, inr ValueError)).
  { intros z H. destruct turns as [|fs later]; [discriminate H|].
    destruct (turns_start fs later {| offset := z; last_size := 0 |}) as (t & T).
    rewrite T in H. inversion H. }
  rewrite stream_log_unfold. cbv zeta. unfold parse_offset.
  destruct (dict_get (params req) "offset") as [[|v others]|] eqn:G;
    cbv beta iota.
  - cbn. split; [discriminate|].
    intros (v & others & H & _). discriminate.
  - destruct (int_of_str v) as [z|] eqn:I; cbv beta iota.
    + rewrite bind_ret. split; [intros H; destruct (Converted z H)|].
      intros (v' & others' & H & H'). inversion H; subst. congruence.
    + cbn. split; [|reflexivity].
      intros _. exists v, others. auto.
  - rewrite bind_ret. split; [intros H; destruct (Converted 0 H)|].
    intros (v & others & H & _). discriminate.
Qed.

(** ** The headers of the responses *)

Lemma response_headers_app (t u : list Action) :
  response_headers (t ++ u) = response_headers t ++ response_headers u.
Proof.
  induction t as [|a t IH]; simpl; [reflexivity|].
  destruct a; simpl; try assumption. now rewrite IH.
Qed.

Lemma stats_no_header (fs : FS) (paths : list Path) :
  forall logs, response_headers (trace (for_each paths (append_entry fs) logs)) = [].
Proof.
  induction paths as [|p paths IH]; intros logs; [reflexivity|].
  rewrite for_each_cons, trace_bind, response_headers_app.
  unfold append_entry at 1 2, stat.
  destruct (fs p) as [n|]; cbn; [apply IH|reflexivity].
Qed.


Lemma serve_specific_log_not_found (fs : FS) (log_name : string) :
  fs (joinpath LOG_DIR log_name) = None \/ endswith ".jsonl" log_name = false ->
  serve_specific_log fs log_name
  = ([Exists (joinpath LOG_DIR log_name); SendError 404 "Log not found"], inl tt).
Proof.
  unfold serve_specific_log, exists_. intros [H|H]; rewrite H.
  - reflexivity.
  - destruct (fs (joinpath LOG_DIR log_name)); reflexivity.
Qed.


(** ** The listing, case by case *)

Lemma stat_loop_shape (fs : FS) (paths : list Path) :
  forall logs,
    exists k : nat,
      trace (for_each paths (append_entry fs) logs) = map StatOf (firstn k paths)
      /\ (outcome (for_each paths (append_entry fs) logs) = inr FileNotFoundError
          \/ exists logs', outcome (for_each paths (append_entry fs) logs) = inl logs').
Proof.
  induction paths as [|p paths IH]; intros logs.
  - exists 0%nat. split; [reflexivity|right; eexists; reflexivity].
  - rewrite for_each_cons. unfold append_entry at 1 3 5, stat.
    destruct (fs p) as [n|].
    + cbn [emit ret bind app].
      destruct (IH (logs ++ [log_entry p (node_stat n)])) as (k & T & O).
      destruct (for_each paths (append_entry fs) _) as [t r].
      cbn [trace outcome fst snd] in *. exists (S k). subst t.
      split; [reflexivity|exact O].
    + exists 1%nat. cbn. split; [reflexivity|now left].
Qed.

Lemma stat_loop_missing (fs : FS) (paths : list Path) :
  (exists p, In p paths /\ fs p = None) ->
  forall logs,
    outcome (for_each paths (append_entry fs) logs) = inr FileNotFoundError.
Proof.
  induction paths as [|p paths IH]; intros (q & Hin & Hq) logs;
    [contradiction|].
  rewrite for_each_cons, outcome_bind. unfold append_entry at 1, stat.
  destruct (fs p) as [n|] eqn:F; [|reflexivity].
  cbn [emit ret bind app outcome snd].
  apply IH. destruct Hin as [->|Hin]; [congruence|eauto].
Qed.

(** The entries of the listing are nested one deep, so [json.dumps]
    encodes the list of them. *)
Lemma stat_loop_shallow (fs : FS) (paths : list Path) :
  forall logs0 logs,
    Forall (fun v => fits v = true) logs0 ->
    outcome (for_each paths (append_entry fs) logs0) = inl logs ->
    Forall (fun v => fits v = true) logs.
Proof.
  induction paths as [|p paths IH]; intros logs0 logs H0 H.
  - inversion H; subst. exact H0.
  - rewrite for_each_cons, outcome_bind in H. unfold append_entry at 1, stat in H.
    destruct (fs p) as [n|]; [|discriminate H].
    cbn [emit ret bind app outcome snd] in H.
    apply (IH (logs0 ++ [log_entry p (node_stat n)])); [|exact H].
    apply Forall_app. split; [exact H0|]. constructor; [|constructor].
    unfold fits, log_entry. cbn [depth snd Nat.max]. exact encoding_room.
Qed.

Lemma list_logs_dir (fs : FS) (st : Stat) (entries : list string) :
  fs LOG_DIR = Some (Dir st entries) ->
  let loop := for_each (listed_paths entries) (append_entry fs) [] in
  list_logs fs
  = (listing_headers
     ++ Exists LOG_DIR :: Glob LOG_DIR archived_pattern :: trace loop
     ++ match outcome loop with
        | inl logs => [Write (json_dumps (JList logs))]
        | inr _ => []
        end,
     match outcome loop with
     | inl _ => inl tt
     | inr e => inr e
     end).
Proof.
  intros F loop. unfold list_logs, exists_, glob. rewrite F.
  cbn -[for_each sorted_reverse filter map dumps].
  fold archived_pattern. fold (listed_paths entries). fold loop.
  pose proof (@stat_loop_shallow fs (listed_paths entries) []) as Sh.
  fold loop in Sh.
  destruct loop as [t [logs|e]]; cbn -[dumps];
    [|now rewrite app_nil_r].
  rewrite (dumps_encodable _ (encodable_list (Sh logs (Forall_nil _) eq_refl))).
  reflexivity.
Qed.

Lemma list_logs_no_dir (fs : FS) :
  (forall st entries, fs LOG_DIR <> Some (Dir st entries)) ->
  list_logs fs
  = (listing_headers
     ++ Exists LOG_DIR
     :: match fs LOG_DIR with
        | Some _ => [Glob LOG_DIR archived_pattern]
        | None => []
        end
     ++ [Write (json_dumps (JList []))], inl tt).
Proof.
  intros N. unfold list_logs, exists_, glob.
  pose proof (dumps_encodable _ (encodable_list (Forall_nil _))) as D.
  destruct (fs LOG_DIR) as [[st text|st before|st entries]|] eqn:F;
    try (cbn -[dumps]; rewrite D; reflexivity).
  exfalso. exact (N st entries eq_refl).
Qed.

(** C5 fails on the code: the listing and the archived log are served with
    the permissive cross-origin header but without any [Cache-Control]
    header, which only the current log and the stream carry. *)
Theorem cache_control_only_on_current_log (fs : FS) :
  response_headers (trace (list_logs fs))
  = [("Content-Type", "application/json"); ("Access-Control-Allow-Origin", "*")]
  /\ has_header "Cache-Control" (trace (list_logs fs)) = false
  /\ (forall log_name : string,
        has_header "Cache-Control" (trace (serve_specific_log fs log_name)) = false)
  /\ response_headers (trace (serve_log fs))
     = [("Content-Type", "application/json"); ("Access-Control-Allow-Origin", "*");
        ("Cache-Control", "no-cache")]
  /\ (forall (req : Request) (turns : list FS),
        has_header "Cache-Control" (trace (stream_log req turns)) = true
        /\ has_header "Access-Control-Allow-Origin" (trace (stream_log req turns)) = true).
Proof.
  assert (L : response_headers (trace (list_logs fs))
              = [("Content-Type", "application/json");
                 ("Access-Control-Allow-Origin", "*")]).
  { destruct (fs LOG_DIR) as [[st text|st before|st entries]|] eqn:F;
      try (rewrite list_logs_no_dir by congruence; rewrite F; reflexivity).
    rewrite (list_logs_dir fs F). cbv zeta. cbn [trace fst].
    pose proof (stats_no_header fs (listed_paths entries) []) as N.
    rewrite response_headers_app. cbn [response_headers].
    rewrite response_headers_app, N.
    destruct (outcome (for_each (listed_paths entries) (append_entry fs) []));
      reflexivity. }
  split; [exact L|]. split; [|split; [|split]].
  - unfold has_header. rewrite L. reflexivity.
  - intros log_name. destruct (endswith ".jsonl" log_name) eqn:E;
      [|rewrite serve_specific_log_not_found by (now right); reflexivity].
    destruct (fs (joinpath LOG_DIR log_name)) as [[st text|st before|st entries]|] eqn:F.
    + rewrite (serve_specific_log_file fs log_name F E). unfold body_of.
      destruct (outcome (read_all (readlines text))) as [evs|e];
        [destruct (encodable (JList evs))|]; reflexivity.
    + rewrite (serve_specific_log_garbled fs log_name F E). reflexivity.
    + unfold serve_specific_log, read_file, exists_, open_iter. rewrite F, E. reflexivity.
    + rewrite serve_specific_log_not_found by (now left). reflexivity.
  - destruct (fs CURRENT_LOG) as [[st text|st before|st entries]|] eqn:F.
    + rewrite (serve_log_file fs F). unfold body_of.
      destruct (outcome (read_all (readlines text))) as [evs|e];
        [destruct (encodable (JList evs))|]; reflexivity.
    + rewrite (serve_log_garbled fs F). reflexivity.
    + unfold serve_log, read_file, exists_, open_iter. rewrite F. reflexivity.
    + rewrite (serve_log_absent fs F). reflexivity.
  - intros req turns. rewrite stream_log_unfold. cbv zeta.
    unfold has_header. cbn [trace fst]. rewrite response_headers_app.
    rewrite !existsb_app. split; reflexivity.
Qed.

(** ** The name of an archived log *)








(** ** The listing of the archived logs *)

(** *** The naming convention *)

Lemma fnmatch_star_cons (pat : list ascii) (c : ascii) (s : list ascii) :
  fnmatch_chars ("*"%char :: pat) (c :: s)
  = (fnmatch_chars pat (c :: s) || fnmatch_chars ("*"%char :: pat) s)%bool.
Proof. reflexivity. Qed.

Lemma fnmatch_star_nil (pat : list ascii) :
  fnmatch_chars ("*"%char :: pat) [] = fnmatch_chars pat [].
Proof. cbn. now rewrite orb_false_r. Qed.

Lemma fnmatch_star (pat s : list ascii) :
  fnmatch_chars ("*"%char :: pat) s = true <->
  exists a b, s = a ++ b /\ fnmatch_chars pat b = true.
Proof.
  induction s as [|c s IH].
  - rewrite fnmatch_star_nil. split.
    + intros H. now exists [], [].
    + intros (a & b & E & H). symmetry in E.
      apply app_eq_nil in E. destruct E; subst. exact H.
  - rewrite fnmatch_star_cons, orb_true_iff, IH. split.
    + intros [H|(a & b & E & H)].
      * now exists [], (c :: s).
      * exists (c :: a), b. subst. auto.
    + intros (a & b & E & H). destruct a as [|x a]; simpl in E.
      * left. subst. exact H.
      * right. inversion E; subst. eauto.
Qed.

Lemma fnmatch_plain (pat : list ascii) :
  Forall plain pat ->
  forall s, fnmatch_chars pat s = true <-> s = pat.
Proof.
  induction 1 as [|c pat (Hs & Hq) _ IH]; intros s.
  - destruct s; simpl; split; congruence.
  - cbn [fnmatch_chars]. rewrite Hs, Hq. destruct s as [|d s].
    + split; discriminate.
    + cbn [orb]. rewrite andb_true_iff, Ascii.eqb_eq, IH. split.
      * intros (-> & ->). reflexivity.
      * intros E. inversion E. auto.
Qed.

Lemma fnmatch_prefix_star_suffix (pre suf : list ascii) :
  Forall plain pre -> Forall plain suf ->
  forall s,
    fnmatch_chars (pre ++ "*"%char :: suf) s = true <->
    exists m, s = pre ++ m ++ suf.
Proof.
  intros Hpre Hsuf. induction Hpre as [|c pre (Hs & Hq) _ IH]; intros s.
  - cbn [app]. rewrite fnmatch_star. split.
    + intros (a & b & E & H). apply (fnmatch_plain Hsuf) in H. subst. eauto.
    + intros (m & E). exists m, suf. split; [exact E|].
      now apply (fnmatch_plain Hsuf).
  - cbn [app fnmatch_chars]. rewrite Hs, Hq. destruct s as [|d s].
    + split; [discriminate|]. intros (m & E). discriminate.
    + cbn [orb]. rewrite andb_true_iff, Ascii.eqb_eq, IH. split.
      * intros (-> & m & ->). eauto.
      * intros (m & E). inversion E. eauto.
Qed.

Lemma list_ascii_of_string_app (a b : string) :
  list_ascii_of_string (a ++ b)
  = list_ascii_of_string a ++ list_ascii_of_string b.
Proof. induction a as [|c a IH]; simpl; [reflexivity|now rewrite IH]. Qed.

Lemma string_of_list_ascii_app (a b : list ascii) :
  string_of_list_ascii (a ++ b)
  = (string_of_list_ascii a ++ string_of_list_ascii b)%string.
Proof. induction a as [|c a IH]; simpl; [reflexivity|now rewrite IH]. Qed.

(** The names that the pattern of the archived logs matches: the prefix
    [ralph_], anything, the extension [.jsonl]. *)
Lemma archived_pattern_names (n : string) :
  fnmatch archived_pattern n = true <->
  exists middle : string, n = ("ralph_" ++ middle ++ ".jsonl")%string.
Proof.
  unfold fnmatch, archived_pattern.
  change (list_ascii_of_string "ralph_*.jsonl")
    with (list_ascii_of_string "ralph_" ++ "*"%char :: list_ascii_of_string ".jsonl").
  rewrite fnmatch_prefix_star_suffix
    by (repeat constructor).
  split.
  - intros (m & E). exists (string_of_list_ascii m).
    rewrite <- (string_of_list_ascii_of_string n), E.
    rewrite !string_of_list_ascii_app. reflexivity.
  - intros (middle & ->). exists (list_ascii_of_string middle).
    rewrite !list_ascii_of_string_app. reflexivity.
Qed.

(** *** The order of the names *)

Lemma compare_not_lt_trans (a : string) :
  forall b c,
    String.compare a b <> Lt -> String.compare b c <> Lt ->
    String.compare a c <> Lt.
Proof.
  induction a as [|x a IH]; intros [|y b] [|z c]; cbn [String.compare];
    try congruence.
  unfold Ascii.compare.
  destruct (N.compare_spec (N_of_ascii x) (N_of_ascii y)) as [Exy|Lxy|Gxy];
    destruct (N.compare_spec (N_of_ascii y) (N_of_ascii z)) as [Eyz|Lyz|Gyz];
    destruct (N.compare_spec (N_of_ascii x) (N_of_ascii z)) as [Exz|Lxz|Gxz];
    try congruence; try lia.
  apply IH.
Qed.

Lemma name_ge_trans : Relations_1.Transitive name_ge.
Proof.
  intros a b c. unfold name_ge, String.ltb. intros H1 H2.
  pose proof (@compare_not_lt_trans a b c) as T.
  destruct (String.compare a b); try discriminate;
    destruct (String.compare b c); try discriminate;
    destruct (String.compare a c); try reflexivity;
    exfalso; apply T; congruence.
Qed.

Lemma parts_compare_antisym (a : list string) :
  forall b, parts_compare a b = CompOpp (parts_compare b a).
Proof.
  induction a as [|x a IH]; intros [|y b]; cbn [parts_compare]; try reflexivity.
  rewrite (String.compare_antisym x y).
  destruct (String.compare y x); cbn; auto.
Qed.

Lemma path_ltb_asym (p q : Path) : path_ltb p q = true -> path_ltb q p = false.
Proof.
  unfold path_ltb, path_compare.
  destruct p as [a|a], q as [b|b]; try discriminate; try reflexivity;
    rewrite (parts_compare_antisym b a);
    destruct (parts_compare a b); cbn; congruence.
Qed.

Lemma child_ltb (a b : string) :
  path_ltb (child LOG_DIR a) (child LOG_DIR b) = String.ltb a b.
Proof.
  unfold path_ltb, String.ltb. cbn.
  destruct (String.compare a b); reflexivity.
Qed.

(** *** The sort *)

Lemma insert_reverse_perm (p : Path) (l : list Path) :
  Permutation (insert_reverse p l) (p :: l).
Proof.
  induction l as [|q l IH]; cbn [insert_reverse]; [reflexivity|].
  destruct (path_ltb p q); [|reflexivity].
  rewrite IH. apply perm_swap.
Qed.

Lemma sorted_reverse_perm (l : list Path) : Permutation (sorted_reverse l) l.
Proof.
  induction l as [|p l IH]; cbn [sorted_reverse]; [reflexivity|].
  rewrite insert_reverse_perm. now constructor.
Qed.

Lemma insert_reverse_sorted (p : Path) (l : list Path) :
  Sorted path_ge l -> Sorted path_ge (insert_reverse p l).
Proof.
  induction 1 as [|q l Hs IH Hd]; cbn [insert_reverse].
  - repeat constructor.
  - destruct (path_ltb p q) eqn:E.
    + constructor; [exact IH|].
      destruct l as [|r l]; cbn [insert_reverse].
      * constructor. exact (path_ltb_asym _ _ E).
      * destruct (path_ltb p r); constructor.
        -- inversion Hd; assumption.
        -- exact (path_ltb_asym _ _ E).
    + repeat constructor; assumption.
Qed.

Lemma sorted_reverse_sorted (l : list Path) : Sorted path_ge (sorted_reverse l).
Proof.
  induction l as [|p l IH]; cbn [sorted_reverse]; [constructor|].
  now apply insert_reverse_sorted.
Qed.

Lemma path_name_child (n : string) : path_name (child LOG_DIR n) = n.
Proof. reflexivity. Qed.

Lemma children_names (l : list Path) :
  Forall (fun p => exists n, p = child LOG_DIR n) l ->
  map (child LOG_DIR) (map path_name l) = l.
Proof.
  induction 1 as [|p l (n & ->) _ IH]; [reflexivity|].
  cbn [map]. now rewrite IH.
Qed.

Lemma children_sorted (l : list Path) :
  Forall (fun p => exists n, p = child LOG_DIR n) l ->
  Sorted path_ge l -> Sorted name_ge (map path_name l).
Proof.
  intros F S. induction S as [|p l Hs IH Hd]; [constructor|].
  inversion F as [|? ? (a & ->) Fl]; subst.
  cbn [map]. constructor; [now apply IH|].
  destruct Hd as [|q l Hpq]; constructor.
  inversion Fl as [|? ? (b & ->) _]; subst.
  unfold path_ge in Hpq.
  change (path_ltb (child LOG_DIR a) (child LOG_DIR b) = false) in Hpq.
  rewrite child_ltb in Hpq. exact Hpq.
Qed.

(** *** The loop over the sorted paths *)

Lemma stat_entries (fs : FS) (names : list string) :
  (forall n, In n names -> fs (child LOG_DIR n) <> None) ->
  forall logs0,
  exists logs,
    for_each (map (child LOG_DIR) names) (append_entry fs) logs0
    = (map StatOf (map (child LOG_DIR) names), inl (logs0 ++ logs))
    /\ Forall2 (entry_of fs) names logs.
Proof.
  induction names as [|n names IH]; intros H logs0.
  - exists []. rewrite app_nil_r. split; [reflexivity|constructor].
  - cbn [map]. rewrite for_each_cons.
    destruct (fs (child LOG_DIR n)) as [node|] eqn:F;
      [|exfalso; apply (H n); [now left|exact F]].
    unfold append_entry at 1, stat. rewrite F. cbn [emit ret bind app].
    destruct (IH (fun m Hm => H m (or_intror Hm))
                 (logs0 ++ [log_entry (child LOG_DIR n) (node_stat node)]))
      as (logs & E & F2).
    rewrite E. exists (log_entry (child LOG_DIR n) (node_stat node) :: logs).
    split.
    + cbn. now rewrite <- app_assoc.
    + constructor; [|exact F2]. exists node. split; [exact F|reflexivity].
Qed.

(** C8: the listing holds exactly the entries of the log directory whose
    names match the archived naming convention (the prefix [ralph_], the
    extension [.jsonl]), sorted by name in descending code point order,
    each with its name, its byte size and its modification time; when the
    log directory is absent or empty the listing is the empty array and
    the handler returns without an exception. *)
Theorem archived_listing (fs : FS) :
  (fs LOG_DIR = None ->
   written (trace (list_logs fs)) = [json_dumps (JList [])]
   /\ outcome (list_logs fs) = inl tt)
  /\ (forall st : Stat,
        fs LOG_DIR = Some (Dir st []) ->
        written (trace (list_logs fs)) = [json_dumps (JList [])]
        /\ outcome (list_logs fs) = inl tt)
  /\ (forall (st : Stat) (entries : list string),
        fs LOG_DIR = Some (Dir st entries) ->
        (forall n : string,
            In n entries -> fnmatch archived_pattern n = true ->
            fs (child LOG_DIR n) <> None) ->
        exists (names : list string) (logs : list value),
          Permutation names (filter (fnmatch archived_pattern) entries)
          /\ StronglySorted name_ge names
          /\ Forall2 (entry_of fs) names logs
          /\ written (trace (list_logs fs)) = [json_dumps (JList logs)]
          /\ outcome (list_logs fs) = inl tt)
  /\ (forall n : string,
        fnmatch archived_pattern n = true <->
        exists middle : string, n = ("ralph_" ++ middle ++ ".jsonl")%string).
Proof.
  split; [|split; [|split]].
  - intros F. rewrite list_logs_no_dir by congruence. rewrite F.
    split; reflexivity.
  - intros st F. rewrite (list_logs_dir fs F). split; reflexivity.
  - intros st entries F H.
    set (matching := filter (fnmatch archived_pattern) entries).
    set (sorted := sorted_reverse (map (child LOG_DIR) matching)).
    assert (C : Forall (fun p => exists n, p = child LOG_DIR n) sorted).
    { apply Forall_forall. intros p Hp.
      apply (Permutation_in _ (sorted_reverse_perm _)) in Hp.
      apply in_map_iff in Hp. destruct Hp as (n & <- & _). eauto. }
    assert (P : Permutation (map path_name sorted) matching).
    { unfold sorted. rewrite (Permutation_map path_name (sorted_reverse_perm _)).
      rewrite map_map. erewrite map_ext; [rewrite map_id; reflexivity|].
      intros n. apply path_name_child. }
    assert (E : forall n, In n (map path_name sorted) ->
                          fs (child LOG_DIR n) <> None).
    { intros n Hn. apply (Permutation_in _ P) in Hn.
      apply filter_In in Hn. destruct Hn as (Hin & Hm). now apply H. }
    destruct (@stat_entries fs _ E []) as (logs & R & F2).
    rewrite (children_names C) in R.
    exists (map path_name sorted), logs.
    split; [exact P|].
    split; [apply Sorted_StronglySorted;
            [exact name_ge_trans
            |apply (children_sorted C), sorted_reverse_sorted]|].
    split; [exact F2|].
    rewrite (list_logs_dir fs F). cbv zeta. unfold listed_paths.
    fold matching. fold sorted. rewrite R.
    cbn [trace outcome fst snd]. split.
    + cbn. clear. induction sorted as [|p l IH]; [reflexivity|exact IH].
    + reflexivity.
  - exact archived_pattern_names.
Qed.

(** * Further properties of the handlers *)

(** ** What one poll sends *)

Lemma numbered_from_cons (i : Z) (line : string) (lines : list string) :
  numbered_from i (line :: lines) =
  match decode line with
  | Holds ev => (i, ev) :: numbered_from (i + 1) lines
  | _ => numbered_from (i + 1) lines
  end.
Proof.
  unfold numbered_from. cbn [enumerate_from flat_map fst snd].
  destruct (decode line); reflexivity.
Qed.

Lemma numbered_from_app (pre post : list string) :
  forall i,
    numbered_from i (pre ++ post)
    = numbered_from i pre ++ numbered_from (i + Z.of_nat (List.length pre)) post.
Proof.
  induction pre as [|l pre IH]; intros i.
  - cbn [app List.length]. now rewrite Z.add_0_r.
  - cbn [app]. rewrite !numbered_from_cons, IH.
    replace (i + 1 + Z.of_nat (List.length pre))
      with (i + Z.of_nat (List.length (l :: pre)))
      by (cbn [List.length]; lia).
    destruct (decode l); reflexivity.
Qed.

Lemma numbered_from_bounds (lines : list string) :
  forall i ir,
    In ir (numbered_from i lines) ->
    i <= fst ir < i + Z.of_nat (List.length lines).
Proof.
  induction lines as [|l lines IH]; intros i ir H; [contradiction|].
  rewrite numbered_from_cons in H. cbn [List.length].
  destruct (decode l).
  - destruct H as [<-|H]; [simpl; lia|]. apply IH in H. lia.
  - apply IH in H. lia.
  - apply IH in H. lia.
Qed.

Lemma filter_from_all (lines : list string) (i off : Z) :
  off <= i ->
  filter (from_offset off) (numbered_from i lines) = numbered_from i lines.
Proof.
  intros H. apply forallb_filter_id. apply forallb_forall. intros ir Hin.
  apply numbered_from_bounds in Hin. unfold from_offset.
  apply Z.geb_le. lia.
Qed.


(** One turn of the loop over the lines, when the loop returns: the line
    is sent, or it is below the offset or skipped. *)
Lemma send_cons_returns (l : string) (lines : list string) (i off : Z)
  (t : list Action) (o : Z) :
  for_each (enumerate_from i (l :: lines)) send_line off = (t, inl o) ->
  (off <= i
   /\ exists ev t1,
        decode l = Holds ev
        /\ t = Write (sse_data (indexed i ev)) :: Flush :: t1
        /\ for_each (enumerate_from (i + 1) lines) send_line (i + 1) = (t1, inl o))
  \/ ((i < off \/ decode l = Skipped)
      /\ for_each (enumerate_from (i + 1) lines) send_line off = (t, inl o)).
Proof.
  cbn [enumerate_from for_each]. rewrite send_line_decode. intros E.
  assert (Rest : forall (tr : list Action) (o' : Z),
             bind (tr, inl o')
                  (fun s' => for_each (enumerate_from (i + 1) lines) send_line s')
             = (t, inl o) ->
             exists t1,
               for_each (enumerate_from (i + 1) lines) send_line o' = (t1, inl o)
               /\ t = tr ++ t1).
  { intros tr o' B. rewrite bind_value in B. unfold trace, outcome in B.
    destruct (for_each (enumerate_from (i + 1) lines) send_line o') as [t1 r1].
    cbn [fst snd] in B. inversion B; subst. now exists t1. }
  destruct (i >=? off) eqn:G; [destruct (decode l) as [ev| |e] eqn:D|].
  - destruct (fits ev); [|discriminate E].
    left. apply Z.geb_le in G. split; [exact G|].
    destruct (Rest _ _ E) as (t1 & E1 & ->). exists ev, t1. auto.
  - right. destruct (Rest _ _ E) as (t1 & E1 & ->). auto.
  - discriminate E.
  - right. rewrite Z.geb_leb in G. apply Z.leb_gt in G.
    destruct (Rest _ _ E) as (t1 & E1 & ->). split; [left; lia|exact E1].
Qed.

Lemma numbered_below (l : string) (lines : list string) (i off : Z) :
  i < off \/ decode l = Skipped ->
  filter (from_offset off) (numbered_from i (l :: lines))
  = filter (from_offset off) (numbered_from (i + 1) lines).
Proof.
  intros H. rewrite numbered_from_cons.
  destruct (decode l) as [ev| |e] eqn:D; try reflexivity.
  destruct H as [H|H]; [|discriminate].
  cbn [filter]. unfold from_offset at 1. cbn [fst].
  rewrite Z.geb_leb. replace (off <=? i)%Z with false; [reflexivity|].
  symmetry. apply Z.leb_gt. exact H.
Qed.

Lemma send_from_events (lines : list string) :
  forall i off t o,
    for_each (enumerate_from i lines) send_line off = (t, inl o) ->
    events_sent t
    = map as_event (filter (from_offset off) (numbered_from i lines)).
Proof.
  induction lines as [|l lines IH]; intros i off t o E.
  - inversion E; subst. reflexivity.
  - destruct (send_cons_returns _ _ _ _ E)
      as [(G & ev & t1 & D & -> & E1)|(B & E1)].
    + rewrite numbered_from_cons, D. cbn [filter]. unfold from_offset at 1.
      cbn [fst]. replace (i >=? off) with true by (symmetry; apply Z.geb_le; lia).
      cbn [app events_sent map]. rewrite (IH _ _ _ _ E1).
      rewrite !filter_from_all by lia. reflexivity.
    + rewrite (numbered_below l lines B). exact (IH _ _ _ _ E1).
Qed.

Lemma poll_events (fs : FS) (c : Cursor) (st : Stat) (text : string) :
  fs CURRENT_LOG = Some (File st text) ->
  st_size st <> last_size c ->
  quiet_from (offset c) (readlines text) ->
  events_sent (trace (poll fs c))
  = map as_event
        (filter (from_offset (offset c)) (numbered_records (readlines text))).
Proof.
  intros F S Q.
  destruct (@send_from_returns (readlines text) 0 (offset c)) as (t & o & E).
  { intros j line Hn Hj. apply (Q j line Hn). lia. }
  rewrite (poll_read fs c F S E). cbn [trace fst events_sent].
  exact (send_from_events _ _ _ E).
Qed.

(** The snapshot of lines none of which ends the loop: their records. *)
Lemma read_all_numbered (lines : list string) :
  quiet lines ->
  forall i, read_all lines = ret (map snd (numbered_from i lines)).
Proof.
  induction 1 as [|l lines Hl Q IH]; intros i; [reflexivity|].
  rewrite numbered_from_cons, read_all_cons, (IH (i + 1)).
  unfold aborts in Hl.
  destruct (decode l); [reflexivity|reflexivity|discriminate].
Qed.

Lemma filter_split (off : Z) (l : list (Z * value)) :
  Sorted (fun a b => fst a < fst b) l ->
  l = filter (before_offset off) l ++ filter (from_offset off) l.
Proof.
  intros S. apply Sorted_StronglySorted in S;
    [|intros a b c' H1 H2; lia].
  induction S as [|ir l S IH H]; [reflexivity|].
  cbn [filter]. unfold before_offset at 1, from_offset at 1.
  destruct (fst ir <? off)%Z eqn:B.
  - rewrite Z.geb_leb. apply Z.ltb_lt in B.
    replace (off <=? fst ir)%Z with false by (symmetry; apply Z.leb_gt; lia).
    cbn [app]. now rewrite <- IH.
  - apply Z.ltb_ge in B. rewrite Z.geb_leb.
    replace (off <=? fst ir)%Z with true by (symmetry; apply Z.leb_le; lia).
    assert (N : filter (before_offset off) l = []).
    { clear IH S. induction l as [|x l IHl]; [reflexivity|].
      inversion H as [|? ? Hx Hl]; subst. cbn [filter].
      unfold before_offset at 1.
      replace (fst x <? off)%Z with false by (symmetry; apply Z.ltb_ge; lia).
      now apply IHl. }
    assert (A : filter (from_offset off) l = l).
    { clear IH S N. induction l as [|x l IHl]; [reflexivity|].
      inversion H as [|? ? Hx Hl]; subst. cbn [filter].
      unfold from_offset at 1. rewrite Z.geb_leb.
      replace (off <=? fst x)%Z with true by (symmetry; apply Z.leb_le; lia).
      now rewrite IHl. }
    rewrite N, A. reflexivity.
Qed.

Lemma numbered_from_sorted (lines : list string) :
  forall i, Sorted (fun a b => fst a < fst b) (numbered_from i lines).
Proof.
  induction lines as [|l lines IH]; intros i; [constructor|].
  rewrite numbered_from_cons. destruct (decode l) as [ev| |e]; [|apply IH|apply IH].
  constructor; [apply IH|].
  pose proof (@numbered_from_bounds lines (i + 1)) as B.
  destruct (numbered_from (i + 1) lines) as [|x r]; constructor.
  specialize (B x (or_introl eq_refl)). simpl. lia.
Qed.


Lemma numbered_from_In (lines : list string) :
  forall i j ev,
    In (j, ev) (numbered_from i lines) ->
    exists (n : nat) (line : string),
      nth_error lines n = Some line /\ decode line = Holds ev
      /\ j = i + Z.of_nat n.
Proof.
  induction lines as [|l lines IH]; intros i j ev H; [contradiction|].
  rewrite numbered_from_cons in H.
  assert (R : In (j, ev) (numbered_from (i + 1) lines) ->
              exists (n : nat) (line : string),
                nth_error (l :: lines) n = Some line /\ decode line = Holds ev
                /\ j = i + Z.of_nat n).
  { intros H'. destruct (IH _ _ _ H') as (n & line & Hn & Hd & ->).
    exists (S n), line. repeat split; trivial. lia. }
  destruct (decode l) as [e| |e] eqn:D; [|auto|auto].
  destruct H as [H|H]; [|auto].
  inversion H; subst. exists 0%nat, l. repeat split; trivial. simpl; lia.
Qed.

Lemma last_cons_default {A} (a d : A) (l : list A) :
  List.last (a :: l) d = List.last l a.
Proof.
  revert a d. induction l as [|b l IH]; intros a d; [reflexivity|].
  change (List.last (a :: b :: l) d) with (List.last (b :: l) d).
  now rewrite (IH b d), (IH b a).
Qed.


Lemma send_from_offset (lines : list string) :
  forall i off t o,
    for_each (enumerate_from i lines) send_line off = (t, inl o) ->
    o = List.last (map (fun ir => fst ir + 1)
                       (filter (from_offset off) (numbered_from i lines)))
                  off.
Proof.
  induction lines as [|l lines IH]; intros i off t o E.
  - inversion E; subst. reflexivity.
  - destruct (send_cons_returns _ _ _ _ E)
      as [(G & ev & t1 & D & -> & E1)|(B & E1)].
    + rewrite numbered_from_cons, D. cbn [filter]. unfold from_offset at 1.
      cbn [fst]. replace (i >=? off) with true by (symmetry; apply Z.geb_le; lia).
      cbn [map fst]. rewrite last_cons_default, (IH _ _ _ _ E1).
      rewrite !filter_from_all by lia. reflexivity.
    + rewrite (numbered_below l lines B). exact (IH _ _ _ _ E1).
Qed.

(** The records of such lines are encoded. *)
Lemma quiet_records_fit (lines : list string) :
  quiet lines ->
  forall i, Forall (fun event => fits event = true)
                   (map snd (numbered_from i lines)).
Proof.
  induction 1 as [|l lines Hl Q IH]; intros i; [constructor|].
  rewrite numbered_from_cons.
  destruct (aborts_false l Hl) as [(ev & -> & Fit)| ->]; [|apply IH].
  cbn [map snd]. constructor; [exact Fit|apply IH].
Qed.

(** The body of the snapshot of such lines: their records. *)
Lemma snapshot_quiet (lines : list string) :
  quiet lines ->
  body_of (outcome (read_all lines))
  = [Write (json_dumps (JList (map snd (numbered_records lines))))]
  /\ end_of (outcome (read_all lines)) = inl tt.
Proof.
  intros Q. unfold numbered_records. rewrite (read_all_numbered Q 0).
  cbn [outcome snd ret body_of end_of].
  rewrite (encodable_list (quiet_records_fit Q 0)). split; reflexivity.
Qed.

(** X1: a poll that reads the file (the size differs from the recorded
    one), when none of the lines numbered the offset or more ends the
    handler (neither [json.loads] nor [json.dumps] raises on it an
    exception that the handler does not catch), sends, in file order, one
    event for every line that holds a record and is numbered the offset or
    more, with the number of the line as index, and nothing else; it
    returns, with the size recorded and the offset one past the number of
    the last line sent, or unchanged when it sent nothing. *)
Theorem poll_sends_from_offset
  (fs : FS) (c : Cursor) (st : Stat) (text : string) :
  fs CURRENT_LOG = Some (File st text) ->
  st_size st <> last_size c ->
  quiet_from (offset c) (readlines text) ->
  let sent := filter (from_offset (offset c))
                     (numbered_records (readlines text)) in
  events_sent (trace (poll fs c)) = map as_event sent
  /\ outcome (poll fs c)
     = inl {| offset := List.last (map (fun ir => fst ir + 1) sent) (offset c);
              last_size := st_size st |}.
Proof.
  intros F S Q sent.
  destruct (@send_from_returns (readlines text) 0 (offset c)) as (t & o & E).
  { intros j line Hn Hj. apply (Q j line Hn). lia. }
  rewrite (poll_read fs c F S E). cbn [trace outcome fst snd events_sent].
  split.
  - exact (send_from_events _ _ _ E).
  - rewrite (send_from_offset _ _ _ E). reflexivity.
Qed.

(** X2: resuming.  On a file of text none of whose lines ends a handler
    that decodes it, the events that a poll sends to a subscriber at
    offset 0 are those numbered less than [k] followed by exactly the
    events that the same poll sends to a subscriber at offset [k]: a
    client that reconnects with the offset [k] misses nothing numbered [k]
    or more and receives nothing twice.  An offset that is negative or
    zero gives every record of the file. *)
Theorem poll_resume
  (fs : FS) (st : Stat) (text : string) (size k : Z) :
  fs CURRENT_LOG = Some (File st text) ->
  st_size st <> size ->
  quiet (readlines text) ->
  events_sent (trace (poll fs {| offset := 0; last_size := size |}))
  = map as_event (filter (before_offset k) (numbered_records (readlines text)))
    ++ events_sent (trace (poll fs {| offset := k; last_size := size |}))
  /\ (k <= 0 ->
      events_sent (trace (poll fs {| offset := k; last_size := size |}))
      = map as_event (numbered_records (readlines text))).
Proof.
  intros F S Q.
  rewrite (@poll_events fs {| offset := 0; last_size := size |} st text F S)
    by (now apply quiet_quiet_from).
  rewrite (@poll_events fs {| offset := k; last_size := size |} st text F S)
    by (now apply quiet_quiet_from).
  cbn [offset]. unfold numbered_records. split.
  - rewrite (filter_from_all (readlines text) (i := 0) (off := 0)) by lia.
    rewrite <- map_app. f_equal.
    apply filter_split, numbered_from_sorted.
  - intros K. now rewrite filter_from_all by lia.
Qed.

(** ** The snapshot and the stream of one file *)

(** X3: for every current log that is a file of text none of whose lines
    ends a handler that decodes it, the events that a subscriber at offset
    0 (or at a negative offset) receives from the poll that reads the file
    carry, in the same order, exactly the records of the body of the
    snapshot [/api/log] of that file, each with the number of its line;
    both handlers return. *)
Theorem snapshot_stream_agree
  (fs : FS) (c : Cursor) (st : Stat) (text : string) :
  fs CURRENT_LOG = Some (File st text) ->
  st_size st <> last_size c ->
  offset c <= 0 ->
  quiet (readlines text) ->
  let records := numbered_records (readlines text) in
  events_sent (trace (poll fs c)) = map as_event records
  /\ written (trace (serve_log fs)) = [json_dumps (JList (map snd records))]
  /\ outcome (serve_log fs) = inl tt
  /\ exists c' : Cursor, outcome (poll fs c) = inl c'.
Proof.
  intros F S O Q records. split; [|split; [|split]].
  - rewrite (poll_events fs c F S) by (now apply quiet_quiet_from).
    unfold records, numbered_records.
    now rewrite filter_from_all by lia.
  - rewrite (serve_log_file fs F), (proj1 (snapshot_quiet Q)). reflexivity.
  - rewrite (serve_log_file fs F), (proj2 (snapshot_quiet Q)). reflexivity.
  - apply (@poll_returns_from fs c st text F). now apply quiet_quiet_from.
Qed.

(** ** A session over a log that only grows *)

Lemma filter_nil_all {A} (f : A -> bool) (l : list A) :
  (forall x, In x l -> f x = false) -> filter f l = [].
Proof.
  induction l as [|a l IH]; intros H; [reflexivity|].
  cbn [filter]. rewrite (H a (or_introl eq_refl)).
  apply IH. intros x Hx. apply H. now right.
Qed.

Lemma turn_trace (c : Cursor) (fs : FS) :
  trace (turn c fs)
  = trace (poll fs c)
    ++ match outcome (poll fs c) with
       | inl _ => [Write sse_keepalive; Flush; Sleep]
       | inr _ => []
       end.
Proof.
  unfold turn. destruct (poll fs c) as [t [c'|e]]; cbn.
  - reflexivity.
  - now rewrite app_nil_r.
Qed.

Lemma turn_events (c : Cursor) (fs : FS) :
  events_sent (trace (turn c fs)) = events_sent (trace (poll fs c)).
Proof.
  rewrite turn_trace, events_sent_app.
  destruct (outcome (poll fs c)); cbn; now rewrite app_nil_r.
Qed.


Lemma quiet_app (pre post : list string) :
  quiet (pre ++ post) -> quiet pre /\ quiet post.
Proof. unfold quiet. apply Forall_app. Qed.

(** The lines seen so far are the first lines of the final file. *)
Lemma grows_final (turns : list FS) :
  forall (lines : list string) (size : Z) (final : list string),
    grows lines size turns final -> exists rest, final = lines ++ rest.
Proof.
  induction turns as [|fs turns IH]; intros lines size final G.
  - cbn in G. subst. exists []. now rewrite app_nil_r.
  - cbn [grows] in G. destruct G as (st & text & more & _ & _ & _ & G).
    destruct (IH _ _ _ G) as (rest & ->). exists (more ++ rest).
    now rewrite app_assoc.
Qed.

(** The poll of a log that has grown, from a cursor that is level with the
    lines seen so far. *)
Lemma poll_grown (fs : FS) (c : Cursor) (st : Stat) (text : string)
  (lines more : list string) :
  fs CURRENT_LOG = Some (File st text) ->
  readlines text = lines ++ more ->
  (st_size st = last_size c -> more = []) ->
  quiet (lines ++ more) ->
  offset c <= Z.of_nat (List.length lines) ->
  filter (from_offset (offset c)) (numbered_records lines) = [] ->
  exists c' : Cursor,
    outcome (poll fs c) = inl c'
    /\ events_sent (trace (poll fs c))
       = map as_event (numbered_from (Z.of_nat (List.length lines)) more)
    /\ last_size c' = st_size st
    /\ offset c' <= Z.of_nat (List.length (lines ++ more))
    /\ filter (from_offset (offset c')) (numbered_records (lines ++ more)) = [].
Proof.
  intros F L Same Q Off Level.
  assert (Split : forall o,
             filter (from_offset o) (numbered_records (lines ++ more))
             = filter (from_offset o) (numbered_records lines)
               ++ filter (from_offset o)
                         (numbered_from (Z.of_nat (List.length lines)) more)).
  { intros o. unfold numbered_records. rewrite numbered_from_app, filter_app.
    reflexivity. }
  destruct (Z.eq_dec (st_size st) (last_size c)) as [S|S].
  - specialize (Same S). subst more. exists c.
    rewrite (@poll_same_size fs c _ F S). cbn [outcome trace fst snd events_sent].
    rewrite app_nil_r. repeat split; auto.
  - destruct (@send_from_returns (readlines text) 0 (offset c)) as (t & o & E).
    { rewrite L. intros j line Hn _. unfold quiet in Q.
      rewrite Forall_forall in Q. apply Q. eapply nth_error_In; eauto. }
    exists {| offset := o; last_size := st_size st |}.
    rewrite (poll_read fs c F S E). cbn [outcome trace fst snd events_sent offset last_size].
    destruct (send_from_spec _ _ _ E) as (Hle & Hlast & Hall & _).
    split; [reflexivity|]. split; [|split; [reflexivity|split]].
    + rewrite (send_from_events _ _ _ E), L.
      fold (numbered_records (lines ++ more)). rewrite Split, Level.
      cbn [app]. now rewrite filter_from_all by lia.
    + destruct Hlast as [->|(_ & _ & line & ev & Hn & _)].
      * rewrite length_app. lia.
      * assert (Z.to_nat (o - 1 - 0) < List.length (readlines text))%nat
          by (apply nth_error_Some; congruence).
        rewrite <- L. lia.
    + apply filter_nil_all. intros [j ev] Hin. unfold from_offset. cbn [fst].
      rewrite Z.geb_leb. apply Z.leb_gt.
      unfold numbered_records in Hin. rewrite <- L in Hin.
      destruct (numbered_from_In _ _ _ _ Hin) as (n & line & Hn & Hd & ->).
      destruct (Z_lt_ge_dec (0 + Z.of_nat n) (offset c)) as [A|A]; [lia|].
      destruct (Hall n line ev Hn Hd) as (_ & Hlt); lia.
Qed.

Lemma session_grown (turns : list FS) :
  forall (lines : list string) (size : Z) (final : list string) (c : Cursor),
    grows lines size turns final ->
    quiet final ->
    last_size c = size ->
    offset c <= Z.of_nat (List.length lines) ->
    filter (from_offset (offset c)) (numbered_records lines) = [] ->
    (exists c' : Cursor, outcome (for_each turns turn c) = inl c')
    /\ map as_event (numbered_records lines)
       ++ events_sent (trace (for_each turns turn c))
       = map as_event (numbered_records final).
Proof.
  induction turns as [|fs turns IH]; intros lines size final c G Q Sz Off Level.
  - cbn in G. subst final. split; [eexists; reflexivity|].
    cbn. now rewrite app_nil_r.
  - cbn [grows] in G. destruct G as (st & text & more & F & L & Same & G).
    subst size.
    assert (Q' : quiet (lines ++ more)).
    { destruct (@grows_final turns _ _ _ G) as (rest & ->).
      exact (proj1 (@quiet_app _ _ Q)). }
    destruct (@poll_grown fs c _ _ _ _ F L Same Q' Off Level)
      as (c' & Out & Ev & Sz' & Off' & Level').
    destruct (IH _ _ _ c' G Q Sz' Off' Level') as ((c'' & Out') & Ev').
    rewrite for_each_cons, outcome_bind, trace_bind, turn_outcome, Out,
      events_sent_app, turn_events, Ev.
    split; [eexists; exact Out'|].
    rewrite <- Ev'. unfold numbered_records at 2.
    rewrite numbered_from_app, map_app, <- app_assoc. reflexivity.
Qed.

(** X4: completeness and exactly-once delivery.  Over a log that only
    grows (every snapshot is a file of text that keeps the lines seen
    before and shows another size when it has more) and none of whose
    lines ends a handler that decodes it, a session that starts at offset
    0 never raises, and the events it has
    sent after its last turn are, in file order and each exactly once, the
    records of the lines of the final file with their line numbers; their
    payloads are the records of the snapshot of the final file. *)
Theorem session_complete (turns : list FS) (final : list string) :
  grows [] 0 turns final ->
  quiet final ->
  (exists c' : Cursor,
      outcome (for_each turns turn {| offset := 0; last_size := 0 |}) = inl c')
  /\ events_sent (trace (for_each turns turn {| offset := 0; last_size := 0 |}))
     = map as_event (numbered_records final)
  /\ read_all final = ret (map snd (numbered_records final)).
Proof.
  intros G Q.
  destruct (@session_grown turns [] 0 final {| offset := 0; last_size := 0 |} G Q)
    as (Out & Ev); [reflexivity|simpl; lia|reflexivity|].
  split; [exact Out|]. split; [exact Ev|].
  exact (read_all_numbered Q 0).
Qed.

(** ** Frames, flushes and keepalives *)

Lemma flushed_app_bounded (n : nat) :
  forall t, (List.length t <= n)%nat -> flushed t = true ->
            forall u, flushed (t ++ u) = flushed u.
Proof.
  induction n as [|n IH]; intros t L H u.
  - destruct t; [reflexivity|simpl in L; lia].
  - destruct t as [|a r]; [reflexivity|].
    cbn [List.length] in L.
    destruct a; cbn [flushed app] in *; try (apply IH; [lia|exact H]).
    destruct r as [|b r']; [discriminate|].
    destruct b; try discriminate.
    cbn [app]. apply IH; [cbn [List.length] in L; lia|exact H].
Qed.

Lemma flushed_app (t u : list Action) :
  flushed t = true -> flushed (t ++ u) = flushed u.
Proof. intros H. exact (@flushed_app_bounded (List.length t) t (le_n _) H u). Qed.

Lemma written_app (t u : list Action) :
  written (t ++ u) = written t ++ written u.
Proof.
  induction t as [|a t IH]; simpl; [reflexivity|].
  destruct a; simpl; try assumption. now rewrite IH.
Qed.

Lemma opened_app (t u : list Action) :
  opened (t ++ u) = opened t ++ opened u.
Proof.
  induction t as [|a t IH]; simpl; [reflexivity|].
  destruct a; simpl; try assumption. now rewrite IH.
Qed.

Lemma statuses_app (t u : list Action) :
  statuses (t ++ u) = statuses t ++ statuses u.
Proof.
  induction t as [|a t IH]; simpl; [reflexivity|].
  destruct a; simpl; try assumption; now rewrite IH.
Qed.


(** The trace of the loop over the lines, whether it returns or raises:
    frames, each flushed, and nothing else. *)
Lemma send_from_trace (lines : list string) :
  forall i off,
    let t := trace (for_each (enumerate_from i lines) send_line off) in
    flushed t = true
    /\ written t = map sse_data (events_sent t)
    /\ opened t = [] /\ statuses t = [] /\ accessed t = []
    /\ response_headers t = [].
Proof.
  induction lines as [|l lines IH]; intros i off; cbv zeta;
    cbn [enumerate_from for_each].
  - repeat split; reflexivity.
  - rewrite send_line_decode.
    destruct (i >=? off);
      [destruct (decode l) as [ev| |e]; [destruct (fits ev)| |]|];
      try (rewrite bind_value; cbn [trace fst];
           match goal with
           | |- context [for_each (enumerate_from ?j lines) send_line ?o'] =>
               destruct (IH j o') as (H1 & H2 & H3 & H4 & H5 & H6)
           end; cbn; rewrite ?H2; auto 10).
    all: cbn; auto 10.
Qed.

Lemma poll_trace_shape (fs : FS) (c : Cursor) :
  flushed (trace (poll fs c)) = true
  /\ written (trace (poll fs c)) = map sse_data (events_sent (trace (poll fs c)))
  /\ statuses (trace (poll fs c)) = []
  /\ response_headers (trace (poll fs c)) = []
  /\ (List.length (opened (trace (poll fs c))) <= 1)%nat
  /\ Forall (fun p => p = CURRENT_LOG) (accessed (trace (poll fs c))).
Proof.
  destruct (poll_cases fs c)
    as [(t & P & [->| ->] & _)|[(st & text & F & S)|(e & P)]];
    try (rewrite P; cbn; repeat split; auto).
  rewrite (poll_open fs c F S).
  destruct (@send_from_trace (readlines text) 0 (offset c))
    as (H1 & H2 & H3 & H4 & H5 & H6).
  unfold send_new_lines, enumerate.
  cbn. rewrite H3, H5. repeat split; auto.
Qed.

Lemma turns_flushed (turns : list FS) :
  forall c, flushed (trace (for_each turns turn c)) = true.
Proof.
  induction turns as [|fs turns IH]; intros c; [reflexivity|].
  rewrite for_each_cons, trace_bind, turn_outcome, turn_trace.
  destruct (poll_trace_shape fs c) as (Fl & _).
  destruct (outcome (poll fs c)) as [c'|e].
  - rewrite <- app_assoc, (@flushed_app _ _ Fl). cbn [app flushed]. apply IH.
  - rewrite !app_nil_r. exact Fl.
Qed.

Lemma parse_offset_trace (ps : list (string * list string)) :
  trace (parse_offset ps) = [].
Proof.
  unfold parse_offset.
  destruct (dict_get ps "offset") as [[|v vs]|]; try reflexivity.
  destruct (int_of_str v); reflexivity.
Qed.

Lemma stream_log_trace (req : Request) (turns : list FS) :
  trace (stream_log req turns)
  = stream_headers
    ++ match outcome (parse_offset (params req)) with
       | inl z => trace (for_each turns turn {| offset := z; last_size := 0 |})
       | inr _ => []
       end.
Proof.
  rewrite stream_log_unfold. cbv zeta. cbn [trace fst].
  now rewrite trace_bind, parse_offset_trace.
Qed.

(** X5: in a stream, every frame written to the subscriber (event or
    keepalive) is followed at once by a flush, for every request and every
    course of the file system, also when the handler ends with an
    exception. *)
Theorem stream_frames_flushed (req : Request) (turns : list FS) :
  flushed (trace (stream_log req turns)) = true.
Proof.
  rewrite stream_log_trace.
  change (stream_headers ++ ?r) with
    (SendResponse 200
     :: SendHeader "Content-Type" "text/event-stream"
     :: SendHeader "Access-Control-Allow-Origin" "*"
     :: SendHeader "Cache-Control" "no-cache"
     :: SendHeader "Connection" "keep-alive"
     :: EndHeaders :: r).
  cbn [flushed].
  destruct (outcome (parse_offset (params req))); [apply turns_flushed|reflexivity].
Qed.


Lemma turns_keepalives (turns : list FS) :
  Forall calm turns ->
  forall c,
    List.length (filter is_keepalive (written (trace (for_each turns turn c))))
    = List.length turns.
Proof.
  induction 1 as [|fs turns R _ IH]; intros c; [reflexivity|].
  rewrite for_each_cons, trace_bind, turn_outcome, turn_trace.
  destruct (poll_returns fs c R) as (c' & Out). rewrite Out.
  destruct (poll_trace_shape fs c) as (_ & W & _).
  rewrite !written_app, W, !filter_app, !length_app, IH.
  assert (N : filter is_keepalive (map sse_data (events_sent (trace (poll fs c)))) = []).
  { apply filter_nil_all. intros x Hx. apply in_map_iff in Hx.
    destruct Hx as (v & <- & _). reflexivity. }
  rewrite N. cbn. lia.
Qed.

(** X6: a turn of the stream over a log that is absent, or a file of text
    none of whose lines ends a handler that decodes it, writes the events
    of its poll and then exactly one keepalive, so a session of [n] such
    turns has sent exactly [n] keepalives, whether or not the log ever
    changed. *)
Theorem one_keepalive_per_turn (turns : list FS) (c : Cursor) :
  Forall calm turns ->
  List.length (filter is_keepalive (written (trace (for_each turns turn c))))
  = List.length turns
  /\ (forall (fs : FS) (c' : Cursor),
        In fs turns ->
        written (trace (turn c' fs))
        = map sse_data (events_sent (trace (poll fs c'))) ++ [sse_keepalive]).
Proof.
  intros R. split; [now apply turns_keepalives|].
  intros fs c' Hin. rewrite Forall_forall in R.
  destruct (poll_returns fs c' (R fs Hin)) as (c1 & Out).
  destruct (poll_trace_shape fs c') as (_ & W & _).
  rewrite turn_trace, Out, written_app, W. reflexivity.
Qed.

(** ** A log that does not change *)

Lemma unchanged_turns (fs : FS) (c : Cursor) (n : nat) :
  unchanged fs c ->
  outcome (for_each (repeat fs n) turn c) = inl c
  /\ events_sent (trace (for_each (repeat fs n) turn c)) = []
  /\ opened (trace (for_each (repeat fs n) turn c)) = [].
Proof.
  intros U. induction n as [|n (IH1 & IH2 & IH3)]; [repeat split|].
  cbn [repeat]. destruct (poll_unchanged fs c U) as (Ev & Out).
  assert (Op : opened (trace (poll fs c)) = []).
  { unfold unchanged in U. destruct (fs CURRENT_LOG) as [nd|] eqn:F.
    - now rewrite (poll_same_size fs c F U).
    - now rewrite (poll_absent fs c F). }
  rewrite for_each_cons, outcome_bind, trace_bind, turn_outcome, Out.
  rewrite events_sent_app, opened_app, turn_events, Ev, IH2, IH3.
  rewrite turn_trace, Out, opened_app, Op. repeat split; auto.
Qed.


(** X7: while the current log stays as it is (absent, or the same regular
    file), a session opens it at most once however many turns pass, and
    all the events it sends are those of its first poll. *)
Theorem unchanging_log_read_once (fs : FS) (c : Cursor) (n : nat) :
  regular fs ->
  (List.length (opened (trace (for_each (repeat fs n) turn c))) <= 1)%nat
  /\ events_sent (trace (for_each (repeat fs (S n)) turn c))
     = events_sent (trace (poll fs c)).
Proof.
  intros _.
  destruct (poll_trace_shape fs c) as (_ & _ & _ & _ & Op & _).
  assert (First : forall m,
             opened (trace (for_each (repeat fs (S m)) turn c))
             = opened (trace (poll fs c))
             /\ events_sent (trace (for_each (repeat fs (S m)) turn c))
                = events_sent (trace (poll fs c))).
  { intros m. cbn [repeat].
    rewrite for_each_cons, trace_bind, turn_outcome.
    rewrite opened_app, events_sent_app, turn_events.
    rewrite turn_trace, opened_app.
    destruct (outcome (poll fs c)) as [c1|e] eqn:Out.
    - pose proof (poll_leaves_unchanged fs c Out) as U.
      destruct (unchanged_turns fs c1 m U) as (_ & Ev & Opn).
      rewrite Ev, Opn. cbn [opened]. now rewrite !app_nil_r.
    - cbn [opened events_sent]. now rewrite !app_nil_r. }
  split.
  - destruct n as [|m]; [cbn; lia|]. now rewrite (proj1 (First m)).
  - apply First.
Qed.

(** ** The listing, case by case *)

Lemma statuses_stats (l : list Path) : statuses (map StatOf l) = [].
Proof. induction l; simpl; auto. Qed.

Lemma written_stats (l : list Path) : written (map StatOf l) = [].
Proof. induction l; simpl; auto. Qed.

Lemma opened_stats (l : list Path) : opened (map StatOf l) = [].
Proof. induction l; simpl; auto. Qed.

Lemma accessed_stats (l : list Path) : accessed (map StatOf l) = l.
Proof. induction l; simpl; congruence. Qed.



Lemma in_firstn {A} (k : nat) (l : list A) (x : A) :
  In x (firstn k l) -> In x l.
Proof.
  intros H. rewrite <- (firstn_skipn k l). apply in_or_app. now left.
Qed.

Lemma listed_paths_children (entries : list string) :
  Forall (fun p => exists n, p = child LOG_DIR n
                             /\ In n entries
                             /\ fnmatch archived_pattern n = true)
         (listed_paths entries).
Proof.
  apply Forall_forall. intros p Hp. unfold listed_paths in Hp.
  apply (Permutation_in _ (sorted_reverse_perm _)) in Hp.
  apply in_map_iff in Hp. destruct Hp as (n & <- & Hn).
  apply filter_In in Hn. destruct Hn. eauto.
Qed.

Lemma archived_name_inside (n : string) :
  fnmatch archived_pattern n = true ->
  inside_log_dir (child LOG_DIR n) = true.
Proof.
  intros H. apply archived_pattern_names in H. destruct H as (m & ->).
  reflexivity.
Qed.

(** X9: the listing never opens a file and never leaves the log
    directory: whatever the file system holds, every path it hands to the
    file system is the log directory itself or an entry of it whose name
    matches the pattern of the archived logs. *)
Theorem listing_stays_in_log_dir (fs : FS) :
  opened (trace (list_logs fs)) = []
  /\ Forall (fun p => inside_log_dir p = true) (accessed (trace (list_logs fs)))
  /\ Forall (fun p => p = LOG_DIR \/
                      exists n, p = child LOG_DIR n
                                /\ fnmatch archived_pattern n = true)
            (accessed (trace (list_logs fs))).
Proof.
  destruct (fs LOG_DIR) as [[st text|st before|st entries]|] eqn:F.
  - rewrite list_logs_no_dir by congruence. rewrite F. cbn.
    repeat split; repeat constructor; auto.
  - rewrite list_logs_no_dir by congruence. rewrite F. cbn.
    repeat split; repeat constructor; auto.
  - rewrite (list_logs_dir fs F). cbv zeta. cbn [trace fst].
    destruct (stat_loop_shape fs (listed_paths entries) []) as (k & T & _).
    rewrite T. cbn [listing_headers app opened accessed].
    rewrite opened_app, accessed_app, opened_stats, accessed_stats.
    assert (C : Forall (fun p => exists n, p = child LOG_DIR n
                                           /\ fnmatch archived_pattern n = true)
                       (firstn k (listed_paths entries))).
    { apply Forall_forall. intros p Hp. apply in_firstn in Hp.
      pose proof (listed_paths_children entries) as A.
      rewrite Forall_forall in A. destruct (A p Hp) as (n & -> & _ & M). eauto. }
    destruct (outcome (for_each (listed_paths entries) (append_entry fs) []));
      cbn [opened accessed app]; repeat rewrite app_nil_r.
    + split; [reflexivity|]. split.
      * repeat constructor. apply Forall_forall. intros p Hp.
        rewrite Forall_forall in C. destruct (C p Hp) as (n & -> & M).
        now apply archived_name_inside.
      * repeat constructor; auto. apply Forall_forall. intros p Hp.
        rewrite Forall_forall in C. right. exact (C p Hp).
    + split; [reflexivity|]. split.
      * repeat constructor. apply Forall_forall. intros p Hp.
        rewrite Forall_forall in C. destruct (C p Hp) as (n & -> & M).
        now apply archived_name_inside.
      * repeat constructor; auto. apply Forall_forall. intros p Hp.
        rewrite Forall_forall in C. right. exact (C p Hp).
  - rewrite list_logs_no_dir by congruence. rewrite F. cbn.
    repeat split; repeat constructor; auto.
Qed.

(** X10: when an entry of the log directory that matches the pattern can
    no longer be stat'ed (it vanished after the directory was listed), the
    listing ends with [FileNotFoundError]; the status 200 and the headers
    have been sent by then and no body is written. *)
Theorem listing_vanished_entry
  (fs : FS) (st : Stat) (entries : list string) (n : string) :
  fs LOG_DIR = Some (Dir st entries) ->
  In n entries ->
  fnmatch archived_pattern n = true ->
  fs (child LOG_DIR n) = None ->
  outcome (list_logs fs) = inr FileNotFoundError
  /\ written (trace (list_logs fs)) = []
  /\ statuses (trace (list_logs fs)) = [200].
Proof.
  intros F Hin M Gone.
  assert (Miss : exists p, In p (listed_paths entries) /\ fs p = None).
  { exists (child LOG_DIR n). split; [|exact Gone].
    unfold listed_paths.
    apply (Permutation_in _ (Permutation_sym (sorted_reverse_perm _))).
    apply in_map. apply filter_In. auto. }
  rewrite (list_logs_dir fs F). cbv zeta. cbn [trace outcome fst snd].
  destruct (stat_loop_shape fs (listed_paths entries) []) as (k & T & _).
  rewrite (@stat_loop_missing fs _ Miss []), T.
  cbn [listing_headers app written statuses].
  rewrite written_app, statuses_app, written_stats, statuses_stats.
  repeat split; reflexivity.
Qed.

(** ** The listing does not depend on the order of the directory *)

Lemma filter_perm {A} (f : A -> bool) (l l' : list A) :
  Permutation l l' -> Permutation (filter f l) (filter f l').
Proof.
  induction 1 as [|x l l' _ IH|x y l|l l' l'' _ IH1 _ IH2]; cbn [filter].
  - constructor.
  - destruct (f x); [now constructor|exact IH].
  - destruct (f x), (f y); try reflexivity. apply perm_swap.
  - now transitivity (filter f l').
Qed.

Lemma sorted_unique {A} (R : A -> A -> Prop) :
  (forall a b, R a b -> R b a -> a = b) ->
  forall l1 l2,
    StronglySorted R l1 -> StronglySorted R l2 -> Permutation l1 l2 ->
    l1 = l2.
Proof.
  intros Anti. induction l1 as [|a l1 IH]; intros l2 S1 S2 P.
  - apply Permutation_nil in P. now subst.
  - destruct l2 as [|b l2].
    + apply Permutation_sym, Permutation_nil in P. discriminate.
    + inversion S1 as [|? ? S1' F1]; subst.
      inversion S2 as [|? ? S2' F2]; subst.
      assert (E : a = b).
      { pose proof (Permutation_in a P (or_introl eq_refl)) as Ha.
        pose proof (Permutation_in b (Permutation_sym P) (or_introl eq_refl)) as Hb.
        destruct Ha as [Ha|Ha]; [now symmetry|].
        destruct Hb as [Hb|Hb]; [exact Hb|].
        rewrite Forall_forall in F1, F2. apply Anti; auto. }
      subst b. f_equal. apply IH; trivial.
      exact (Permutation_cons_inv P).
Qed.

Lemma name_ge_antisym (a b : string) : name_ge a b -> name_ge b a -> a = b.
Proof.
  unfold name_ge, String.ltb. intros H1 H2.
  rewrite (String.compare_antisym b a) in H2.
  destruct (String.compare a b) eqn:C; try discriminate.
  now apply String.compare_eq_iff.
Qed.

Lemma listed_paths_names (entries : list string) :
  exists names : list string,
    listed_paths entries = map (child LOG_DIR) names
    /\ Permutation names (filter (fnmatch archived_pattern) entries)
    /\ StronglySorted name_ge names.
Proof.
  assert (C : Forall (fun p => exists n, p = child LOG_DIR n) (listed_paths entries)).
  { pose proof (listed_paths_children entries) as A.
    rewrite Forall_forall in *. intros p Hp.
    destruct (A p Hp) as (n & -> & _). eauto. }
  exists (map path_name (listed_paths entries)).
  split; [symmetry; exact (children_names C)|]. split.
  - unfold listed_paths.
    rewrite (Permutation_map path_name (sorted_reverse_perm _)), map_map.
    erewrite map_ext; [rewrite map_id; reflexivity|].
    intros n. apply path_name_child.
  - apply Sorted_StronglySorted; [exact name_ge_trans|].
    apply (children_sorted C). apply sorted_reverse_sorted.
Qed.

Lemma listed_paths_perm (entries entries' : list string) :
  Permutation entries entries' -> listed_paths entries = listed_paths entries'.
Proof.
  intros P.
  destruct (listed_paths_names entries) as (n1 & -> & P1 & S1).
  destruct (listed_paths_names entries') as (n2 & -> & P2 & S2).
  f_equal. apply (sorted_unique name_ge_antisym); trivial.
  rewrite P1, (filter_perm (fnmatch archived_pattern) P). now symmetry.
Qed.

Lemma stat_loop_ext (fs fs' : FS) (paths : list Path) :
  (forall p, In p paths -> fs' p = fs p) ->
  forall logs,
    for_each paths (append_entry fs') logs = for_each paths (append_entry fs) logs.
Proof.
  induction paths as [|p paths IH]; intros H logs; [reflexivity|].
  rewrite !for_each_cons. unfold append_entry at 1 3, stat.
  rewrite (H p (or_introl eq_refl)).
  destruct (fs p) as [n|]; [|reflexivity].
  cbn [emit ret bind app].
  rewrite (IH (fun q Hq => H q (or_intror Hq))). reflexivity.
Qed.

(** X11: the listing does not depend on the order in which the system
    lists the log directory: with the same entries in another order (and
    whatever the directory's own metadata) the handler performs the same
    effects and writes the same body. *)
Theorem listing_order_independent
  (fs : FS) (st st' : Stat) (entries entries' : list string) :
  fs LOG_DIR = Some (Dir st entries) ->
  Permutation entries entries' ->
  list_logs (relisted fs st' entries') = list_logs fs.
Proof.
  intros F P.
  assert (F' : relisted fs st' entries' LOG_DIR = Some (Dir st' entries'))
    by reflexivity.
  rewrite (list_logs_dir fs F), (list_logs_dir (relisted fs st' entries') F').
  cbv zeta. rewrite <- (listed_paths_perm P).
  rewrite (@stat_loop_ext fs (relisted fs st' entries') (listed_paths entries));
    [reflexivity|].
  intros p Hp. pose proof (listed_paths_children entries) as A.
  rewrite Forall_forall in A. destruct (A p Hp) as (n & -> & _). reflexivity.
Qed.

(** ** From the listing to a log by name *)






(** ** The current log, by its route and by its name *)

(** X13: the route by name serves the current log too.  When the current
    log is a regular file, [GET /api/log/current-run.jsonl] writes the same
    body as the snapshot [GET /api/log]; when it is absent the two differ:
    the snapshot answers 200 with the empty array, without opening
    anything, and the route by name answers 404. *)
Theorem current_log_by_name
  (fs : FS) (later : list FS) (ps : list (string * list string)) :
  (forall (st : Stat) (text : string),
      fs CURRENT_LOG = Some (File st text) ->
      written (trace (do_GET fs later (by_name "current-run.jsonl" ps)))
      = written (trace (do_GET fs later snapshot_request))
      /\ statuses (trace (do_GET fs later (by_name "current-run.jsonl" ps)))
         = [200])
  /\ (fs CURRENT_LOG = None ->
      do_GET fs later snapshot_request
      = (snapshot_headers
         ++ [Exists CURRENT_LOG; Write (json_dumps (JList []))], inl tt)
      /\ do_GET fs later (by_name "current-run.jsonl" ps)
         = ([Exists CURRENT_LOG; SendError 404 "Log not found"], inl tt)).
Proof.
  assert (D : do_GET fs later (by_name "current-run.jsonl" ps)
              = serve_specific_log fs "current-run.jsonl") by reflexivity.
  assert (S : do_GET fs later snapshot_request = serve_log fs) by reflexivity.
  assert (J : joinpath LOG_DIR "current-run.jsonl" = CURRENT_LOG) by reflexivity.
  rewrite D, S. split.
  - intros st text F.
    assert (F' : fs (joinpath LOG_DIR "current-run.jsonl") = Some (File st text))
      by (rewrite J; exact F).
    rewrite (serve_specific_log_file fs "current-run.jsonl" F' eq_refl).
    rewrite (serve_log_file fs F). unfold body_of.
    destruct (outcome (read_all (readlines text))) as [evs|e];
      [destruct (encodable (JList evs))|]; split; reflexivity.
  - intros F. rewrite (serve_log_absent fs F).
    unfold serve_specific_log, exists_. rewrite J, F. split; reflexivity.
Qed.

(** ** A directory in the place of a log *)

(** X14: when the path of a log names a directory, the handler that opens
    it ends with [IsADirectoryError].  The snapshot and the route by name
    (for a name that ends in [.jsonl]) have sent the status 200 and their
    headers by then and write no body; the stream on its side ends at the
    turn that finds the directory (when its size is not the recorded one):
    that turn sends no keepalive and no later turn takes place. *)
Theorem directory_in_place_of_log
  (fs : FS) (st : Stat) (entries : list string) :
  (fs CURRENT_LOG = Some (Dir st entries) ->
   serve_log fs
   = (snapshot_headers ++ [Exists CURRENT_LOG; Open CURRENT_LOG],
      inr IsADirectoryError))
  /\ (forall log_name : string,
        fs (joinpath LOG_DIR log_name) = Some (Dir st entries) ->
        endswith ".jsonl" log_name = true ->
        serve_specific_log fs log_name
        = (Exists (joinpath LOG_DIR log_name)
           :: listing_headers ++ [Open (joinpath LOG_DIR log_name)],
           inr IsADirectoryError))
  /\ (forall (c : Cursor) (later : list FS),
        fs CURRENT_LOG = Some (Dir st entries) ->
        st_size st <> last_size c ->
        for_each (fs :: later) turn c
        = ([Exists CURRENT_LOG; StatOf CURRENT_LOG; Open CURRENT_LOG],
           inr IsADirectoryError)).
Proof.
  split; [|split].
  - intros F. unfold serve_log, read_file, exists_, open_iter. rewrite F. reflexivity.
  - intros log_name F E. unfold serve_specific_log, read_file, exists_, open_iter.
    rewrite F, E. reflexivity.
  - intros c later F S. rewrite for_each_cons. unfold turn.
    rewrite (poll_directory fs c F S). reflexivity.
Qed.


(** ** The size of a snapshot *)

Lemma read_all_records (lines : list string) :
  quiet lines ->
  exists records : list value,
    read_all lines = ret records
    /\ Z.of_nat (List.length records) = count_valid lines
    /\ (List.length records <= List.length lines)%nat
    /\ (forall r : value,
          In r records <->
          exists line, In line lines /\ decode line = Holds r).
Proof.
  unfold count_valid.
  induction 1 as [|l lines Hl Q (records & R & L1 & L2 & M)].
  - exists []. split; [reflexivity|]. split; [reflexivity|].
    split; [cbn; lia|]. intros r. split; [intros []|intros (line & [] & _)].
  - rewrite read_all_cons, R. cbn [filter]. unfold holds_record at 1.
    unfold aborts in Hl.
    destruct (decode l) as [ev| |e] eqn:D; [| |discriminate].
    + exists (ev :: records). split; [reflexivity|].
      split; [cbn [List.length]; lia|]. split; [cbn [List.length]; lia|].
      intros r. split.
      * intros [<-|H]; [exists l; split; [now left|exact D]|].
        apply M in H. destruct H as (line & Hin & Hd).
        exists line. split; [now right|exact Hd].
      * intros (line & [<-|Hin] & Hd).
        -- rewrite Hd in D. inversion D. now left.
        -- right. apply M. eauto.
    + exists records. split; [reflexivity|].
      split; [exact L1|]. split; [cbn [List.length]; lia|].
      intros r. split.
      * intros H. apply M in H. destruct H as (line & Hin & Hd).
        exists line. split; [now right|exact Hd].
      * intros (line & [<-|Hin] & Hd); [congruence|].
        apply M. eauto.
Qed.

(** X15: the snapshot of lines none of which ends a handler that decodes
    it holds one record for each line that holds one: the loop returns,
    the length of what it returns
    is the number of valid lines, never more than the number of lines, its
    records are the decoded lines in file order, and the snapshot of a log
    that has been extended by further such lines is the earlier snapshot
    followed by the records of the new lines.  A further line on which
    [json.loads] raises another exception ends the loop with that
    exception, whatever comes after it. *)
Theorem snapshot_records (lines more : list string) :
  quiet lines ->
  exists records : list value,
    read_all lines = ret records
    /\ Z.of_nat (List.length records) = count_valid lines
    /\ (List.length records <= List.length lines)%nat
    /\ (forall r : value,
          In r records <->
          exists line, In line lines /\ decode line = Holds r)
    /\ (quiet more ->
        exists further : list value,
          read_all more = ret further
          /\ read_all (lines ++ more) = ret (records ++ further))
    /\ (forall (bad : string) (e : Exn),
          decode bad = Aborts e ->
          read_all (lines ++ bad :: more) = raise e).
Proof.
  intros Q. destruct (read_all_records Q) as (records & R & L1 & L2 & M).
  exists records. repeat (split; [assumption|]). split.
  - intros Q'. destruct (read_all_returns Q') as (further & R').
    exists further. split; [exact R'|].
    rewrite (@read_all_app lines more records) by (rewrite R; reflexivity).
    rewrite R'. reflexivity.
  - intros bad e D. exact (@read_all_aborts lines more bad e Q D).
Qed.

(** ** The indices of a session *)

Lemma filter_strongly_sorted {A} (R : A -> A -> Prop) (f : A -> bool)
  (l : list A) :
  StronglySorted R l -> StronglySorted R (filter f l).
Proof.
  induction 1 as [|a l S IH F]; cbn [filter]; [constructor|].
  destruct (f a); [|exact IH].
  constructor; [exact IH|].
  rewrite Forall_forall in *. intros x Hx. apply F.
  apply filter_In in Hx. tauto.
Qed.

Lemma sorted_app_below (o : Z) (s1 s2 : list (Z * value)) :
  StronglySorted (fun a b => fst a < fst b) s1 ->
  StronglySorted (fun a b => fst a < fst b) s2 ->
  Forall (fun ir => fst ir < o) s1 ->
  Forall (fun ir => o <= fst ir) s2 ->
  StronglySorted (fun a b => fst a < fst b) (s1 ++ s2).
Proof.
  intros S1 S2 Hi Lo. induction S1 as [|a s1 S1 IH F1]; [exact S2|].
  inversion Hi as [|? ? Ha Hi']; subst.
  cbn [app]. constructor; [now apply IH|].
  apply Forall_app. split; [exact F1|].
  rewrite Forall_forall in *. intros x Hx. specialize (Lo x Hx). lia.
Qed.


(** What the loop over the lines has sent, whether it returns or raises. *)
Lemma send_from_sent (lines : list string) :
  forall i off,
  exists sent : list (Z * value),
    events_sent (trace (for_each (enumerate_from i lines) send_line off))
    = map as_event sent
    /\ StronglySorted (fun a b => fst a < fst b) sent
    /\ Forall (fun ir => off <= fst ir /\ i <= fst ir) sent
    /\ (forall o,
          outcome (for_each (enumerate_from i lines) send_line off) = inl o ->
          off <= o /\ Forall (fun ir => fst ir < o) sent).
Proof.
  induction lines as [|l lines IH]; intros i off; cbn [enumerate_from for_each].
  - exists []. split; [reflexivity|]. split; [constructor|].
    split; [constructor|]. intros o H. inversion H; subst.
    split; [lia|constructor].
  - rewrite send_line_decode.
    assert (Below : exists sent : list (Z * value),
               events_sent
                 (trace (bind ([], inl off)
                           (fun s' => for_each (enumerate_from (i + 1) lines)
                                               send_line s')))
               = map as_event sent
               /\ StronglySorted (fun a b => fst a < fst b) sent
               /\ Forall (fun ir => off <= fst ir /\ i <= fst ir) sent
               /\ (forall o,
                     outcome (bind ([], inl off)
                                (fun s' => for_each (enumerate_from (i + 1) lines)
                                                    send_line s')) = inl o ->
                     off <= o /\ Forall (fun ir => fst ir < o) sent)).
    { destruct (IH (i + 1) off) as (sent & Ev & S & Lo & Hi).
      exists sent. rewrite bind_value. cbn [trace outcome fst snd app].
      split; [exact Ev|]. split; [exact S|]. split; [|exact Hi].
      rewrite Forall_forall in *. intros x Hx. specialize (Lo x Hx). lia. }
    destruct (i >=? off) eqn:G;
      [destruct (decode l) as [ev| |e]; [destruct (fits ev)| |]|];
      try exact Below.
    + apply Z.geb_le in G.
      destruct (IH (i + 1) (i + 1)) as (sent & Ev & S & Lo & Hi).
      exists ((i, ev) :: sent). rewrite bind_value.
      cbn [trace outcome fst snd app events_sent map]. rewrite Ev.
      split; [reflexivity|]. split; [|split].
      * constructor; [exact S|]. rewrite Forall_forall in *.
        intros x Hx. specialize (Lo x Hx). cbn [fst]. lia.
      * constructor; [cbn [fst]; lia|]. rewrite Forall_forall in *.
        intros x Hx. specialize (Lo x Hx). lia.
      * intros o H. destruct (Hi o H) as (Hle & Hlt).
        split; [lia|]. constructor; [cbn [fst]; lia|exact Hlt].
    + exists []. cbn. split; [reflexivity|]. split; [constructor|].
      split; [constructor|]. intros o H. discriminate H.
    + exists []. cbn. split; [reflexivity|]. split; [constructor|].
      split; [constructor|]. intros o H. discriminate H.
Qed.

Lemma poll_sent (fs : FS) (c : Cursor) :
  exists sent : list (Z * value),
    events_sent (trace (poll fs c)) = map as_event sent
    /\ StronglySorted (fun a b => fst a < fst b) sent
    /\ Forall (fun ir => offset c <= fst ir) sent
    /\ (forall c', outcome (poll fs c) = inl c' ->
                   offset c <= offset c'
                   /\ Forall (fun ir => fst ir < offset c') sent).
Proof.
  destruct (poll_cases fs c)
    as [(t & P & T & _)|[(st & text & F & S)|(e & P)]].
  - exists []. rewrite P. cbn [trace outcome fst snd].
    split; [destruct T as [->| ->]; reflexivity|].
    split; [constructor|]. split; [constructor|].
    intros c' H. inversion H; subst. split; [lia|constructor].
  - destruct (@send_from_sent (readlines text) 0 (offset c))
      as (sent & Ev & St & Lo & Hi).
    exists sent. rewrite (poll_open fs c F S).
    unfold send_new_lines, enumerate. cbn [trace outcome fst snd events_sent].
    split; [exact Ev|]. split; [exact St|]. split.
    + rewrite Forall_forall in *. intros x Hx. exact (proj1 (Lo x Hx)).
    + intros c' H.
      destruct (for_each (enumerate_from 0 (readlines text)) send_line (offset c))
        as [t [o|e]]; unfold outcome in *; cbn [snd] in *; [|discriminate].
      inversion H; subst c'. cbn [offset]. exact (Hi o eq_refl).
  - exists []. rewrite P. cbn [trace outcome fst snd].
    split; [reflexivity|]. split; [constructor|]. split; [constructor|].
    intros c' H. discriminate H.
Qed.

(** X16: whatever happens to the file during a session (growth, rewrite,
    truncation, disappearance), the indices of the events that the session
    sends are strictly increasing and none is below the starting offset:
    no index is sent twice or out of order. *)
Theorem session_indices_increase (turns : list FS) (c : Cursor) :
  exists sent : list (Z * value),
    events_sent (trace (for_each turns turn c)) = map as_event sent
    /\ StronglySorted (fun a b => fst a < fst b) sent
    /\ Forall (fun ir => offset c <= fst ir) sent.
Proof.
  revert c. induction turns as [|fs turns IH]; intros c.
  - exists []. repeat split; constructor.
  - destruct (poll_sent fs c) as (s1 & Ev1 & S1 & Lo1 & Hi1).
    rewrite for_each_cons, trace_bind, turn_outcome, events_sent_app,
      turn_events, Ev1.
    destruct (outcome (poll fs c)) as [c'|e] eqn:Out.
    + destruct (Hi1 c' eq_refl) as (Hle & Hi).
      destruct (IH c') as (s2 & Ev2 & S2 & Lo2).
      exists (s1 ++ s2). rewrite Ev2, map_app.
      split; [reflexivity|]. split.
      * exact (@sorted_app_below (offset c') s1 s2 S1 S2 Hi Lo2).
      * apply Forall_app. split; [exact Lo1|].
        rewrite Forall_forall in *. intros x Hx. specialize (Lo2 x Hx). lia.
    + exists s1. cbn [events_sent]. rewrite app_nil_r.
      split; [reflexivity|]. split; assumption.
Qed.

End General.
(** * The scenarios, on CPython with its defaults *)

#[local] Existing Instance cpython.

(** The lines of a concrete text, one by one. *)
Ltac quiet_lines :=
  unfold quiet;
  match goal with
  | |- Forall ?P ?l =>
      let l' := eval vm_compute in l in
      change (Forall P l')
  end;
  repeat (constructor; [vm_compute; reflexivity|]); constructor.

(** ** The scenario of the snapshot and the stream *)

(** C1, as stated, fails: in the scenario log (a record, an empty line, a
    record) the stream started at offset 0 does not number its two events
    0 and 1. *)
Lemma scenario_stream_indices_not_0_1 :
  events_sent (trace (stream_log (stream_request [("offset", ["0"])]) [scenario_fs]))
  <> [indexed 0 (record_a 1); indexed 1 (record_a 2)].
Proof. vm_compute. intros H. discriminate H. Qed.

(** C1, amended: in the scenario log the snapshot is the two records in
    order, and the stream started at offset 0 (given or by default) sends
    exactly two events, with the two records as payloads and with the
    indices 0 and 2: the index of an event is the number of its line in the
    file, the empty line included.  A further turn on the same file sends
    only a keepalive. *)
Theorem scenario_snapshot_and_stream :
  read_all (readlines scenario_text) = ret [record_a 1; record_a 2]
  /\ written (trace (serve_log scenario_fs))
     = [json_dumps (JList [record_a 1; record_a 2])]
  /\ events_sent (trace (stream_log (stream_request [("offset", ["0"])]) [scenario_fs]))
     = [indexed 0 (record_a 1); indexed 2 (record_a 2)]
  /\ written (trace (stream_log (stream_request []) [scenario_fs; scenario_fs]))
     = [sse_data (indexed 0 (record_a 1)); sse_data (indexed 2 (record_a 2));
        sse_keepalive; sse_keepalive].
Proof. repeat split; vm_compute; reflexivity. Qed.

(** ** Idempotence of the poll *)

Lemma poll_idempotent_witness :
  unchanged scenario_fs {| offset := 3; last_size := 17 |}
  /\ events_sent (trace (poll scenario_fs {| offset := 3; last_size := 17 |})) = []
  /\ outcome (poll scenario_fs {| offset := 3; last_size := 17 |})
     = inl {| offset := 3; last_size := 17 |}
  /\ calm scenario_fs
  /\ (exists c1 : Cursor,
        outcome (poll scenario_fs {| offset := 0; last_size := 0 |}) = inl c1)
  /\ outcome (poll scenario_fs {| offset := 0; last_size := 0 |})
     = inl {| offset := 3; last_size := 17 |}.
Proof.
  assert (U : unchanged scenario_fs {| offset := 3; last_size := 17 |})
    by (vm_compute; reflexivity).
  assert (C : calm scenario_fs).
  { unfold calm. change (scenario_fs CURRENT_LOG)
      with (Some (file_of scenario_text "1700000000.0")).
    cbn [file_of]. quiet_lines. }
  split; [exact U|].
  split; [exact (proj1 (proj1 (poll_idempotent scenario_fs _) U))|].
  split; [exact (proj2 (proj1 (poll_idempotent scenario_fs _) U))|].
  split; [exact C|].
  split; [exact (proj1 (proj2 (poll_idempotent scenario_fs _)) C)|].
  vm_compute; reflexivity.
Defined.

(** ** Tolerance to malformed lines *)

Lemma malformed_line_skipped_witness :
  decode (line_a "1" ++ newline) = Holds (record_a 1)
  /\ decode (line_a "2" ++ newline) = Holds (record_a 2)
  /\ decode truncated_line = Skipped
  /\ readlines malformed_text
     = [(line_a "1" ++ newline)%string; truncated_line;
        (line_a "2" ++ newline)%string]
  /\ written (trace (serve_log malformed_fs))
     = [json_dumps (JList [record_a 1; record_a 2])]
  /\ outcome (serve_log malformed_fs) = inl tt
  /\ decode (deep_line ++ newline) = Aborts RecursionError
  /\ readlines deep_text
     = [(line_a "1" ++ newline)%string; (deep_line ++ newline)%string;
        (line_a "2" ++ newline)%string]
  /\ statuses (trace (serve_log deep_fs)) = [200]
  /\ written (trace (serve_log deep_fs)) = []
  /\ outcome (serve_log deep_fs) = inr RecursionError
  /\ written (trace (serve_log garbled_fs)) = []
  /\ outcome (serve_log garbled_fs) = inr UnicodeDecodeError.
Proof.
  assert (D1 : decode (line_a "1" ++ newline) = Holds (record_a 1))
    by (vm_compute; reflexivity).
  assert (D2 : decode (line_a "2" ++ newline) = Holds (record_a 2))
    by (vm_compute; reflexivity).
  assert (Db : decode truncated_line = Skipped) by (vm_compute; reflexivity).
  assert (Lm : readlines malformed_text
               = [(line_a "1" ++ newline)%string; truncated_line;
                  (line_a "2" ++ newline)%string])
    by (vm_compute; reflexivity).
  assert (Fm : malformed_fs CURRENT_LOG
               = Some (File {| st_size := Z.of_nat (String.length malformed_text);
                               st_mtime := "1700000013.0" |} malformed_text))
    by reflexivity.
  assert (Dd : decode (deep_line ++ newline) = Aborts RecursionError)
    by (vm_compute; reflexivity).
  assert (L : readlines deep_text
              = [(line_a "1" ++ newline)%string; (deep_line ++ newline)%string;
                 (line_a "2" ++ newline)%string])
    by (vm_compute; reflexivity).
  assert (F : deep_fs CURRENT_LOG
              = Some (File {| st_size := Z.of_nat (String.length deep_text);
                              st_mtime := "1700000011.0" |} deep_text))
    by reflexivity.
  destruct (malformed_line_skipped _ _ D1 D2) as (Skip & _ & Abort & Garbled).
  destruct (Skip _ Db) as (_ & _ & Snapshot).
  destruct (proj1 (Snapshot eq_refl eq_refl) malformed_fs _ _ Fm Lm) as (W & O).
  split; [exact D1|]. split; [exact D2|]. split; [exact Db|].
  split; [exact Lm|]. split; [exact W|]. split; [exact O|].
  split; [exact Dd|]. split; [exact L|].
  destruct (proj1 (proj2 (Abort _ _ Dd)) deep_fs _ _ F L) as (S1 & W1 & O1).
  split; [exact S1|]. split; [exact W1|]. split; [exact O1|].
  exact (proj2 (Garbled garbled_fs _ [] eq_refl (Forall_nil _))).
Defined.

(** ** The offset of the cursor *)

(** C2, as stated, fails: after the first poll of the scenario log the
    offset is 3 while the file holds 2 valid records, so the offset is not
    the number of valid records and exceeds it. *)
Lemma scenario_offset_exceeds_valid_count :
  cursors {| offset := 0; last_size := 0 |} [scenario_fs]
  = [{| offset := 3; last_size := 17 |}]
  /\ count_valid (readlines scenario_text) = 2
  /\ ~ (3 <= count_valid (readlines scenario_text)).
Proof.
  split; [vm_compute; reflexivity|].
  split; [vm_compute; reflexivity|].
  vm_compute. intros H. apply H. reflexivity.
Qed.

Lemma offset_monotone_counts_lines_witness :
  scenario_fs CURRENT_LOG
  = Some (File {| st_size := 17; st_mtime := "1700000000.0" |} scenario_text)
  /\ 17 <> last_size {| offset := 0; last_size := 0 |}
  /\ quiet_from (offset {| offset := 0; last_size := 0 |}) (readlines scenario_text)
  /\ exists c' : Cursor,
       outcome (poll scenario_fs {| offset := 0; last_size := 0 |}) = inl c'
       /\ 0 <= offset c'.
Proof.
  assert (F : scenario_fs CURRENT_LOG
              = Some (File {| st_size := 17; st_mtime := "1700000000.0" |}
                           scenario_text)) by reflexivity.
  assert (S : st_size {| st_size := 17; st_mtime := "1700000000.0" |}
              <> last_size {| offset := 0; last_size := 0 |})
    by (simpl; lia).
  assert (Q : quiet_from (offset {| offset := 0; last_size := 0 |})
                         (readlines scenario_text)).
  { apply quiet_quiet_from. quiet_lines. }
  split; [exact F|]. split; [exact S|]. split; [exact Q|].
  destruct (proj2 (proj2 (offset_monotone_counts_lines
                            {| offset := 0; last_size := 0 |} []))
              scenario_fs {| offset := 0; last_size := 0 |} _ _ F S Q)
    as (c' & P & Hle & _).
  exists c'. split; [exact P|exact Hle].
Defined.

(** ** A log that shrank or was replaced *)

(** C3, as stated, fails: with the offset at 5 and a log replaced by one
    of a single record (another size, 1 valid record), the poll leaves the
    offset at 5; it does not reset it to 1. *)
Lemma replaced_log_offset_not_reset :
  st_size (node_stat (file_of replaced_text "1700000001.0")) = 8
  /\ count_valid (readlines replaced_text) = 1
  /\ poll replaced_fs {| offset := 5; last_size := 100 |}
     = ([Exists CURRENT_LOG; StatOf CURRENT_LOG; Open CURRENT_LOG],
        inl {| offset := 5; last_size := 8 |})
  /\ offset {| offset := 5; last_size := 8 |}
     <> count_valid (readlines replaced_text).
Proof.
  repeat split; try (vm_compute; reflexivity).
  vm_compute. intros H. discriminate H.
Qed.

Lemma poll_after_shrink_keeps_offset_witness :
  replaced_fs CURRENT_LOG
  = Some (File {| st_size := 8; st_mtime := "1700000001.0" |} replaced_text)
  /\ 8 <> last_size {| offset := 5; last_size := 100 |}
  /\ (forall (j : nat) (line : string),
        nth_error (readlines replaced_text) j = Some line ->
        offset {| offset := 5; last_size := 100 |} <= Z.of_nat j ->
        decode line = Skipped)
  /\ poll replaced_fs {| offset := 5; last_size := 100 |}
     = ([Exists CURRENT_LOG; StatOf CURRENT_LOG; Open CURRENT_LOG],
        inl {| offset := 5; last_size := 8 |}).
Proof.
  assert (F : replaced_fs CURRENT_LOG
              = Some (File {| st_size := 8; st_mtime := "1700000001.0" |}
                           replaced_text)) by reflexivity.
  assert (S : st_size {| st_size := 8; st_mtime := "1700000001.0" |}
              <> last_size {| offset := 5; last_size := 100 |})
    by (simpl; lia).
  assert (H : forall (j : nat) (line : string),
             nth_error (readlines replaced_text) j = Some line ->
             offset {| offset := 5; last_size := 100 |} <= Z.of_nat j ->
             decode line = Skipped).
  { intros j line Hn Hj. simpl in Hj.
    destruct j as [|j]; [lia|]. destruct j; discriminate Hn. }
  split; [exact F|]. split; [exact S|]. split; [exact H|].
  exact (proj1 (poll_after_shrink_keeps_offset replaced_fs _ F S H)).
Defined.

(** ** A trailing partial write *)

Lemma trailing_line_retried_witness :
  partial_fs CURRENT_LOG
  = Some (File {| st_size := 13; st_mtime := "1700000002.0" |} partial_text)
  /\ readlines partial_text
     = [(line_a "1" ++ newline)%string; ("{" ++ quoted "a" ++ ":")%string]
  /\ offset {| offset := 0; last_size := 0 |} <= 1
  /\ decode ("{" ++ quoted "a" ++ ":") = Skipped
  /\ In (indexed 1 (record_a 2))
        (events_sent (trace (poll completed_fs {| offset := 1; last_size := 13 |})))
  /\ readlines deep_partial_text = [(line_a "1" ++ newline)%string; deep_line]
  /\ decode deep_line = Aborts RecursionError
  /\ outcome (poll deep_partial_fs {| offset := 0; last_size := 0 |})
     = inr RecursionError
  /\ events_sent (trace (for_each [deep_partial_fs; completed_fs] turn
                                  {| offset := 0; last_size := 0 |}))
     = [indexed 0 (record_a 1)]
  /\ for_each [garbled_fs; completed_fs] turn {| offset := 0; last_size := 0 |}
     = ([Exists CURRENT_LOG; StatOf CURRENT_LOG; Open CURRENT_LOG],
        inr UnicodeDecodeError).
Proof.
  assert (F : partial_fs CURRENT_LOG
              = Some (File {| st_size := 13; st_mtime := "1700000002.0" |}
                           partial_text)) by reflexivity.
  assert (L : readlines partial_text
              = [(line_a "1" ++ newline)%string] ++ [("{" ++ quoted "a" ++ ":")%string])
    by (vm_compute; reflexivity).
  assert (Db : decode ("{" ++ quoted "a" ++ ":") = Skipped)
    by (vm_compute; reflexivity).
  assert (Hoff : offset {| offset := 0; last_size := 0 |}
                 <= Z.of_nat (List.length [(line_a "1" ++ newline)%string]))
    by (simpl; lia).
  assert (Q : forall off, quiet_from off [(line_a "1" ++ newline)%string]).
  { intros off. apply quiet_quiet_from. quiet_lines. }
  split; [exact F|]. split; [exact L|]. split; [simpl; lia|].
  split; [exact Db|].
  assert (P : outcome (poll partial_fs {| offset := 0; last_size := 0 |})
              = inl {| offset := 1; last_size := 13 |})
    by (vm_compute; reflexivity).
  split.
  { destruct (proj2 (proj1 (@trailing_line_retried _ partial_fs _ _ _ _ _ F L Hoff)
                           Db) _ P)
      as (_ & _ & Later).
    apply (Later completed_fs
                 {| st_size := 16; st_mtime := "1700000003.0" |} completed_text
                 [(line_a "1" ++ newline)%string] []
                 (line_a "2" ++ newline)%string (record_a 2)).
    - reflexivity.
    - simpl; lia.
    - vm_compute; reflexivity.
    - reflexivity.
    - apply Q.
    - vm_compute; reflexivity.
    - reflexivity. }
  assert (Fd : deep_partial_fs CURRENT_LOG
               = Some (File {| st_size := Z.of_nat (String.length deep_partial_text);
                               st_mtime := "1700000012.0" |} deep_partial_text))
    by reflexivity.
  assert (Ld : readlines deep_partial_text
               = [(line_a "1" ++ newline)%string] ++ [deep_line])
    by (vm_compute; reflexivity).
  assert (Dd : decode deep_line = Aborts RecursionError)
    by (vm_compute; reflexivity).
  assert (Sd : st_size {| st_size := Z.of_nat (String.length deep_partial_text);
                          st_mtime := "1700000012.0" |}
               <> last_size {| offset := 0; last_size := 0 |})
    by (vm_compute; discriminate).
  split; [exact Ld|]. split; [exact Dd|].
  destruct (@trailing_line_retried _ deep_partial_fs _ _ _ _ _ Fd Ld Hoff)
    as (_ & Abort & Garbled).
  destruct (Abort _ Dd Sd (Q _)) as (Out & Session).
  split; [exact Out|].
  split; [rewrite (Session [completed_fs]); vm_compute; reflexivity|].
  apply (Garbled garbled_fs _ {| st_size := 15; st_mtime := "1700000014.0" |} []).
  - reflexivity.
  - simpl; lia.
Defined.

(** ** The offset parameter of a stream *)

Lemma stream_offset_conversion_witness :
  int_of_str "abc" = None
  /\ stream_log (stream_request [("offset", ["abc"])]) [scenario_fs]
     = (stream_headers, inr ValueError)
  /\ accessed (trace (stream_log (stream_request [("offset", ["abc"])])
                                 [scenario_fs])) = [].
Proof.
  assert (I : int_of_str "abc" = None) by reflexivity.
  assert (R : stream_log (stream_request [("offset", ["abc"])]) [scenario_fs]
              = (stream_headers, inr ValueError)).
  { apply (proj1 (stream_offset_conversion
                    (stream_request [("offset", ["abc"])]) [scenario_fs])).
    exists "abc", []. split; [reflexivity|exact I]. }
  split; [exact I|]. split; [exact R|].
  exact (proj1 (proj2 (proj2 (stream_offset_conversion
                               (stream_request [("offset", ["abc"])])
                               [scenario_fs]) R))).
Defined.

(** ** The name of an archived log *)



(** ** The listing of the archived logs *)

Lemma archived_listing_witness :
  archive_fs LOG_DIR
  = Some (Dir {| st_size := 4096; st_mtime := "1700000009.0" |}
              ["ralph_1.jsonl"; "notes.txt"; "ralph_2.jsonl"; "current-run.jsonl"])
  /\ (forall n : string,
        In n ["ralph_1.jsonl"; "notes.txt"; "ralph_2.jsonl"; "current-run.jsonl"] ->
        fnmatch archived_pattern n = true ->
        archive_fs (child LOG_DIR n) <> None)
  /\ (exists (names : list string) (logs : list value),
        Permutation names ["ralph_1.jsonl"; "ralph_2.jsonl"]
        /\ StronglySorted name_ge names
        /\ written (trace (list_logs archive_fs)) = [json_dumps (JList logs)])
  /\ written (trace (list_logs archive_fs))
     = [json_dumps
          (JList [JDict [(ustr "name", JStr (ustr "ralph_2.jsonl"));
                         (ustr "size", JInt 16);
                         (ustr "modified", JFloat "1700000006.0")];
                  JDict [(ustr "name", JStr (ustr "ralph_1.jsonl"));
                         (ustr "size", JInt 8);
                         (ustr "modified", JFloat "1700000005.0")]])].
Proof.
  assert (F : archive_fs LOG_DIR
              = Some (Dir {| st_size := 4096; st_mtime := "1700000009.0" |}
                          ["ralph_1.jsonl"; "notes.txt"; "ralph_2.jsonl";
                           "current-run.jsonl"])) by reflexivity.
  assert (H : forall n : string,
             In n ["ralph_1.jsonl"; "notes.txt"; "ralph_2.jsonl"; "current-run.jsonl"] ->
             fnmatch archived_pattern n = true ->
             archive_fs (child LOG_DIR n) <> None).
  { intros n [<-|[<-|[<-|[<-|[]]]]] _; vm_compute; discriminate. }
  split; [exact F|]. split; [exact H|]. split.
  - destruct (archived_listing archive_fs) as (_ & _ & T & _).
    destruct (T _ _ F H) as (names & logs & P & S & _ & W & _).
    exists names, logs. split; [exact P|]. split; [exact S|exact W].
  - vm_compute. reflexivity.
Defined.

(** ** Further properties, on the scenarios *)

Lemma scenario_quiet : quiet (readlines scenario_text).
Proof. quiet_lines. Qed.

Lemma completed_quiet : quiet (readlines completed_text).
Proof. quiet_lines. Qed.

Lemma scenario_calm : calm scenario_fs.
Proof.
  unfold calm. change (scenario_fs CURRENT_LOG)
    with (Some (file_of scenario_text "1700000000.0")).
  cbn [file_of]. exact scenario_quiet.
Qed.

Lemma poll_sends_from_offset_witness :
  scenario_fs CURRENT_LOG
  = Some (File {| st_size := 17; st_mtime := "1700000000.0" |} scenario_text)
  /\ 17 <> last_size {| offset := 1; last_size := 0 |}
  /\ quiet_from (offset {| offset := 1; last_size := 0 |}) (readlines scenario_text)
  /\ events_sent (trace (poll scenario_fs {| offset := 1; last_size := 0 |}))
     = [indexed 2 (record_a 2)]
  /\ outcome (poll scenario_fs {| offset := 1; last_size := 0 |})
     = inl {| offset := 3; last_size := 17 |}.
Proof.
  assert (F : scenario_fs CURRENT_LOG
              = Some (File {| st_size := 17; st_mtime := "1700000000.0" |}
                           scenario_text)) by reflexivity.
  assert (S : st_size {| st_size := 17; st_mtime := "1700000000.0" |}
              <> last_size {| offset := 1; last_size := 0 |}) by (simpl; lia).
  assert (Q : quiet_from (offset {| offset := 1; last_size := 0 |})
                         (readlines scenario_text)).
  { apply quiet_quiet_from. quiet_lines. }
  split; [exact F|]. split; [exact S|]. split; [exact Q|].
  destruct (@poll_sends_from_offset _ scenario_fs _ _ _ F S Q) as (Ev & Out).
  split.
  - rewrite Ev. vm_compute. reflexivity.
  - rewrite Out. vm_compute. reflexivity.
Defined.

Lemma poll_resume_witness :
  scenario_fs CURRENT_LOG
  = Some (File {| st_size := 17; st_mtime := "1700000000.0" |} scenario_text)
  /\ 17 <> 0
  /\ quiet (readlines scenario_text)
  /\ events_sent (trace (poll scenario_fs {| offset := 0; last_size := 0 |}))
     = [indexed 0 (record_a 1)]
       ++ events_sent (trace (poll scenario_fs {| offset := 1; last_size := 0 |})).
Proof.
  assert (F : scenario_fs CURRENT_LOG
              = Some (File {| st_size := 17; st_mtime := "1700000000.0" |}
                           scenario_text)) by reflexivity.
  assert (S : st_size {| st_size := 17; st_mtime := "1700000000.0" |} <> 0)
    by (simpl; lia).
  assert (Q : quiet (readlines scenario_text)) by quiet_lines.
  split; [exact F|]. split; [exact S|]. split; [exact Q|].
  rewrite (proj1 (@poll_resume _ scenario_fs _ _ 0 1 F S Q)).
  f_equal.
Defined.

Lemma snapshot_stream_agree_witness :
  scenario_fs CURRENT_LOG
  = Some (File {| st_size := 17; st_mtime := "1700000000.0" |} scenario_text)
  /\ 17 <> last_size {| offset := -4; last_size := 0 |}
  /\ offset {| offset := -4; last_size := 0 |} <= 0
  /\ quiet (readlines scenario_text)
  /\ events_sent (trace (poll scenario_fs {| offset := -4; last_size := 0 |}))
     = map as_event [(0, record_a 1); (2, record_a 2)]
  /\ written (trace (serve_log scenario_fs))
     = [json_dumps (JList (map snd [(0, record_a 1); (2, record_a 2)]))].
Proof.
  assert (F : scenario_fs CURRENT_LOG
              = Some (File {| st_size := 17; st_mtime := "1700000000.0" |}
                           scenario_text)) by reflexivity.
  assert (S : st_size {| st_size := 17; st_mtime := "1700000000.0" |}
              <> last_size {| offset := -4; last_size := 0 |}) by (simpl; lia).
  assert (O : offset {| offset := -4; last_size := 0 |} <= 0) by (simpl; lia).
  assert (Q : quiet (readlines scenario_text)) by quiet_lines.
  split; [exact F|]. split; [exact S|]. split; [exact O|]. split; [exact Q|].
  assert (N : numbered_records (readlines scenario_text)
              = [(0, record_a 1); (2, record_a 2)]) by (vm_compute; reflexivity).
  rewrite <- N.
  destruct (@snapshot_stream_agree _ scenario_fs _ _ _ F S O Q) as (A & B & _).
  split; [exact A|exact B].
Defined.

Lemma session_complete_witness :
  grows [] 0 [replaced_fs; replaced_fs; completed_fs] (readlines completed_text)
  /\ quiet (readlines completed_text)
  /\ events_sent
       (trace (for_each [replaced_fs; replaced_fs; completed_fs] turn
                        {| offset := 0; last_size := 0 |}))
     = [indexed 0 (record_a 1); indexed 1 (record_a 2)].
Proof.
  assert (G : grows [] 0 [replaced_fs; replaced_fs; completed_fs]
                    (readlines completed_text)).
  { cbn [grows].
    exists {| st_size := 8; st_mtime := "1700000001.0" |}, replaced_text,
           [(line_a "1" ++ newline)%string].
    split; [reflexivity|]. split; [vm_compute; reflexivity|].
    split; [intros H; discriminate H|].
    exists {| st_size := 8; st_mtime := "1700000001.0" |}, replaced_text, [].
    split; [reflexivity|]. split; [vm_compute; reflexivity|].
    split; [reflexivity|].
    exists {| st_size := 16; st_mtime := "1700000003.0" |}, completed_text,
           [(line_a "2" ++ newline)%string].
    split; [reflexivity|]. split; [vm_compute; reflexivity|].
    split; [intros H; discriminate H|].
    vm_compute; reflexivity. }
  assert (Q : quiet (readlines completed_text)) by quiet_lines.
  split; [exact G|]. split; [exact Q|].
  rewrite (proj1 (proj2 (@session_complete _ _ _ G Q))).
  vm_compute. reflexivity.
Defined.

Lemma one_keepalive_per_turn_witness :
  Forall calm [fs_of []; scenario_fs; scenario_fs]
  /\ List.length
       (filter is_keepalive
               (written (trace (for_each [fs_of []; scenario_fs; scenario_fs] turn
                                         {| offset := 0; last_size := 0 |}))))
     = 3%nat.
Proof.
  assert (C : calm scenario_fs).
  { unfold calm. change (scenario_fs CURRENT_LOG)
      with (Some (file_of scenario_text "1700000000.0")).
    cbn [file_of]. quiet_lines. }
  assert (R : Forall calm [fs_of []; scenario_fs; scenario_fs]).
  { constructor; [exact I|]. constructor; [exact C|].
    constructor; [exact C|constructor]. }
  split; [exact R|].
  exact (proj1 (@one_keepalive_per_turn _ _ {| offset := 0; last_size := 0 |} R)).
Defined.

Lemma unchanging_log_read_once_witness :
  regular scenario_fs
  /\ events_sent (trace (for_each (repeat scenario_fs 4) turn
                                  {| offset := 0; last_size := 0 |}))
     = [indexed 0 (record_a 1); indexed 2 (record_a 2)].
Proof.
  assert (R : regular scenario_fs) by exact I.
  split; [exact R|].
  rewrite (proj2 (@unchanging_log_read_once _ scenario_fs
                    {| offset := 0; last_size := 0 |} 3 R)).
  vm_compute. reflexivity.
Defined.

Lemma listing_vanished_entry_witness :
  vanished_fs LOG_DIR
  = Some (Dir {| st_size := 4096; st_mtime := "1700000009.0" |} ["ralph_1.jsonl"])
  /\ In "ralph_1.jsonl" ["ralph_1.jsonl"]
  /\ fnmatch archived_pattern "ralph_1.jsonl" = true
  /\ vanished_fs (child LOG_DIR "ralph_1.jsonl") = None
  /\ outcome (list_logs vanished_fs) = inr FileNotFoundError.
Proof.
  assert (F : vanished_fs LOG_DIR
              = Some (Dir {| st_size := 4096; st_mtime := "1700000009.0" |}
                          ["ralph_1.jsonl"])) by reflexivity.
  assert (Hin : In "ralph_1.jsonl" ["ralph_1.jsonl"]) by (now left).
  assert (M : fnmatch archived_pattern "ralph_1.jsonl" = true) by reflexivity.
  assert (G : vanished_fs (child LOG_DIR "ralph_1.jsonl") = None) by reflexivity.
  split; [exact F|]. split; [exact Hin|]. split; [exact M|]. split; [exact G|].
  exact (proj1 (@listing_vanished_entry _ vanished_fs _ _ _ F Hin M G)).
Defined.

Lemma listing_order_independent_witness :
  archive_fs LOG_DIR
  = Some (Dir {| st_size := 4096; st_mtime := "1700000009.0" |}
              ["ralph_1.jsonl"; "notes.txt"; "ralph_2.jsonl"; "current-run.jsonl"])
  /\ Permutation
       ["ralph_1.jsonl"; "notes.txt"; "ralph_2.jsonl"; "current-run.jsonl"]
       ["notes.txt"; "ralph_1.jsonl"; "ralph_2.jsonl"; "current-run.jsonl"]
  /\ list_logs (relisted archive_fs {| st_size := 0; st_mtime := "0.0" |}
                         ["notes.txt"; "ralph_1.jsonl"; "ralph_2.jsonl";
                          "current-run.jsonl"])
     = list_logs archive_fs.
Proof.
  assert (F : archive_fs LOG_DIR
              = Some (Dir {| st_size := 4096; st_mtime := "1700000009.0" |}
                          ["ralph_1.jsonl"; "notes.txt"; "ralph_2.jsonl";
                           "current-run.jsonl"])) by reflexivity.
  assert (P : Permutation
                ["ralph_1.jsonl"; "notes.txt"; "ralph_2.jsonl"; "current-run.jsonl"]
                ["notes.txt"; "ralph_1.jsonl"; "ralph_2.jsonl"; "current-run.jsonl"])
    by apply perm_swap.
  split; [exact F|]. split; [exact P|].
  exact (@listing_order_independent _ archive_fs _
           {| st_size := 0; st_mtime := "0.0" |} _ _ F P).
Defined.



Lemma current_log_by_name_witness :
  scenario_fs CURRENT_LOG
  = Some (File {| st_size := 17; st_mtime := "1700000000.0" |} scenario_text)
  /\ written (trace (do_GET scenario_fs [] (by_name "current-run.jsonl" [])))
     = written (trace (do_GET scenario_fs [] snapshot_request))
  /\ fs_of [] CURRENT_LOG = None
  /\ do_GET (fs_of []) [] (by_name "current-run.jsonl" [])
     = ([Exists CURRENT_LOG; SendError 404 "Log not found"], inl tt).
Proof.
  assert (F : scenario_fs CURRENT_LOG
              = Some (File {| st_size := 17; st_mtime := "1700000000.0" |}
                           scenario_text)) by reflexivity.
  assert (A : fs_of [] CURRENT_LOG = None) by reflexivity.
  split; [exact F|].
  split; [exact (proj1 (proj1 (current_log_by_name scenario_fs [] []) _ _ F))|].
  split; [exact A|].
  exact (proj2 (proj2 (current_log_by_name (fs_of []) [] []) A)).
Defined.

Lemma directory_in_place_of_log_witness :
  directory_fs CURRENT_LOG
  = Some (Dir {| st_size := 4096; st_mtime := "1700000010.0" |} [])
  /\ 4096 <> last_size {| offset := 0; last_size := 0 |}
  /\ outcome (serve_log directory_fs) = inr IsADirectoryError
  /\ written (trace (for_each [directory_fs; scenario_fs] turn
                               {| offset := 0; last_size := 0 |})) = [].
Proof.
  assert (F : directory_fs CURRENT_LOG
              = Some (Dir {| st_size := 4096; st_mtime := "1700000010.0" |} []))
    by reflexivity.
  assert (S : st_size {| st_size := 4096; st_mtime := "1700000010.0" |}
              <> last_size {| offset := 0; last_size := 0 |}) by (simpl; lia).
  destruct (@directory_in_place_of_log _ directory_fs
              {| st_size := 4096; st_mtime := "1700000010.0" |} [])
    as (T1 & _ & T3).
  split; [exact F|]. split; [exact S|]. split.
  - rewrite (T1 F). reflexivity.
  - rewrite (T3 _ [scenario_fs] F S). reflexivity.
Defined.


Lemma snapshot_records_witness :
  quiet (readlines scenario_text)
  /\ read_all (readlines scenario_text) = ret [record_a 1; record_a 2]
  /\ count_valid (readlines scenario_text) = 2
  /\ read_all (readlines scenario_text ++ deep_line :: readlines completed_text)
     = raise RecursionError.
Proof.
  assert (Q : quiet (readlines scenario_text)) by quiet_lines.
  assert (D : decode deep_line = Aborts RecursionError)
    by (vm_compute; reflexivity).
  destruct (@snapshot_records _ (readlines scenario_text)
              (readlines completed_text) Q)
    as (records & R & L & _ & _ & _ & A).
  split; [exact Q|]. split; [vm_compute; reflexivity|].
  split; [vm_compute; reflexivity|].
  exact (A _ _ D).
Defined.
